(** * Tensor-core joint_matrix dispatch, tf32 rounding, the HIP peer-access
      adapter and sub-group reductions: a shallow embedding and its
      properties.

    Sources embedded here:
    - sycl/include/sycl/ext/oneapi/matrix/matrix-tensorcore.hpp
    - sycl/include/sycl/ext/oneapi/matrix/matrix-unified.hpp
    - sycl/plugins/unified_runtime/ur/adapters/hip/usm_p2p.cpp
    - sycl/include/sycl/ext/oneapi/group_algorithm.hpp

    Template parameters become ordinary arguments; [if constexpr] chains become
    [if]/[match] chains in the same order; a template that has no definition
    for some arguments, or whose instance for them is ill-formed, is a partial
    function ([option]). *)

From stdpp Require Import gmap strings list.
From Stdlib Require Import ZArith.

Local Open Scope Z_scope.
Set Warnings "-clear-no-such-hyp".

(** ** Element types, matrix use and layout *)

(** The element and storage types that occur as template arguments. *)
Inductive elem_type :=
  | bfloat16 | half | double | uint16_t | int8_t | uint8_t | int32_t | float
  | tf32.  (* precision::tf32, named by matrix-unified.hpp only *)

#[global] Instance elem_type_eq_dec : EqDecision elem_type.
Proof. solve_decision. Defined.

(** [std::is_same_v<T, U>] *)
Definition is_same_v (T U : elem_type) : bool := bool_decide (T = U).

(** [enum class matrix_use { a, b, accumulator }] *)
Module matrix_use.
Inductive t := a | b | accumulator.
#[global] Instance eq_dec : EqDecision t.
Proof. solve_decision. Defined.
End matrix_use.

(** [enum class matrix_layout { row_major, col_major, packed_a, packed_b }] *)
Inductive matrix_layout := row_major | col_major | packed_a | packed_b.

#[global] Instance matrix_layout_eq_dec : EqDecision matrix_layout.
Proof. solve_decision. Defined.

(** [size_t] values (tile extents, strides, slot counts). *)
Abbreviation size_t := N (only parsing).

(** ** The fragment table ([joint_matrix] specialisations) *)

(** How a specialisation declares its [data] member. *)
Inductive container := c_array | marray.

(** One partial specialisation of [joint_matrix]:
    [frag_type data[frag_size]] or [sycl::marray<type, size> data]. *)
Record specialization := {
  sp_type : elem_type;
  sp_use : matrix_use.t;
  sp_M : size_t;
  sp_N : size_t;
  sp_container : container;
  frag_type : elem_type;
  frag_size : size_t
}.

Definition __SYCL_JOINT_MATRIX_OVERLOAD
    (type : elem_type) (use : matrix_use.t) (M N : size_t)
    (frag_type : elem_type) (frag_size : size_t) : specialization :=
  {| sp_type := type; sp_use := use; sp_M := M; sp_N := N;
     sp_container := c_array; frag_type := frag_type; frag_size := frag_size |}.

Definition __SYCL_JOINT_MATRIX_OVERLOAD_ARR
    (type : elem_type) (use : matrix_use.t) (M N : size_t) (size : size_t)
  : specialization :=
  {| sp_type := type; sp_use := use; sp_M := M; sp_N := N;
     sp_container := marray; frag_type := type; frag_size := size |}.

(** The macro expansions of matrix-tensorcore.hpp, in source order (the
    commented-out lines of the source are not expansions and are absent). *)
Definition joint_matrix_specializations : list specialization :=
  let a := matrix_use.a in
  let b := matrix_use.b in
  let accumulator := matrix_use.accumulator in
  [ __SYCL_JOINT_MATRIX_OVERLOAD_ARR bfloat16 a 16 16 8;
    __SYCL_JOINT_MATRIX_OVERLOAD_ARR bfloat16 b 16 16 8;
    __SYCL_JOINT_MATRIX_OVERLOAD_ARR bfloat16 a 8 16 4;
    __SYCL_JOINT_MATRIX_OVERLOAD_ARR bfloat16 b 16 32 16;
    __SYCL_JOINT_MATRIX_OVERLOAD_ARR bfloat16 a 32 16 16;
    __SYCL_JOINT_MATRIX_OVERLOAD_ARR bfloat16 b 16 8 4;
    (* m8n32k16 *)
    __SYCL_JOINT_MATRIX_OVERLOAD_ARR half a 8 16 16;
    __SYCL_JOINT_MATRIX_OVERLOAD_ARR half b 16 32 16;
    __SYCL_JOINT_MATRIX_OVERLOAD_ARR half accumulator 8 32 8;
    __SYCL_JOINT_MATRIX_OVERLOAD_ARR half a 32 16 16;
    __SYCL_JOINT_MATRIX_OVERLOAD_ARR half b 16 8 16;
    __SYCL_JOINT_MATRIX_OVERLOAD_ARR half accumulator 32 8 8;
    __SYCL_JOINT_MATRIX_OVERLOAD_ARR half a 16 16 16;
    __SYCL_JOINT_MATRIX_OVERLOAD_ARR half b 16 16 16;
    __SYCL_JOINT_MATRIX_OVERLOAD_ARR half accumulator 16 16 8;
    (* m8n8k4 double only *)
    __SYCL_JOINT_MATRIX_OVERLOAD double a 8 4 double 1;
    __SYCL_JOINT_MATRIX_OVERLOAD double b 4 8 double 1;
    __SYCL_JOINT_MATRIX_OVERLOAD double accumulator 8 8 double 2;
    (* m8n32k16 *)
    __SYCL_JOINT_MATRIX_OVERLOAD uint16_t a 8 16 int32_t 2;
    __SYCL_JOINT_MATRIX_OVERLOAD uint16_t b 16 32 int32_t 8;
    __SYCL_JOINT_MATRIX_OVERLOAD float accumulator 8 32 float 8;
    __SYCL_JOINT_MATRIX_OVERLOAD int8_t a 8 16 int32_t 1;
    __SYCL_JOINT_MATRIX_OVERLOAD int8_t b 16 32 int32_t 4;
    __SYCL_JOINT_MATRIX_OVERLOAD uint8_t a 8 16 int32_t 1;
    __SYCL_JOINT_MATRIX_OVERLOAD uint8_t b 16 32 int32_t 4;
    __SYCL_JOINT_MATRIX_OVERLOAD int32_t accumulator 8 32 int32_t 8;
    (* m32n8k16 *)
    __SYCL_JOINT_MATRIX_OVERLOAD uint16_t a 32 16 int32_t 8;
    __SYCL_JOINT_MATRIX_OVERLOAD uint16_t b 16 8 int32_t 2;
    __SYCL_JOINT_MATRIX_OVERLOAD float accumulator 32 8 float 8;
    __SYCL_JOINT_MATRIX_OVERLOAD int8_t a 32 16 int32_t 4;
    __SYCL_JOINT_MATRIX_OVERLOAD int8_t b 16 8 int32_t 1;
    __SYCL_JOINT_MATRIX_OVERLOAD uint8_t a 32 16 int32_t 4;
    __SYCL_JOINT_MATRIX_OVERLOAD uint8_t b 16 8 int32_t 1;
    __SYCL_JOINT_MATRIX_OVERLOAD int32_t accumulator 32 8 int32_t 8;
    (* m16n16k16 *)
    __SYCL_JOINT_MATRIX_OVERLOAD uint16_t a 16 16 int32_t 4;
    __SYCL_JOINT_MATRIX_OVERLOAD uint16_t b 16 16 int32_t 4;
    __SYCL_JOINT_MATRIX_OVERLOAD float accumulator 16 16 float 8;
    __SYCL_JOINT_MATRIX_OVERLOAD int8_t a 16 16 int32_t 2;
    __SYCL_JOINT_MATRIX_OVERLOAD int8_t b 16 16 int32_t 2;
    __SYCL_JOINT_MATRIX_OVERLOAD uint8_t a 16 16 int32_t 2;
    __SYCL_JOINT_MATRIX_OVERLOAD uint8_t b 16 16 int32_t 2;
    __SYCL_JOINT_MATRIX_OVERLOAD int32_t accumulator 16 16 int32_t 8 ]%N.

(** Does a specialisation match the template arguments (type, use, M, N)? *)
Definition matches (T : elem_type) (Use : matrix_use.t) (Rows Cols : size_t)
    (s : specialization) : bool :=
  bool_decide (sp_type s = T) && bool_decide (sp_use s = Use)
  && (sp_M s =? Rows)%N && (sp_N s =? Cols)%N.

(** The [std::enable_if_t] condition shared by every specialisation. *)
Definition row_or_col_major (Layout : matrix_layout) : bool :=
  bool_decide (Layout = row_major) || bool_decide (Layout = col_major).

(** [joint_matrix<T, Use, Rows, Cols, Layout, sub_group>]: the specialisation
    that defines the type, or [None] when only the primary template (declared,
    never defined) is left, in which case the type is incomplete. *)
Definition joint_matrix (T : elem_type) (Use : matrix_use.t)
    (Rows Cols : size_t) (Layout : matrix_layout) : option specialization :=
  if row_or_col_major Layout
  then List.find (matches T Use Rows Cols) joint_matrix_specializations
  else None.

(** The template arguments of a [joint_matrix] type: what the spec calls the
    descriptor of a fragment. *)
Record joint_matrix_type := {
  jm_type : elem_type;
  jm_use : matrix_use.t;
  jm_rows : size_t;
  jm_cols : size_t;
  jm_layout : matrix_layout
}.

(** ** Layout identifiers *)

(** [get_layout_id<Layout>()]: declared for every layout, specialised
    (defined) for [row_major] and [col_major] only. *)
Definition get_layout_id (Layout : matrix_layout) : option Z :=
  match Layout with
  | row_major => Some 0
  | col_major => Some 1
  | _ => None
  end.

(** [get_layout_pair_id<LayoutA, LayoutB>()]: four explicit specialisations. *)
Definition get_layout_pair_id (LayoutA LayoutB : matrix_layout) : option Z :=
  match LayoutA, LayoutB with
  | row_major, row_major => Some 0
  | row_major, col_major => Some 1
  | col_major, row_major => Some 2
  | col_major, col_major => Some 3
  | _, _ => None
  end.

(** ** Hardware intrinsics, pointers and the machine state *)

(** The NVPTX builtins the dispatchers call, in order of first use in
    matrix-tensorcore.hpp.  Their bodies belong to the compiler, not to the
    repository: the model knows them by name and operands only. *)
Inductive intrinsic :=
  | __mma_bf16_m16n16k16_ld_a | __mma_bf16_m16n16k16_ld_b
  | __mma_bf16_m8n32k16_ld_a | __mma_bf16_m8n32k16_ld_b
  | __mma_bf16_m32n8k16_ld_a | __mma_bf16_m32n8k16_ld_b
  | __imma_m16n16k16_ld_a_u8 | __imma_m16n16k16_ld_b_u8
  | __imma_m8n32k16_ld_a_u8 | __imma_m8n32k16_ld_b_u8
  | __imma_m32n8k16_ld_a_u8 | __imma_m32n8k16_ld_b_u8
  | __imma_m16n16k16_ld_a_s8 | __imma_m16n16k16_ld_b_s8
  | __imma_m8n32k16_ld_a_s8 | __imma_m8n32k16_ld_b_s8
  | __imma_m32n8k16_ld_a_s8 | __imma_m32n8k16_ld_b_s8
  | __hmma_m16n16k16_ld_a | __hmma_m16n16k16_ld_b | __hmma_m16n16k16_ld_c_f16
  | __hmma_m8n32k16_ld_a | __hmma_m8n32k16_ld_b
  | __hmma_m32n8k16_ld_a | __hmma_m32n8k16_ld_b
  | __hmma_m32n8k16_ld_c_f16 | __hmma_m8n32k16_ld_c_f16
  | __imma_m16n16k16_ld_c | __imma_m8n32k16_ld_c | __imma_m32n8k16_ld_c
  | __hmma_m16n16k16_ld_c_f32 | __hmma_m8n32k16_ld_c_f32
  | __hmma_m32n8k16_ld_c_f32
  | __dmma_m8n8k4_ld_a | __dmma_m8n8k4_ld_b | __dmma_m8n8k4_ld_c
  | __hmma_m16n16k16_st_c_f32 | __imma_m16n16k16_st_c_i32
  | __hmma_m16n16k16_st_c_f16
  | __hmma_m8n32k16_st_c_f32 | __imma_m8n32k16_st_c_i32
  | __hmma_m8n32k16_st_c_f16
  | __hmma_m32n8k16_st_c_f32 | __imma_m32n8k16_st_c_i32
  | __hmma_m32n8k16_st_c_f16
  | __dmma_m8n8k4_st_c_f64
  | __imma_m16n16k16_mma_s8 | __imma_m16n16k16_mma_u8
  | __hmma_m16n16k16_mma_f32f32 | __hmma_m16n16k16_mma_f16f16
  | __mma_bf16_m16n16k16_mma_f32
  | __imma_m8n32k16_mma_s8 | __imma_m8n32k16_mma_u8
  | __hmma_m8n32k16_mma_f32f32 | __hmma_m8n32k16_mma_f16f16
  | __mma_bf16_m8n32k16_mma_f32
  | __imma_m32n8k16_mma_s8 | __imma_m32n8k16_mma_u8
  | __mma_bf16_m32n8k16_mma_f32
  | __hmma_m32n8k16_mma_f32f32 | __hmma_m32n8k16_mma_f16f16
  | __dmma_m8n8k4_mma_f64.

#[global] Instance intrinsic_eq_dec : EqDecision intrinsic.
Proof. solve_decision. Defined.

(** An object (a fragment's [data] member, a buffer in memory) is named by a
    location; a pointer is the object it points into together with the type
    it is declared to point to. *)
Abbreviation loc := positive (only parsing).

Record pointer := { base : loc; pointee : elem_type }.

#[global] Instance pointer_eq_dec : EqDecision pointer.
Proof. solve_decision. Defined.

(** [reinterpret_cast<T *>(p)]: the same object seen as an array of [T]; no
    element is read or converted. *)
Definition reinterpret_cast (T : elem_type) (p : pointer) : pointer :=
  {| base := base p; pointee := T |}.

(** What [reinterpret_cast<int32_t *>] shows of an array of 16-bit elements
    (little-endian, as on NVPTX): each 32-bit word is two adjacent elements,
    the first in the low half.  A last element without a partner is alone in
    its word (the other half lies outside the array). *)
Fixpoint as_int32 (elems : list Z) : list Z :=
  match elems with
  | lo :: hi :: rest => Z.lor lo (Z.shiftl hi 16) :: as_int32 rest
  | [lo] => [lo]
  | [] => []
  end.

(** The other way round: an array of 32-bit words seen as 16-bit elements. *)
Definition as_uint16 (ws : list Z) : list Z :=
  flat_map (fun w => [Z.land w 0xFFFF; Z.shiftr w 16]) ws.

(** Element types of 16 bits. *)
Definition sixteen_bit (T : elem_type) : bool :=
  match T with
  | bfloat16 | half | uint16_t => true
  | _ => false
  end.

(** What an object holds: nothing determinate (declared, never written), or a
    sequence of bit patterns. *)
Inductive contents := indeterminate | words (ws : list Z).

#[global] Instance contents_eq_dec : EqDecision contents.
Proof. solve_decision. Defined.

(** One call of a builtin with its operands, in the order the source passes
    them: [(dst, src, stride, layout)] for the loads and stores and
    [(d, a, b, c, layout, satf)] for the multiply-accumulates. *)
Inductive call :=
  | call_ld_st (f : intrinsic) (dst src : pointer) (stride : size_t) (layout : Z)
  | call_mma (f : intrinsic) (d a b c : pointer) (layout : Z) (satf : Z).

(** The objects a call can reach: those its pointer operands point into. *)
Definition operands (c : call) : list loc :=
  match c with
  | call_ld_st _ dst src _ _ => [base dst; base src]
  | call_mma _ d a b c _ _ => [base d; base a; base b; base c]
  end.

(** The machine: the objects alive and the hardware instructions issued so
    far, oldest first. *)
Record machine := { heap : gmap loc contents; issued : list call }.

(** Stateful code: a function from the machine to a result and the machine. *)
Definition exec (A : Type) : Type := machine -> A * machine.

Definition ret {A : Type} (x : A) : exec A := fun m => (x, m).

Definition bind {A B : Type} (c : exec A) (k : A -> exec B) : exec B :=
  fun m => let (x, m') := c m in k x m'.

Notation "'let*' x ':=' c 'in' k" := (bind c (fun x => k))
  (at level 10, x name, c at level 100, k at level 200).
Notation "c ';;' k" := (bind c (fun _ => k))
  (at level 100, k at level 200, right associativity).

(** The preprocessor symbols that decide what the sources compile to: the two
    they test themselves, and [NDEBUG], which turns [assert] into nothing. *)
Record target := {
  __SYCL_DEVICE_ONLY__ : bool;
  __NVPTX__ : bool;
  NDEBUG : bool
}.

(** The second argument of [runtime_error]. *)
Inductive pi_result := PI_INVALID_DEVICE | PI_ERROR_INVALID_DEVICE.

(** How a call of an API function ends. *)
Inductive outcome (A : Type) :=
  | Returned (v : A)
  | Thrown (what : string) (code : pi_result)  (* throw runtime_error(..) *)
  | AssertionFailed (expr : string)            (* assert(false && "..") *)
  | NoReturn.  (* the end of a non-void function is reached without return *)

(** An API function: it runs on the machine and ends in one of these ways. *)
Definition api (A : Type) : Type := machine -> outcome A * machine.

Arguments Returned {A} v.
Arguments Thrown {A} what code.
Arguments AssertionFailed {A} expr.
Arguments NoReturn {A}.

(** Objects come and go with the scopes of the source: a declaration makes a
    new object, passing a fragment by value makes a new object holding a copy,
    and the end of a function ends the life of its parameters. *)
Definition declare (v : contents) : exec loc := fun m =>
  let l := fresh (dom (heap m)) in
  (l, {| heap := <[l := v]> (heap m); issued := issued m |}).

Definition by_value (x : loc) : exec loc := fun m =>
  declare (default indeterminate (heap m !! x)) m.

Definition end_of_life (x : loc) : exec unit := fun m =>
  (tt, {| heap := delete x (heap m); issued := issued m |}).

(** Issuing a hardware instruction: the call is recorded and the hardware
    ([hw], whatever it does) acts on the objects. *)
Definition issue (hw : call -> gmap loc contents -> gmap loc contents)
    (c : call) : exec unit := fun m =>
  (tt, {| heap := hw c (heap m); issued := issued m ++ [c] |}).

(** ** The builtins as clang declares them *)

(** The types the pointer parameters of a builtin point to, in the order of
    the parameters, as clang's BuiltinsNVPTX.def declares them (that file is
    not among the sources at hand): [int] throughout, except [float] for the
    f32 accumulators and [double] for the dmma builtins.  A load or a store
    takes [(dst, src, unsigned stride, int layout)], a multiply-accumulate
    [(d, a, b, c, int layout, int satf)]. *)
Definition parameter_types (f : intrinsic) : list elem_type :=
  match f with
  | __hmma_m16n16k16_ld_c_f32 | __hmma_m8n32k16_ld_c_f32
  | __hmma_m32n8k16_ld_c_f32
  | __hmma_m16n16k16_st_c_f32 | __hmma_m8n32k16_st_c_f32
  | __hmma_m32n8k16_st_c_f32 =>
      [float; float]
  | __dmma_m8n8k4_ld_a | __dmma_m8n8k4_ld_b | __dmma_m8n8k4_ld_c
  | __dmma_m8n8k4_st_c_f64 =>
      [double; double]
  | __mma_bf16_m16n16k16_ld_a | __mma_bf16_m16n16k16_ld_b
  | __mma_bf16_m8n32k16_ld_a | __mma_bf16_m8n32k16_ld_b
  | __mma_bf16_m32n8k16_ld_a | __mma_bf16_m32n8k16_ld_b
  | __imma_m16n16k16_ld_a_u8 | __imma_m16n16k16_ld_b_u8
  | __imma_m8n32k16_ld_a_u8 | __imma_m8n32k16_ld_b_u8
  | __imma_m32n8k16_ld_a_u8 | __imma_m32n8k16_ld_b_u8
  | __imma_m16n16k16_ld_a_s8 | __imma_m16n16k16_ld_b_s8
  | __imma_m8n32k16_ld_a_s8 | __imma_m8n32k16_ld_b_s8
  | __imma_m32n8k16_ld_a_s8 | __imma_m32n8k16_ld_b_s8
  | __hmma_m16n16k16_ld_a | __hmma_m16n16k16_ld_b | __hmma_m16n16k16_ld_c_f16
  | __hmma_m8n32k16_ld_a | __hmma_m8n32k16_ld_b
  | __hmma_m32n8k16_ld_a | __hmma_m32n8k16_ld_b
  | __hmma_m32n8k16_ld_c_f16 | __hmma_m8n32k16_ld_c_f16
  | __imma_m16n16k16_ld_c | __imma_m8n32k16_ld_c | __imma_m32n8k16_ld_c
  | __imma_m16n16k16_st_c_i32 | __imma_m8n32k16_st_c_i32
  | __imma_m32n8k16_st_c_i32
  | __hmma_m16n16k16_st_c_f16 | __hmma_m8n32k16_st_c_f16
  | __hmma_m32n8k16_st_c_f16 =>
      [int32_t; int32_t]
  | __imma_m16n16k16_mma_s8 | __imma_m16n16k16_mma_u8
  | __imma_m8n32k16_mma_s8 | __imma_m8n32k16_mma_u8
  | __imma_m32n8k16_mma_s8 | __imma_m32n8k16_mma_u8
  | __hmma_m16n16k16_mma_f16f16 | __hmma_m8n32k16_mma_f16f16
  | __hmma_m32n8k16_mma_f16f16 =>
      [int32_t; int32_t; int32_t; int32_t]
  | __hmma_m16n16k16_mma_f32f32 | __hmma_m8n32k16_mma_f32f32
  | __hmma_m32n8k16_mma_f32f32
  | __mma_bf16_m16n16k16_mma_f32 | __mma_bf16_m8n32k16_mma_f32
  | __mma_bf16_m32n8k16_mma_f32 =>
      [float; int32_t; int32_t; float]
  | __dmma_m8n8k4_mma_f64 =>
      [double; double; double; double]
  end.

(** A call is well-formed when its pointer arguments point to the types of
    the parameters: a pointer converts to no pointer of another element
    type.  (A [marray] passed as it is is no pointer either; its element
    types, half and bfloat16, are not parameter types of any builtin.) *)
Definition type_checks (c : call) : bool :=
  match c with
  | call_ld_st f dst src _ _ =>
      bool_decide ([pointee dst; pointee src] = parameter_types f)
  | call_mma f d a b c _ _ =>
      bool_decide ([pointee d; pointee a; pointee b; pointee c]
                   = parameter_types f)
  end.

(** The [unsigned int] a [size_t] converts to when it is passed for a
    parameter of that type, as the stride of a load or a store is: its value
    modulo 2^32. *)
Definition unsigned_int (x : size_t) : size_t := (x mod 2 ^ 32)%N.

Arguments unsigned_int : simpl never.

(** ** matrix-tensorcore.hpp *)

Module tensorcore.
Section dispatch.
Variable hw : call -> gmap loc contents -> gmap loc contents.

(** What the default constructor of [sycl::marray<type, size>] leaves in the
    array; marray.hpp is not among the sources at hand. *)
Variable marray_default : elem_type -> size_t -> contents.

(** A fragment that is declared and not initialised: a C array holds nothing
    determinate, a [marray] what its default constructor leaves. *)
Definition default_initialized (spec : specialization) : contents :=
  match sp_container spec with
  | c_array => indeterminate
  | marray => marray_default (frag_type spec) (frag_size spec)
  end.

Local Open Scope N_scope.

Local Notation "x == y" := (bool_decide (x = y)) (at level 70, no associativity).
Local Abbreviation skip := (ret tt).

(** [joint_matrix_load_impl<T, Use, NumRows, NumCols, Layout, Space>::load].
    The template arguments select the member function, if there is one:
    [None] when the layout is outside the [enable_if] (the primary template
    declares [load] and never defines it) or when the fragment type is
    incomplete.  The function takes [res] (the fragment; its [data] member has
    the storage type its specialisation declares), [src] (the object
    [src.get()] points into) and [stride], a [size_t] that each call passes
    for the [unsigned int] parameter of its builtin. *)
Definition load (T : elem_type) (Use : matrix_use.t) (NumRows NumCols : size_t)
    (Layout : matrix_layout) : option (loc -> loc -> size_t -> exec unit) :=
  if row_or_col_major Layout then
    spec ← joint_matrix T Use NumRows NumCols Layout;
    layout_id ← get_layout_id Layout;
    Some (fun res src stride =>
    let res_data := {| base := res; pointee := frag_type spec |} in
    let src_get := {| base := src; pointee := T |} in
    if is_same_v T uint16_t || is_same_v T bfloat16 then
      let tileptr := reinterpret_cast int32_t src_get in
      let destptr := reinterpret_cast int32_t res_data in
      if (NumRows =? 16) && (NumCols =? 16) then
        if Use == matrix_use.a then
          issue hw (call_ld_st __mma_bf16_m16n16k16_ld_a destptr tileptr (unsigned_int stride) layout_id)
        else if Use == matrix_use.b then
          issue hw (call_ld_st __mma_bf16_m16n16k16_ld_b destptr tileptr (unsigned_int stride) layout_id)
        else skip
      else if (NumRows =? 8) && (NumCols =? 16) then
        issue hw (call_ld_st __mma_bf16_m8n32k16_ld_a destptr tileptr (unsigned_int stride) layout_id)
      else if (NumRows =? 16) && (NumCols =? 32) then
        issue hw (call_ld_st __mma_bf16_m8n32k16_ld_b destptr tileptr (unsigned_int stride) layout_id)
      else if (NumRows =? 32) && (NumCols =? 16) then
        issue hw (call_ld_st __mma_bf16_m32n8k16_ld_a destptr tileptr (unsigned_int stride) layout_id)
      else if (NumRows =? 16) && (NumCols =? 8) then
        issue hw (call_ld_st __mma_bf16_m32n8k16_ld_b destptr tileptr (unsigned_int stride) layout_id)
      else skip
    else if is_same_v T uint8_t then
      let tileptr := reinterpret_cast int32_t src_get in
      if (NumRows =? 16) && (NumCols =? 16) then
        if Use == matrix_use.a then
          issue hw (call_ld_st __imma_m16n16k16_ld_a_u8 res_data tileptr (unsigned_int stride) layout_id)
        else if Use == matrix_use.b then
          issue hw (call_ld_st __imma_m16n16k16_ld_b_u8 res_data tileptr (unsigned_int stride) layout_id)
        else skip
      else if (NumRows =? 8) && (NumCols =? 16) then
        issue hw (call_ld_st __imma_m8n32k16_ld_a_u8 res_data tileptr (unsigned_int stride) layout_id)
      else if (NumRows =? 16) && (NumCols =? 32) then
        issue hw (call_ld_st __imma_m8n32k16_ld_b_u8 res_data tileptr (unsigned_int stride) layout_id)
      else if (NumRows =? 32) && (NumCols =? 16) then
        issue hw (call_ld_st __imma_m32n8k16_ld_a_u8 res_data tileptr (unsigned_int stride) layout_id)
      else if (NumRows =? 16) && (NumCols =? 8) then
        issue hw (call_ld_st __imma_m32n8k16_ld_b_u8 res_data tileptr (unsigned_int stride) layout_id)
      else skip
    else if is_same_v T int8_t then
      let tileptr := reinterpret_cast int32_t src_get in
      if (NumRows =? 16) && (NumCols =? 16) then
        if Use == matrix_use.a then
          issue hw (call_ld_st __imma_m16n16k16_ld_a_s8 res_data tileptr (unsigned_int stride) layout_id)
        else if Use == matrix_use.b then
          issue hw (call_ld_st __imma_m16n16k16_ld_b_s8 res_data tileptr (unsigned_int stride) layout_id)
        else skip
      else if (NumRows =? 8) && (NumCols =? 16) then
        issue hw (call_ld_st __imma_m8n32k16_ld_a_s8 res_data tileptr (unsigned_int stride) layout_id)
      else if (NumRows =? 16) && (NumCols =? 32) then
        issue hw (call_ld_st __imma_m8n32k16_ld_b_s8 res_data tileptr (unsigned_int stride) layout_id)
      else if (NumRows =? 32) && (NumCols =? 16) then
        issue hw (call_ld_st __imma_m32n8k16_ld_a_s8 res_data tileptr (unsigned_int stride) layout_id)
      else if (NumRows =? 16) && (NumCols =? 8) then
        issue hw (call_ld_st __imma_m32n8k16_ld_b_s8 res_data tileptr (unsigned_int stride) layout_id)
      else skip
    else if is_same_v T half then
      let tileptr := reinterpret_cast int32_t src_get in
      let dstptr := reinterpret_cast int32_t res_data in
      if (NumRows =? 16) && (NumCols =? 16) then
        if Use == matrix_use.a then
          issue hw (call_ld_st __hmma_m16n16k16_ld_a dstptr tileptr (unsigned_int stride) layout_id)
        else if Use == matrix_use.b then
          issue hw (call_ld_st __hmma_m16n16k16_ld_b dstptr tileptr (unsigned_int stride) layout_id)
        else if Use == matrix_use.accumulator then
          issue hw (call_ld_st __hmma_m16n16k16_ld_c_f16 dstptr tileptr (unsigned_int stride) layout_id)
        else skip
      else if (NumRows =? 8) && (NumCols =? 16) then
        issue hw (call_ld_st __hmma_m8n32k16_ld_a dstptr tileptr (unsigned_int stride) layout_id)
      else if (NumRows =? 16) && (NumCols =? 32) then
        issue hw (call_ld_st __hmma_m8n32k16_ld_b dstptr tileptr (unsigned_int stride) layout_id)
      else if (NumRows =? 32) && (NumCols =? 16) then
        issue hw (call_ld_st __hmma_m32n8k16_ld_a dstptr tileptr (unsigned_int stride) layout_id)
      else if (NumRows =? 16) && (NumCols =? 8) then
        issue hw (call_ld_st __hmma_m32n8k16_ld_b dstptr tileptr (unsigned_int stride) layout_id)
      else if (NumRows =? 32) && (NumCols =? 8) then
        issue hw (call_ld_st __hmma_m32n8k16_ld_c_f16 dstptr tileptr (unsigned_int stride) layout_id)
      else if (NumRows =? 8) && (NumCols =? 32) then
        issue hw (call_ld_st __hmma_m8n32k16_ld_c_f16 dstptr tileptr (unsigned_int stride) layout_id)
      else skip
    else if is_same_v T int32_t then
      if (NumRows =? 16) && (NumCols =? 16) then
        issue hw (call_ld_st __imma_m16n16k16_ld_c res_data src_get (unsigned_int stride) layout_id)
      else if (NumRows =? 8) && (NumCols =? 32) then
        issue hw (call_ld_st __imma_m8n32k16_ld_c res_data src_get (unsigned_int stride) layout_id)
      else if (NumRows =? 32) && (NumCols =? 8) then
        issue hw (call_ld_st __imma_m32n8k16_ld_c res_data src_get (unsigned_int stride) layout_id)
      else skip
    else if is_same_v T float then
      if (NumRows =? 16) && (NumCols =? 16) then
        issue hw (call_ld_st __hmma_m16n16k16_ld_c_f32 res_data src_get (unsigned_int stride) layout_id)
      else if (NumRows =? 8) && (NumCols =? 32) then
        issue hw (call_ld_st __hmma_m8n32k16_ld_c_f32 res_data src_get (unsigned_int stride) layout_id)
      else if (NumRows =? 32) && (NumCols =? 8) then
        issue hw (call_ld_st __hmma_m32n8k16_ld_c_f32 res_data src_get (unsigned_int stride) layout_id)
      else skip
    else if is_same_v T double then
      if Use == matrix_use.a then
        issue hw (call_ld_st __dmma_m8n8k4_ld_a res_data src_get (unsigned_int stride) layout_id)
      else if Use == matrix_use.b then
        issue hw (call_ld_st __dmma_m8n8k4_ld_b res_data src_get (unsigned_int stride) layout_id)
      else if Use == matrix_use.accumulator then
        issue hw (call_ld_st __dmma_m8n8k4_ld_c res_data src_get (unsigned_int stride) layout_id)
      else skip
    else skip)
  else None.

(** [joint_matrix_store_impl<T, NumRows, NumCols, Layout, Space>::store].
    The function takes [src] (an accumulator fragment), [dst] (the object
    [dst.get()] points into) and [stride]. *)
Definition store (T : elem_type) (NumRows NumCols : size_t)
    (Layout : matrix_layout) : option (loc -> loc -> size_t -> exec unit) :=
  if row_or_col_major Layout then
    spec ← joint_matrix T matrix_use.accumulator NumRows NumCols Layout;
    layout_id ← get_layout_id Layout;
    Some (fun src dst stride =>
    let src_data := {| base := src; pointee := frag_type spec |} in
    let dst_get := {| base := dst; pointee := T |} in
    if (NumRows =? 16) && (NumCols =? 16) then
      if is_same_v T float then
        issue hw (call_ld_st __hmma_m16n16k16_st_c_f32 dst_get src_data (unsigned_int stride) layout_id)
      else if is_same_v T int32_t then
        issue hw (call_ld_st __imma_m16n16k16_st_c_i32 dst_get src_data (unsigned_int stride) layout_id)
      else if is_same_v T half then
        let tileptr := reinterpret_cast int32_t dst_get in
        let srcptr := reinterpret_cast int32_t src_data in
        issue hw (call_ld_st __hmma_m16n16k16_st_c_f16 tileptr srcptr (unsigned_int stride) layout_id)
      else skip
    else if (NumRows =? 8) && (NumCols =? 32) then
      if is_same_v T float then
        issue hw (call_ld_st __hmma_m8n32k16_st_c_f32 dst_get src_data (unsigned_int stride) layout_id)
      else if is_same_v T int32_t then
        issue hw (call_ld_st __imma_m8n32k16_st_c_i32 dst_get src_data (unsigned_int stride) layout_id)
      else if is_same_v T half then
        let tileptr := reinterpret_cast int32_t dst_get in
        let srcptr := reinterpret_cast int32_t src_data in
        issue hw (call_ld_st __hmma_m8n32k16_st_c_f16 tileptr srcptr (unsigned_int stride) layout_id)
      else skip
    else if (NumRows =? 32) && (NumCols =? 8) then
      if is_same_v T float then
        issue hw (call_ld_st __hmma_m32n8k16_st_c_f32 dst_get src_data (unsigned_int stride) layout_id)
      else if is_same_v T int32_t then
        issue hw (call_ld_st __imma_m32n8k16_st_c_i32 dst_get src_data (unsigned_int stride) layout_id)
      else if is_same_v T half then
        let tileptr := reinterpret_cast int32_t dst_get in
        let srcptr := reinterpret_cast int32_t src_data in
        issue hw (call_ld_st __hmma_m32n8k16_st_c_f16 tileptr srcptr (unsigned_int stride) layout_id)
      else skip
    else if is_same_v T double then
      issue hw (call_ld_st __dmma_m8n8k4_st_c_f64 dst_get src_data (unsigned_int stride) layout_id)
    else skip)
  else None.

(** The builtin calls of an instance of [mad].  Its [if constexpr] chain is
    resolved when the template is instantiated, so that the instance has the
    same statements whatever it is applied to: its calls are those of one
    run. *)
Definition builtin_calls (instance : loc -> loc -> loc -> exec loc)
  : list call :=
  issued (snd (instance 1%positive 1%positive 1%positive
                        {| heap := ∅; issued := [] |})).

(** An instance with a builtin call that is not well-formed does not compile:
    there is no such function. *)
Definition instantiate (instance : loc -> loc -> loc -> exec loc)
  : option (loc -> loc -> loc -> exec loc) :=
  if forallb type_checks (builtin_calls instance) then Some instance else None.

(** [joint_matrix_mad_impl<T1, T2, M, K, N, LayoutA, LayoutB, LayoutC>::mad].
    [A], [B] and [C] are passed by value: the function works on copies, whose
    life ends when it returns; [D] is declared, not initialised, and
    returned.  The branch taken passes the [data] members, or what
    [reinterpret_cast] makes of them, to a builtin; where their types are not
    those of the builtin's parameters the instance is ill-formed ([None]). *)
Definition mad (T1 T2 : elem_type) (M K N : size_t)
    (LayoutA LayoutB LayoutC : matrix_layout)
  : option (loc -> loc -> loc -> exec loc) :=
  if row_or_col_major LayoutA && row_or_col_major LayoutB
     && row_or_col_major LayoutC then
    specA ← joint_matrix T1 matrix_use.a M K LayoutA;
    specB ← joint_matrix T1 matrix_use.b K N LayoutB;
    specC ← joint_matrix T2 matrix_use.accumulator M N LayoutC;
    layout_pair_id ← get_layout_pair_id LayoutA LayoutB;
    instantiate (fun A B C =>
    let* A := by_value A in
    let* B := by_value B in
    let* C := by_value C in
    let* D := declare (default_initialized specC) in
    let A_data := {| base := A; pointee := frag_type specA |} in
    let B_data := {| base := B; pointee := frag_type specB |} in
    let C_data := {| base := C; pointee := frag_type specC |} in
    let D_data := {| base := D; pointee := frag_type specC |} in
    (if (M =? 16) && (N =? 16) && (K =? 16) then
      if is_same_v T1 int8_t then
        issue hw (call_mma __imma_m16n16k16_mma_s8 D_data A_data B_data C_data layout_pair_id 0%Z)
      else if is_same_v T1 uint8_t then
        issue hw (call_mma __imma_m16n16k16_mma_u8 D_data A_data B_data C_data layout_pair_id 0%Z)
      else if is_same_v T1 half then
        let ptrA := reinterpret_cast int32_t A_data in
        let ptrB := reinterpret_cast int32_t B_data in
        if is_same_v T2 float then
          issue hw (call_mma __hmma_m16n16k16_mma_f32f32 D_data ptrA ptrB C_data layout_pair_id 0%Z)
        else if is_same_v T2 half then
          let ptrC := reinterpret_cast int32_t C_data in
          let ptrD := reinterpret_cast int32_t D_data in
          issue hw (call_mma __hmma_m16n16k16_mma_f16f16 ptrD ptrA ptrB ptrC layout_pair_id 0%Z)
        else skip
      else if is_same_v T1 uint16_t || is_same_v T1 bfloat16 then
        let ptrA := reinterpret_cast int32_t A_data in
        let ptrB := reinterpret_cast int32_t B_data in
        issue hw (call_mma __mma_bf16_m16n16k16_mma_f32 D_data ptrA ptrB C_data layout_pair_id 0%Z)
      else skip
    else if (M =? 8) && (N =? 32) && (K =? 16) then
      if is_same_v T1 int8_t then
        issue hw (call_mma __imma_m8n32k16_mma_s8 D_data A_data B_data C_data layout_pair_id 0%Z)
      else if is_same_v T1 uint8_t then
        issue hw (call_mma __imma_m8n32k16_mma_u8 D_data A_data B_data C_data layout_pair_id 0%Z)
      else if is_same_v T1 half then
        let ptrA := reinterpret_cast int32_t A_data in
        let ptrB := reinterpret_cast int32_t B_data in
        if is_same_v T2 float then
          issue hw (call_mma __hmma_m8n32k16_mma_f32f32 D_data ptrA ptrB C_data layout_pair_id 0%Z)
        else if is_same_v T2 half then
          let ptrC := reinterpret_cast int32_t C_data in
          let ptrD := reinterpret_cast int32_t D_data in
          issue hw (call_mma __hmma_m8n32k16_mma_f16f16 ptrD ptrA ptrB ptrC layout_pair_id 0%Z)
        else skip
      else if is_same_v T1 uint16_t || is_same_v T1 bfloat16 then
        let ptrA := reinterpret_cast int32_t A_data in
        let ptrB := reinterpret_cast int32_t B_data in
        issue hw (call_mma __mma_bf16_m8n32k16_mma_f32 D_data ptrA ptrB C_data layout_pair_id 0%Z)
      else skip
    else if (M =? 32) && (N =? 8) && (K =? 16) then
      if is_same_v T1 int8_t then
        issue hw (call_mma __imma_m32n8k16_mma_s8 D_data A_data B_data C_data layout_pair_id 0%Z)
      else if is_same_v T1 uint8_t then
        issue hw (call_mma __imma_m32n8k16_mma_u8 D_data A_data B_data C_data layout_pair_id 0%Z)
      else if is_same_v T1 uint16_t || is_same_v T1 bfloat16 then
        let ptrA := reinterpret_cast int32_t A_data in
        let ptrB := reinterpret_cast int32_t B_data in
        issue hw (call_mma __mma_bf16_m32n8k16_mma_f32 D_data ptrA ptrB C_data layout_pair_id 0%Z)
      else if is_same_v T1 half then
        let ptrA := reinterpret_cast int32_t A_data in
        let ptrB := reinterpret_cast int32_t B_data in
        if is_same_v T2 float then
          issue hw (call_mma __hmma_m32n8k16_mma_f32f32 D_data ptrA ptrB C_data layout_pair_id 0%Z)
        else if is_same_v T2 half then
          let ptrC := reinterpret_cast int32_t C_data in
          let ptrD := reinterpret_cast int32_t D_data in
          issue hw (call_mma __hmma_m32n8k16_mma_f16f16 ptrD ptrA ptrB ptrC layout_pair_id 0%Z)
        else skip
      else skip
    else if is_same_v T1 double then
      issue hw (call_mma __dmma_m8n8k4_mma_f64 D_data A_data B_data C_data layout_pair_id 0%Z)
    else skip);;
    end_of_life C;;
    end_of_life B;;
    end_of_life A;;
    ret D)
  else None.

(** Every instance of [mad] runs the same steps around at most one call of a
    builtin; [mad_steps] is that shape, the call (if any) being given by the
    builtin and by the types its four pointers are declared with; [initial]
    is what [D] holds when declared. *)
Definition mad_steps
    (choice : option (intrinsic * elem_type * elem_type * elem_type * elem_type))
    (layout_pair_id : Z) (initial : contents) (A B C : loc) : exec loc :=
  let* A := by_value A in
  let* B := by_value B in
  let* C := by_value C in
  let* D := declare initial in
  match choice with
  | Some (f, tD, tA, tB, tC) =>
      issue hw (call_mma f {| base := D; pointee := tD |}
                         {| base := A; pointee := tA |}
                         {| base := B; pointee := tB |}
                         {| base := C; pointee := tC |} layout_pair_id 0%Z)
  | None => skip
  end;;
  end_of_life C;;
  end_of_life B;;
  end_of_life A;;
  ret D.

(** The same for [joint_matrix_mad] on the device: it copies its parameters
    once more around the steps of [mad]. *)
Definition joint_matrix_mad_steps
    (choice : option (intrinsic * elem_type * elem_type * elem_type * elem_type))
    (layout_pair_id : Z) (initial : contents) (A B C : loc) : exec loc :=
  let* A := by_value A in
  let* B := by_value B in
  let* C := by_value C in
  let* D := mad_steps choice layout_pair_id initial A B C in
  end_of_life C;;
  end_of_life B;;
  end_of_life A;;
  ret D.

(** [experimental::matrix::joint_matrix_load(sg, res, src, stride)]; [res] is
    a reference. *)
Definition joint_matrix_load (tgt : target) (T : elem_type)
    (Use : matrix_use.t) (NumRows NumCols : size_t) (Layout : matrix_layout)
  : option (loc -> loc -> size_t -> api unit) :=
  if __SYCL_DEVICE_ONLY__ tgt && __NVPTX__ tgt then
    match load T Use NumRows NumCols Layout with
    | Some impl =>
        Some (fun res src stride m =>
          let (_, m') := impl res src stride m in (Returned tt, m'))
    | None => None
    end
  else
    Some (fun res src stride m =>
      (Thrown "When using SYCL_EXT_ONEAPI_MATRIX=3 joint_matrix_load is only supported by CUDA devices"
              PI_INVALID_DEVICE, m)).

(** [experimental::matrix::joint_matrix_store(sg, src, dst, stride)]; [src]
    is a reference. *)
Definition joint_matrix_store (tgt : target) (T : elem_type)
    (NumRows NumCols : size_t) (Layout : matrix_layout)
  : option (loc -> loc -> size_t -> api unit) :=
  if __SYCL_DEVICE_ONLY__ tgt && __NVPTX__ tgt then
    match store T NumRows NumCols Layout with
    | Some impl =>
        Some (fun src dst stride m =>
          let (_, m') := impl src dst stride m in (Returned tt, m'))
    | None => None
    end
  else
    Some (fun src dst stride m =>
      (Thrown "When using SYCL_EXT_ONEAPI_MATRIX=3 joint_matrix_store is only supported by CUDA devices"
              PI_INVALID_DEVICE, m)).

(** [experimental::matrix::joint_matrix_mad(sg, A, B, C)]; [A], [B] and [C]
    are passed by value, so their types have to be complete; on the device
    pass the function calls [mad], so that this instance has to exist too.
    The result is an object of type
    [joint_matrix<T2, accumulator, M, N, LayoutC, Group>]: the model returns
    that type with the object. *)
Definition joint_matrix_mad (tgt : target) (T1 T2 : elem_type)
    (M K N : size_t) (LayoutA LayoutB LayoutC : matrix_layout)
  : option (loc -> loc -> loc -> api (joint_matrix_type * loc)) :=
  typeA ← joint_matrix T1 matrix_use.a M K LayoutA;
  typeB ← joint_matrix T1 matrix_use.b K N LayoutB;
  typeC ← joint_matrix T2 matrix_use.accumulator M N LayoutC;
  if __SYCL_DEVICE_ONLY__ tgt && __NVPTX__ tgt then
    match mad T1 T2 M K N LayoutA LayoutB LayoutC with
    | Some impl =>
        Some (fun A B C m =>
          let (D, m') :=
            (let* A := by_value A in
             let* B := by_value B in
             let* C := by_value C in
             let* D := impl A B C in
             end_of_life C;;
             end_of_life B;;
             end_of_life A;;
             ret D) m in
          (Returned ({| jm_type := T2; jm_use := matrix_use.accumulator;
                        jm_rows := M; jm_cols := N; jm_layout := LayoutC |}, D),
           m'))
    | None => None
    end
  else
    Some (fun A B C m =>
      let unwound :=
        (let* A := by_value A in
         let* B := by_value B in
         let* C := by_value C in
         end_of_life C;;
         end_of_life B;;
         end_of_life A) m in
      (Thrown "When using SYCL_EXT_ONEAPI_MATRIX=3 joint_matrix_mad is only supported by CUDA devices"
              PI_INVALID_DEVICE, snd unwound)).

(** A call [joint_matrix_mad(sg, A, B, C)] as the caller writes it: the
    template arguments are deduced from the types of the three arguments
    ([T1], [M], [K], [LayoutA] from [A]; [T1], [K], [N], [LayoutB] from [B];
    [T2], [M], [N], [LayoutC] from [C]).  [None] when the deduction fails (a
    use that is not the parameter's, or two types that give one template
    parameter different values): no function matches the call. *)
Definition call_joint_matrix_mad (tgt : target) (A B C : joint_matrix_type)
  : option (loc -> loc -> loc -> api (joint_matrix_type * loc)) :=
  let T1 := jm_type A in
  let M := jm_rows A in
  let K := jm_cols A in
  let N := jm_cols B in
  let T2 := jm_type C in
  if (jm_use A == matrix_use.a)
     && (jm_use B == matrix_use.b) && (jm_type B == T1) && (jm_rows B =? K)
     && (jm_use C == matrix_use.accumulator)
     && (jm_rows C =? M) && (jm_cols C =? N)
  then joint_matrix_mad tgt T1 T2 M K N (jm_layout A) (jm_layout B) (jm_layout C)
  else None.

End dispatch.
End tensorcore.

(** ** matrix-unified.hpp *)

Module unified.

(** [use] and [layout] as this header names them. *)
Inductive use := a | b | accumulator.
Inductive layout := row_major | col_major | dynamic.

(** The template arguments of a [joint_matrix] type of this header. *)
Record joint_matrix_type := {
  jm_type : elem_type;
  jm_use : use;
  jm_rows : size_t;
  jm_cols : size_t;
  jm_layout : layout
}.

Section api.

(** The header forwards to four functions of matrix-tensorcores.hpp, a header
    that is not among the sources at hand: they are parameters, and so free to
    do anything to the machine. *)
Variable load_accumulator_cuda :
  elem_type -> elem_type -> size_t -> size_t -> use ->
  loc -> loc -> size_t -> layout -> exec unit.
Variable load_multiplicand_cuda :
  elem_type -> elem_type -> size_t -> size_t -> use -> layout ->
  loc -> loc -> size_t -> exec unit.
Variable joint_matrix_store_cuda :
  elem_type -> size_t -> size_t -> loc -> loc -> size_t -> layout -> exec unit.
Variable joint_matrix_mad_cuda :
  elem_type -> elem_type -> size_t -> size_t -> size_t -> layout -> layout ->
  loc -> loc -> loc -> loc -> exec unit.

(** What a [joint_matrix] of this header holds when declared and not
    initialised (the type is defined in the same absent header). *)
Variable default_initialized : elem_type -> size_t -> size_t -> contents.

(** The two NVPTX builtins [round_to_tf32] calls on the device. *)
Variable __nvvm_f2tf32_rna : Z -> Z.
Variable __nvvm_bitcast_i2f : Z -> Z.

Definition only_on_Nvidia : string :=
  "This version of the matrix extension is only currently supported on Nvidia devices".

(** [joint_matrix_load(sg, res, src, stride, LayoutAcc)], the overload for a
    fragment of layout [dynamic].  [None]: the [enable_if] removes the
    overload ([S] is not [std::remove_const_t<T>]). *)
Definition joint_matrix_load_dynamic (tgt : target) (S T : elem_type)
    (NumRows NumCols : size_t) (Use : use)
  : option (loc -> loc -> size_t -> layout -> api unit) :=
  if is_same_v S T then
    Some (fun res src stride LayoutAcc m =>
      if __SYCL_DEVICE_ONLY__ tgt then
        if __NVPTX__ tgt then
          let (_, m') :=
            load_accumulator_cuda S T NumRows NumCols Use
                                  res src stride LayoutAcc m in
          (Returned tt, m')
        else (Returned tt, m)
      else (Thrown only_on_Nvidia PI_ERROR_INVALID_DEVICE, m))
  else None.

(** [joint_matrix_load(sg, res, src, stride)], the overload for a fragment of
    a fixed [Layout]. *)
Definition joint_matrix_load (tgt : target) (S T : elem_type) (Use : use)
    (NumRows NumCols : size_t) (Layout : layout)
  : option (loc -> loc -> size_t -> api unit) :=
  if is_same_v S T || (is_same_v S tf32 && is_same_v T float) then
    Some (fun res src stride m =>
      if __SYCL_DEVICE_ONLY__ tgt then
        if __NVPTX__ tgt then
          let (_, m') :=
            load_multiplicand_cuda S T NumRows NumCols Use Layout
                                   res src stride m in
          (Returned tt, m')
        else (Returned tt, m)
      else (Thrown only_on_Nvidia PI_ERROR_INVALID_DEVICE, m))
  else None.

(** [joint_matrix_store(sg, src, dst, stride, LayoutAcc)] *)
Definition joint_matrix_store (tgt : target) (T : elem_type)
    (NumRows NumCols : size_t)
  : loc -> loc -> size_t -> layout -> api unit :=
  fun src dst stride LayoutAcc m =>
    if __SYCL_DEVICE_ONLY__ tgt then
      if __NVPTX__ tgt then
        let (_, m') :=
          joint_matrix_store_cuda T NumRows NumCols src dst stride LayoutAcc m in
        (Returned tt, m')
      else (Returned tt, m)
    else (Thrown only_on_Nvidia PI_ERROR_INVALID_DEVICE, m).

(** [joint_matrix_mad(sg, A, B, C)]; [A], [B] and [C] are references, [D] is
    declared, handed to [joint_matrix_mad_cuda] and returned.  The result is
    an object of type [joint_matrix<Tc, accumulator, M, N, dynamic, Group>]. *)
Definition joint_matrix_mad (tgt : target) (Ta Tb Tc : elem_type)
    (M K N : size_t) (LayoutA LayoutB : layout)
  : loc -> loc -> loc -> api (joint_matrix_type * loc) :=
  fun A B C m =>
    if __SYCL_DEVICE_ONLY__ tgt then
      if __NVPTX__ tgt then
        if is_same_v Ta Tb then
          let (D, m') :=
            (let* D := declare (default_initialized Tc M N) in
             joint_matrix_mad_cuda Ta Tc M K N LayoutA LayoutB D A B C;;
             ret D) m in
          (Returned ({| jm_type := Tc; jm_use := accumulator; jm_rows := M;
                        jm_cols := N; jm_layout := dynamic |}, D), m')
        else if NDEBUG tgt then (NoReturn, m)
        else (AssertionFailed
                "Ta != Tb : In the CUDA backend joint_matrix_mad requires that joint_matrix data types Ta and Tb match",
              m)
      else (NoReturn, m)
    else (Thrown only_on_Nvidia PI_ERROR_INVALID_DEVICE, m).

(** 32-bit unsigned arithmetic wraps around. *)
Definition uint32 (z : Z) : Z := z mod 2 ^ 32.

(** [float round_to_tf32(float &a)].  A float is its 32-bit pattern; the
    result is the pair of the value returned and the value [a] holds on
    return. *)
Definition round_to_tf32 (tgt : target) (a : Z) : Z * Z :=
  if __SYCL_DEVICE_ONLY__ tgt && __NVPTX__ tgt then
    let tmp_int := __nvvm_f2tf32_rna a in
    (__nvvm_bitcast_i2f tmp_int, a)
  else
    let tmp_uint := a in
    let tmp_uint := uint32 (tmp_uint + 0x1000) in
    let tmp_uint := Z.land tmp_uint 0xFFFFE000 in
    let ret := tmp_uint in
    (ret, a).

End api.
End unified.

(** ** usm_p2p.cpp (HIP adapter) *)

Module hip.

Inductive ur_result_t :=
  | UR_RESULT_SUCCESS
  | UR_RESULT_ERROR_INVALID_ENUMERATION
  | UR_RESULT_ERROR (code : Z).  (* any other status code *)

Inductive hipError_t := hipSuccess | hipError (code : Z).

Inductive ur_exp_peer_info_t :=
  | UR_EXP_PEER_INFO_UR_PEER_ACCESS_SUPPORTED
  | UR_EXP_PEER_INFO_UR_PEER_ATOMICS_SUPPORTED
  | ur_exp_peer_info_other (value : Z).  (* any other value of the enum *)

Inductive hipDeviceP2PAttr :=
  | hipDevP2PAttrAccessSupported
  | hipDevP2PAttrNativeAtomicSupported.

(** A context of the vendor driver, and what a [ur_device_handle_t] points
    to: [getNativeContext()] and [get()]. *)
Abbreviation hipCtx_t := Z (only parsing).

Record ur_device_handle_t := { getNativeContext : hipCtx_t; get : Z }.

(** The three driver entry points the adapter calls, with their arguments. *)
Inductive driver_call :=
  | hipCtxEnablePeerAccess (peerCtx : hipCtx_t) (flags : Z)
  | hipCtxDisablePeerAccess (peerCtx : hipCtx_t)
  | hipDeviceGetP2PAttribute (attr : hipDeviceP2PAttr) (srcDevice dstDevice : Z).

(** The driver as the adapter sees it: the context that is active on the
    calling thread, and the calls made so far, each with the context that was
    active when it was made (oldest first). *)
Record driver_state := {
  active_context : option hipCtx_t;
  calls : list (option hipCtx_t * driver_call)
}.

(** How a statement completes: normally, by throwing a [ur_result_t], or by
    [return]. *)
Inductive completion (A : Type) :=
  | Normal (v : A)
  | Throws (err : ur_result_t)
  | Returns (r : ur_result_t).

Arguments Normal {A} v.
Arguments Throws {A} err.
Arguments Returns {A} r.

Definition stmt (A : Type) : Type := driver_state -> completion A * driver_state.

Definition seq {A B : Type} (c : stmt A) (k : A -> stmt B) : stmt B :=
  fun st =>
    match c st with
    | (Normal v, st') => k v st'
    | (Throws err, st') => (Throws err, st')
    | (Returns r, st') => (Returns r, st')
    end.

(** [try { body } catch (ur_result_t err) { handler }] *)
Definition try_catch {A : Type} (body : stmt A) (handler : ur_result_t -> stmt A)
  : stmt A :=
  fun st =>
    match body st with
    | (Throws err, st') => handler err st'
    | other => other
    end.

(** How a call of an adapter entry point ends: with a status code, or with an
    exception that leaves the function. *)
Inductive ended := Status (r : ur_result_t) | Escaped (err : ur_result_t).

Definition entry_point (body : stmt ur_result_t) : driver_state -> ended * driver_state :=
  fun st =>
    match body st with
    | (Normal r, st') => (Status r, st')
    | (Returns r, st') => (Status r, st')
    | (Throws err, st') => (Escaped err, st')
    end.

Section adapter.

(** What the vendor driver answers to a call in a given state: its error
    code and, for the attribute query, the value it writes.  Any driver. *)
Variable driver : driver_state -> driver_call -> hipError_t * Z.

(** The status code common.hpp maps a driver error to, and the call operator
    of [UrReturnHelper]; neither header is among the sources at hand. *)
Variable mapErrorUR : hipError_t -> ur_result_t.
Variable ReturnValue : size_t -> bool -> bool -> Z -> ur_result_t.

(** A driver call made by the adapter. *)
Definition call_driver (c : driver_call) : stmt (hipError_t * Z) :=
  fun st =>
    (Normal (driver st c),
     {| active_context := active_context st;
        calls := calls st ++ [(active_context st, c)] |}).

(** Modelled from the spec: [UR_CHECK_ERROR] (common.hpp, absent): a driver
    call that fails is turned into a status code, which is thrown; the
    [catch (ur_result_t err)] clauses of usm_p2p.cpp receive it. *)
Definition UR_CHECK_ERROR (r : hipError_t) : stmt unit :=
  fun st =>
    match r with
    | hipSuccess => (Normal tt, st)
    | _ => (Throws (mapErrorUR r), st)
    end.

(** Modelled from the spec: [ScopedContext] (context.hpp, absent): "every call
    scopes an active device context for its duration and restores the prior
    context on exit, even on error paths".  The constructor makes the
    device's context the active one; the destructor, which runs however the
    scope is left, makes the prior one active again. *)
Definition ScopedContext {A : Type} (device : ur_device_handle_t)
    (scope : stmt A) : stmt A :=
  fun st =>
    let prior := active_context st in
    let entered := {| active_context := Some (getNativeContext device);
                      calls := calls st |} in
    let (how, left) := scope entered in
    (how, {| active_context := prior; calls := calls left |}).

Local Notation "'let!' x ':=' c 'in' k" := (seq c (fun x => k))
  (at level 10, x name, c at level 100, k at level 200).

(** [urUsmP2PEnablePeerAccessExp(commandDevice, peerDevice)] *)
Definition urUsmP2PEnablePeerAccessExp (commandDevice peerDevice : ur_device_handle_t)
  : driver_state -> ended * driver_state :=
  entry_point (
    let result := UR_RESULT_SUCCESS in
    let! result :=
      try_catch
        (ScopedContext commandDevice (
           let! r := call_driver
                       (hipCtxEnablePeerAccess (getNativeContext peerDevice) 0) in
           let! checked := UR_CHECK_ERROR (fst r) in
           fun st => (Normal result, st)))
        (fun err st => (Normal err, st)) in
    fun st => (Returns result, st)).

(** [urUsmP2PDisablePeerAccessExp(commandDevice, peerDevice)] *)
Definition urUsmP2PDisablePeerAccessExp (commandDevice peerDevice : ur_device_handle_t)
  : driver_state -> ended * driver_state :=
  entry_point (
    let result := UR_RESULT_SUCCESS in
    let! result :=
      try_catch
        (ScopedContext commandDevice (
           let! r := call_driver
                       (hipCtxDisablePeerAccess (getNativeContext peerDevice)) in
           let! checked := UR_CHECK_ERROR (fst r) in
           fun st => (Normal result, st)))
        (fun err st => (Normal err, st)) in
    fun st => (Returns result, st)).

(** [urUsmP2PPeerAccessGetInfoExp(commandDevice, peerDevice, propName,
    propSize, pPropValue, pPropSizeRet)]; the two pointers are known to the
    model by whether they are null. *)
Definition urUsmP2PPeerAccessGetInfoExp (commandDevice peerDevice : ur_device_handle_t)
    (propName : ur_exp_peer_info_t) (propSize : size_t)
    (pPropValue pPropSizeRet : bool)
  : driver_state -> ended * driver_state :=
  entry_point (
    let! value :=
      try_catch
        (ScopedContext commandDevice (
           let! hip_attr :=
             (fun st =>
                match propName with
                | UR_EXP_PEER_INFO_UR_PEER_ACCESS_SUPPORTED =>
                    (Normal hipDevP2PAttrAccessSupported, st)
                | UR_EXP_PEER_INFO_UR_PEER_ATOMICS_SUPPORTED =>
                    (Normal hipDevP2PAttrNativeAtomicSupported, st)
                | _ => (Returns UR_RESULT_ERROR_INVALID_ENUMERATION, st)
                end) in
           let! r := call_driver
                       (hipDeviceGetP2PAttribute hip_attr (get commandDevice)
                                                 (get peerDevice)) in
           let! checked := UR_CHECK_ERROR (fst r) in
           fun st => (Normal (snd r), st)))
        (fun err st => (Returns err, st)) in
    fun st => (Returns (ReturnValue propSize pPropValue pPropSizeRet value), st)).

End adapter.
End hip.

(** ** Passes of the compiler and the hardware's footprint *)

(** The device pass for NVPTX (assertions enabled) and the host pass. *)
Definition nvptx_device_pass : target :=
  {| __SYCL_DEVICE_ONLY__ := true; __NVPTX__ := true; NDEBUG := false |}.

Definition host_pass : target :=
  {| __SYCL_DEVICE_ONLY__ := false; __NVPTX__ := false; NDEBUG := false |}.

(** The device pass for NVPTX with [NDEBUG] defined: [assert] expands to
    nothing. *)
Definition nvptx_device_pass_NDEBUG : target :=
  {| __SYCL_DEVICE_ONLY__ := true; __NVPTX__ := true; NDEBUG := true |}.

(** A device pass for another target (SPIR-V, say). *)
Definition other_device_pass : target :=
  {| __SYCL_DEVICE_ONLY__ := true; __NVPTX__ := false; NDEBUG := false |}.

(** An instruction reaches memory through its pointer operands only. *)
Definition writes_through_operands
    (hw : call -> gmap loc contents -> gmap loc contents) : Prop :=
  forall (c : call) (h : gmap loc contents) (l : loc),
    l ∉ operands c -> hw c h !! l = h !! l.

(** Hardware whose loads and stores move bits: the instruction leaves in the
    object its destination points into what the object its source points
    into holds, as it is. *)
Definition moves_bits
    (hw : call -> gmap loc contents -> gmap loc contents) : Prop :=
  forall f dst src stride layout h,
    hw (call_ld_st f dst src stride layout) h
    = <[base dst := default indeterminate (h !! base src)]> h.

(** A piece of hardware to run examples on: a load fills its destination
    with the contents of its source, a store likewise, and a
    multiply-accumulate writes to [d] the words of [c], each plus one. *)
Definition toy_hw (c : call) (h : gmap loc contents) : gmap loc contents :=
  match c with
  | call_ld_st _ dst src _ _ =>
      <[base dst := default indeterminate (h !! base src)]> h
  | call_mma _ d _ _ c _ _ =>
      <[base d := match h !! base c with
                  | Some (words ws) => words (List.map Z.succ ws)
                  | _ => indeterminate
                  end]> h
  end.

(** A default constructor for the examples: every element zero. *)
Definition toy_marray_default (type : elem_type) (size : size_t) : contents :=
  words (repeat 0 (N.to_nat size)).

(** A machine with three fragments and a buffer, and nothing issued yet. *)
Definition toy_machine : machine :=
  {| heap := {[ 1%positive := words [10; 11];
                2%positive := words [20; 21];
                3%positive := words [30; 31];
                4%positive := words [40; 41; 42; 43] ]};
     issued := [] |}.

(** A driver for the examples: enabling peer access fails with error 704
    (already enabled), everything else succeeds and the attribute queried
    is 1; and a mapping of driver errors to status codes. *)
Definition toy_driver (st : hip.driver_state) (c : hip.driver_call)
  : hip.hipError_t * Z :=
  match c with
  | hip.hipCtxEnablePeerAccess _ _ => (hip.hipError 704, 0)
  | hip.hipCtxDisablePeerAccess _ => (hip.hipSuccess, 0)
  | hip.hipDeviceGetP2PAttribute _ _ _ => (hip.hipSuccess, 1)
  end.

Definition toy_mapErrorUR (err : hip.hipError_t) : hip.ur_result_t :=
  match err with
  | hip.hipSuccess => hip.UR_RESULT_SUCCESS
  | hip.hipError code => hip.UR_RESULT_ERROR code
  end.

(** ** What identifies an entry of the table *)

(** The template arguments a specialization is declared for. *)
Definition specialization_key (s : specialization)
  : elem_type * matrix_use.t * size_t * size_t :=
  (sp_type s, sp_use s, sp_M s, sp_N s).

(** ** What the names of the builtins say *)

(** A builtin loads a fragment for one use, stores an accumulator, or
    multiplies and accumulates: [_ld_a], [_ld_b], [_ld_c], [_st_c], [_mma]. *)
Inductive builtin_kind := loads (operand : matrix_use.t) | stores | multiplies.

Definition kind_of (f : intrinsic) : builtin_kind :=
  match f with
  | __mma_bf16_m16n16k16_ld_a | __mma_bf16_m8n32k16_ld_a
  | __mma_bf16_m32n8k16_ld_a | __imma_m16n16k16_ld_a_u8
  | __imma_m8n32k16_ld_a_u8 | __imma_m32n8k16_ld_a_u8
  | __imma_m16n16k16_ld_a_s8 | __imma_m8n32k16_ld_a_s8
  | __imma_m32n8k16_ld_a_s8 | __hmma_m16n16k16_ld_a | __hmma_m8n32k16_ld_a
  | __hmma_m32n8k16_ld_a | __dmma_m8n8k4_ld_a =>
      loads matrix_use.a
  | __mma_bf16_m16n16k16_ld_b | __mma_bf16_m8n32k16_ld_b
  | __mma_bf16_m32n8k16_ld_b | __imma_m16n16k16_ld_b_u8
  | __imma_m8n32k16_ld_b_u8 | __imma_m32n8k16_ld_b_u8
  | __imma_m16n16k16_ld_b_s8 | __imma_m8n32k16_ld_b_s8
  | __imma_m32n8k16_ld_b_s8 | __hmma_m16n16k16_ld_b | __hmma_m8n32k16_ld_b
  | __hmma_m32n8k16_ld_b | __dmma_m8n8k4_ld_b =>
      loads matrix_use.b
  | __hmma_m16n16k16_ld_c_f16 | __hmma_m32n8k16_ld_c_f16
  | __hmma_m8n32k16_ld_c_f16 | __imma_m16n16k16_ld_c | __imma_m8n32k16_ld_c
  | __imma_m32n8k16_ld_c | __hmma_m16n16k16_ld_c_f32
  | __hmma_m8n32k16_ld_c_f32 | __hmma_m32n8k16_ld_c_f32
  | __dmma_m8n8k4_ld_c =>
      loads matrix_use.accumulator
  | __hmma_m16n16k16_st_c_f32 | __imma_m16n16k16_st_c_i32
  | __hmma_m16n16k16_st_c_f16 | __hmma_m8n32k16_st_c_f32
  | __imma_m8n32k16_st_c_i32 | __hmma_m8n32k16_st_c_f16
  | __hmma_m32n8k16_st_c_f32 | __imma_m32n8k16_st_c_i32
  | __hmma_m32n8k16_st_c_f16 | __dmma_m8n8k4_st_c_f64 =>
      stores
  | __imma_m16n16k16_mma_s8 | __imma_m16n16k16_mma_u8
  | __hmma_m16n16k16_mma_f32f32 | __hmma_m16n16k16_mma_f16f16
  | __mma_bf16_m16n16k16_mma_f32 | __imma_m8n32k16_mma_s8
  | __imma_m8n32k16_mma_u8 | __hmma_m8n32k16_mma_f32f32
  | __hmma_m8n32k16_mma_f16f16 | __mma_bf16_m8n32k16_mma_f32
  | __imma_m32n8k16_mma_s8 | __imma_m32n8k16_mma_u8
  | __mma_bf16_m32n8k16_mma_f32 | __hmma_m32n8k16_mma_f32f32
  | __hmma_m32n8k16_mma_f16f16 | __dmma_m8n8k4_mma_f64 =>
      multiplies
  end.

(** The tile [mMnNkK] a builtin works on, as [(M, N, K)]. *)
Definition tile_of (f : intrinsic) : size_t * size_t * size_t :=
  match f with
  | __mma_bf16_m16n16k16_ld_a | __mma_bf16_m16n16k16_ld_b
  | __imma_m16n16k16_ld_a_u8 | __imma_m16n16k16_ld_b_u8
  | __imma_m16n16k16_ld_a_s8 | __imma_m16n16k16_ld_b_s8
  | __hmma_m16n16k16_ld_a | __hmma_m16n16k16_ld_b
  | __hmma_m16n16k16_ld_c_f16 | __imma_m16n16k16_ld_c
  | __hmma_m16n16k16_ld_c_f32 | __hmma_m16n16k16_st_c_f32
  | __imma_m16n16k16_st_c_i32 | __hmma_m16n16k16_st_c_f16
  | __imma_m16n16k16_mma_s8 | __imma_m16n16k16_mma_u8
  | __hmma_m16n16k16_mma_f32f32 | __hmma_m16n16k16_mma_f16f16
  | __mma_bf16_m16n16k16_mma_f32 =>
      (16, 16, 16)%N
  | __mma_bf16_m8n32k16_ld_a | __mma_bf16_m8n32k16_ld_b
  | __imma_m8n32k16_ld_a_u8 | __imma_m8n32k16_ld_b_u8
  | __imma_m8n32k16_ld_a_s8 | __imma_m8n32k16_ld_b_s8
  | __hmma_m8n32k16_ld_a | __hmma_m8n32k16_ld_b | __hmma_m8n32k16_ld_c_f16
  | __imma_m8n32k16_ld_c | __hmma_m8n32k16_ld_c_f32
  | __hmma_m8n32k16_st_c_f32 | __imma_m8n32k16_st_c_i32
  | __hmma_m8n32k16_st_c_f16 | __imma_m8n32k16_mma_s8
  | __imma_m8n32k16_mma_u8 | __hmma_m8n32k16_mma_f32f32
  | __hmma_m8n32k16_mma_f16f16 | __mma_bf16_m8n32k16_mma_f32 =>
      (8, 32, 16)%N
  | __mma_bf16_m32n8k16_ld_a | __mma_bf16_m32n8k16_ld_b
  | __imma_m32n8k16_ld_a_u8 | __imma_m32n8k16_ld_b_u8
  | __imma_m32n8k16_ld_a_s8 | __imma_m32n8k16_ld_b_s8
  | __hmma_m32n8k16_ld_a | __hmma_m32n8k16_ld_b | __hmma_m32n8k16_ld_c_f16
  | __imma_m32n8k16_ld_c | __hmma_m32n8k16_ld_c_f32
  | __hmma_m32n8k16_st_c_f32 | __imma_m32n8k16_st_c_i32
  | __hmma_m32n8k16_st_c_f16 | __imma_m32n8k16_mma_s8
  | __imma_m32n8k16_mma_u8 | __mma_bf16_m32n8k16_mma_f32
  | __hmma_m32n8k16_mma_f32f32 | __hmma_m32n8k16_mma_f16f16 =>
      (32, 8, 16)%N
  | __dmma_m8n8k4_ld_a | __dmma_m8n8k4_ld_b | __dmma_m8n8k4_ld_c
  | __dmma_m8n8k4_st_c_f64 | __dmma_m8n8k4_mma_f64 =>
      (8, 8, 4)%N
  end.

(** The rows and columns of the fragment of a given use within a tile: [a] is
    M by K, [b] is K by N, the accumulator M by N. *)
Definition fragment_shape (Use : matrix_use.t)
    (tile : size_t * size_t * size_t) : size_t * size_t :=
  let '(M, N, K) := tile in
  match Use with
  | matrix_use.a => (M, K)
  | matrix_use.b => (K, N)
  | matrix_use.accumulator => (M, N)
  end.

(** The types of the multiplicands and of the accumulator, and the tiles, that
    the multiply builtins called by [mad] are declared for. *)
Definition multiply_types : list (elem_type * elem_type) :=
  [(int8_t, int32_t); (uint8_t, int32_t); (half, float); (half, half);
   (uint16_t, float); (bfloat16, float)].

Definition multiply_tiles : list (N * N * N) :=
  [(16, 16, 16); (8, 32, 16); (32, 8, 16)]%N.

Definition multiply_combination (T1 T2 : elem_type) (M N K : N) : Prop :=
  (In (T1, T2) multiply_types /\ In (M, N, K) multiply_tiles) \/
  (T1, T2, (M, N, K)) = (double, double, (8, 8, 4)%N).

(** The combinations [mad] has no builtin for and accepts all the same: half
    multiplicands with an int32_t accumulator, which no branch for half
    provides for, and multiplicands of 8 by 16 and 16 by 8 with the 8 by 8
    accumulator of double, a tile no branch is written for. *)
Definition unanswered_combination (T1 T2 : elem_type) (M N K : N) : Prop :=
  (T1 = half /\ T2 = int32_t /\ In (M, N, K) multiply_tiles) \/
  (In T1 [bfloat16; half; uint16_t; int8_t; uint8_t] /\ T2 = double /\
   (M, N, K) = (8, 8, 16)%N).

(** ** group_algorithm.hpp *)

Module group_algorithm.

(** The work-items of a sub-group run the same code in step.  A variable of
    the code has one value in each of them: [lanes T] gives it by
    [get_local_id()[0]]. *)
Definition lanes (T : Type) : Type := Z -> T.

(** What the algorithms ask a [sub_group] for. *)
Record sub_group := {
  get_local_range : Z;      (* g.get_local_range()[0] *)
  get_max_local_range : Z   (* g.get_max_local_range()[0] *)
}.

Section shuffles.
Context {T : Type}.

(** What a shuffle yields in a work-item whose source work-item does not
    exist: any value, which may differ from one work-item and one source to
    another. *)
Variable stray : Z -> Z -> T.

(** [g.shuffle_xor(x, id<1>(mask))]: the value of [x] in the work-item whose
    id is this one's, xor [mask]. *)
Definition shuffle_xor (g : sub_group) (x : lanes T) (mask : Z) : lanes T :=
  fun id =>
    if bool_decide (0 <= Z.lxor id mask < get_local_range g)
    then x (Z.lxor id mask) else stray id (Z.lxor id mask).

(** [g.shuffle(x, id)]: the value of [x] in work-item [id]. *)
Definition shuffle (g : sub_group) (x : lanes T) (source : Z) : lanes T :=
  fun id =>
    if bool_decide (0 <= source < get_local_range g)
    then x source else stray id source.

End shuffles.

Section reduce.
Context {V T : Type}.
Variable stray : Z -> Z -> T.
Variable op : T -> T -> T.

(** The loop of both overloads of [reduce] for a sub-group and an operation
    that is not native,
    [for (int mask = 1; mask < g.get_max_local_range()[0]; mask *= 2)],
    from the iteration that starts with [mask]; [None] when [fuel]
    iterations do not reach its end. *)
Fixpoint reduce_for (fuel : nat) (g : sub_group) (mask : Z) (result : lanes T)
  : option (lanes T) :=
  if mask <? get_max_local_range g then
    match fuel with
    | O => None
    | S fuel =>
        let tmp := shuffle_xor stray g result mask in
        let result : lanes T := fun id =>
          if Z.lxor id mask <? get_local_range g
          then op (result id) (tmp id)
          else result id in
        reduce_for fuel g (mask * 2) result
    end
  else Some result.

(** [reduce(Group g, T x, BinaryOperation op)] *)
Definition reduce (fuel : nat) (g : sub_group) (x : lanes T) : option (lanes T) :=
  let result := x in
  result ← reduce_for fuel g 1 result;
  Some (shuffle stray g result 0).

(** [reduce(Group g, V x, T init, BinaryOperation op)]; [T result = x]
    converts. *)
Variable convert : V -> T.

Definition reduce_init (fuel : nat) (g : sub_group) (x : lanes V) (init : lanes T)
  : option (lanes T) :=
  let result : lanes T := fun id => convert (x id) in
  result ← reduce_for fuel g 1 result;
  Some (shuffle stray g (fun id => op (init id) (result id)) 0).

End reduce.

(** [popcount(x)] for a 32-bit [x]: the number of its bits that are set. *)
Definition popcount (x : Z) : Z :=
  Z.of_nat (length (filter (fun i => Z.testbit x i = true) (seqZ 0 32))).

(** An [int] converted to [uint32_t]. *)
Definition uint32_of_int (x : Z) : Z := x mod 2 ^ 32.

(** The two strides of [joint_reduce]:
    [offset = popcount(mask_bits & ((1 << g.get_local_linear_id()) - 1))] and
    [stride = popcount(mask_bits)].  [(1 << id) - 1] is computed in [int]:
    it is [2 ^ id - 1] for [id <= 30], and overflows [int] from 31 on. *)
Definition offset (mask_bits : Z) (local_linear_id : Z) : Z :=
  popcount (Z.land mask_bits (uint32_of_int (Z.shiftl 1 local_linear_id - 1))).

Definition stride (mask_bits : Z) : Z := popcount mask_bits.

(** The work-items a mask names, in the order of their ids. *)
Definition mask_lanes (mask_bits : Z) : list Z :=
  filter (fun i => Z.testbit mask_bits i = true) (seqZ 0 32).

Section joint_reduce.
Context {T : Type}.
Variable binary_op : T -> T -> T.
(** [sycl::known_identity_v<BinaryOperation, T>] *)
Variable known_identity : T.
(** The memory the pointers point into: [*p]. *)
Variable deref : Z -> T.
(** [reduce_over_group(g, mask, x, binary_op)] for a mask, which hands the
    work to [sycl::detail::calc] (not among the sources at hand): from the
    bits of the mask and what each work-item passes ([None] for a work-item
    that never gets to the call), what the call returns in a work-item. *)
Variable reduce_over_group : Z -> lanes (option T) -> lanes (option T).

(** [for (Ptr p = first + offset; p < last; p += stride)
       partial = binary_op(partial, *p);]
    from the iteration that starts with [p]; [None] when [fuel] iterations do
    not reach its end. *)
Fixpoint joint_reduce_for (fuel : nat) (last stride p : Z) (partial : T)
  : option T :=
  if p <? last then
    match fuel with
    | O => None
    | S fuel =>
        joint_reduce_for fuel last stride (p + stride)
                         (binary_op partial (deref p))
    end
  else Some partial.

(** The value of [partial] in a work-item when [joint_reduce] gets to its
    [return]. *)
Definition joint_reduce_partial (fuel : nat) (mask_bits first last : Z)
  : lanes (option T) :=
  fun local_linear_id =>
    let partial := known_identity in
    let offset := offset mask_bits local_linear_id in
    let stride := stride mask_bits in
    joint_reduce_for fuel last stride (first + offset) partial.

(** [reduce_over_group(g, mask, x, init, binary_op)] *)
Definition reduce_over_group_init (tgt : target) (mask_bits : Z)
    (x : lanes (option T)) (init : lanes T) : lanes (option (outcome T)) :=
  fun id =>
    if __SYCL_DEVICE_ONLY__ tgt then
      r ← reduce_over_group mask_bits x id;
      Some (Returned (binary_op (init id) r))
    else
      Some (Thrown "Group algorithms are not supported on host device."
                   PI_INVALID_DEVICE).

(** [joint_reduce(g, mask, first, last, binary_op)] *)
Definition joint_reduce (tgt : target) (fuel : nat) (mask_bits first last : Z)
  : lanes (option (outcome T)) :=
  fun id =>
    if __SYCL_DEVICE_ONLY__ tgt then
      r ← reduce_over_group mask_bits
            (joint_reduce_partial fuel mask_bits first last) id;
      Some (Returned r)
    else
      Some (Thrown "Group algorithms are not supported on host device."
                   PI_INVALID_DEVICE).

(** [joint_reduce(g, mask, first, last, init, binary_op)] *)
Definition joint_reduce_init (tgt : target) (fuel : nat)
    (mask_bits first last : Z) (init : lanes T) : lanes (option (outcome T)) :=
  fun id =>
    if __SYCL_DEVICE_ONLY__ tgt then
      reduce_over_group_init tgt mask_bits
        (joint_reduce_partial fuel mask_bits first last) init id
    else
      Some (Thrown "Group algorithms are not supported on host device."
                   PI_INVALID_DEVICE).

End joint_reduce.

End group_algorithm.

(** What the properties of [joint_reduce] ask of the group reduction it ends
    with: called in the work-items a mask names, each with its value, it
    returns in each of them these values combined. *)
Definition group_reduction_combines {T : Type} (binary_op : T -> T -> T)
    (known_identity : T)
    (reduce_over_group : Z -> group_algorithm.lanes (option T)
                         -> group_algorithm.lanes (option T))
    (mask_bits : Z) : Prop :=
  forall (x : group_algorithm.lanes (option T)) (w : group_algorithm.lanes T),
    (forall l, l ∈ group_algorithm.mask_lanes mask_bits -> x l = Some (w l)) ->
    forall l, l ∈ group_algorithm.mask_lanes mask_bits ->
      reduce_over_group mask_bits x l
      = Some (foldr binary_op known_identity
                    (w <$> group_algorithm.mask_lanes mask_bits)).

(** A group reduction for the examples: the sum over the work-items of the
    mask. *)
Definition toy_reduce_over_group (mask_bits : Z)
    (x : group_algorithm.lanes (option Z)) : group_algorithm.lanes (option Z) :=
  fun _ =>
    foldr (fun l sum => a ← x l; b ← sum; Some (a + b)) (Some 0)
          (group_algorithm.mask_lanes mask_bits).

(** A sub-group of five work-items, of eight at most. *)
Definition toy_sub_group : group_algorithm.sub_group :=
  {| group_algorithm.get_local_range := 5;
     group_algorithm.get_max_local_range := 8 |}.

(** The values of work-items [lo], ..., [hi - 1] combined in that order. *)
Definition in_order {T : Type} (op : T -> T -> T)
    (x : group_algorithm.lanes T) (lo hi : Z) : T :=
  fold_left op (x <$> seqZ (lo + 1) (hi - lo - 1)) (x lo).

(** * Properties *)

(** ** Layout identifiers *)

(** C2: the layout-pair encoding is the canonical ordering:
    [get_layout_id] is 0 for row-major and 1 for column-major, and whenever
    both layouts of a pair have an id (they are row- or column-major) the
    pair id is twice the id of A plus the id of B, that is 0, 1, 2, 3 for
    (row,row), (row,col), (col,row), (col,col). *)
Theorem layout_pair_id_canonical :
  get_layout_id row_major = Some 0 /\
  get_layout_id col_major = Some 1 /\
  (forall (LayoutA LayoutB : matrix_layout) (idA idB : Z),
      get_layout_id LayoutA = Some idA ->
      get_layout_id LayoutB = Some idB ->
      get_layout_pair_id LayoutA LayoutB = Some (2 * idA + idB)) /\
  get_layout_pair_id row_major row_major = Some 0 /\
  get_layout_pair_id row_major col_major = Some 1 /\
  get_layout_pair_id col_major row_major = Some 2 /\
  get_layout_pair_id col_major col_major = Some 3.
Proof.
  repeat split; try reflexivity.
  intros LayoutA LayoutB idA idB HA HB.
  destruct LayoutA; simpl in HA; try discriminate;
    destruct LayoutB; simpl in HB; try discriminate;
    injection HA as <-; injection HB as <-; reflexivity.
Qed.

Lemma layout_pair_id_canonical_witness :
  get_layout_pair_id col_major row_major = Some 2.
Proof.
  exact (proj1 (proj2 (proj2 layout_pair_id_canonical))
               col_major row_major 1 0 eq_refl eq_refl).
Defined.

(** ** The fragment table *)

(** A fragment type that is complete is one of the table's entries, and the
    entry is the one for its template arguments. *)
Lemma joint_matrix_Some (T : elem_type) (Use : matrix_use.t)
    (Rows Cols : size_t) (Layout : matrix_layout) (s : specialization) :
  joint_matrix T Use Rows Cols Layout = Some s ->
  In s joint_matrix_specializations /\
  sp_type s = T /\ sp_use s = Use /\ sp_M s = Rows /\ sp_N s = Cols /\
  row_or_col_major Layout = true.
Proof.
  unfold joint_matrix.
  destruct (row_or_col_major Layout); [|discriminate].
  intros Hfind. apply find_some in Hfind as [Hin Hm].
  unfold matches in Hm.
  repeat (apply andb_prop in Hm as [Hm ?]).
  repeat match goal with
         | H : bool_decide _ = true |- _ => apply bool_decide_eq_true in H
         | H : (_ =? _)%N = true |- _ => apply N.eqb_eq in H
         end.
  repeat split; auto.
Qed.

(** C8: every accumulator entry of the fragment table stores its elements in
    the logical arithmetic type itself (half as half, double as double, float
    as float, int32_t as int32_t); none is repacked into another word. *)
Theorem accumulator_not_repacked (s : specialization) :
  In s joint_matrix_specializations ->
  sp_use s = matrix_use.accumulator ->
  frag_type s = sp_type s /\ In (sp_type s) [half; double; float; int32_t].
Proof.
  intros Hin Hacc. simpl in Hin.
  repeat (destruct Hin as [<- | Hin]; [first [discriminate Hacc | simpl; tauto] |]).
  destruct Hin.
Qed.

Lemma accumulator_not_repacked_witness :
  frag_type (__SYCL_JOINT_MATRIX_OVERLOAD float matrix_use.accumulator 16 16 float 8)
  = float.
Proof.
  refine (proj1 (accumulator_not_repacked
                   (__SYCL_JOINT_MATRIX_OVERLOAD float matrix_use.accumulator
                                                 16 16 float 8) _ _)).
  - simpl. do 36 right. left. reflexivity.
  - reflexivity.
Defined.

(** ** Reinterpreting 16-bit elements as 32-bit words *)

(** Lists two elements at a time. *)
Lemma list_pair_ind {A : Type} (P : list A -> Prop) :
  P [] -> (forall x, P [x]) -> (forall x y l, P l -> P (x :: y :: l)) ->
  forall l, P l.
Proof.
  intros Hnil Hone Hstep l.
  enough (P l /\ forall x, P (x :: l)) by tauto.
  induction l as [|y l [IH1 IH2]]; split; auto.
Qed.

(** Two 16-bit patterns put in one word are read back as they were. *)
Lemma halves_of_word (lo hi : Z) :
  0 <= lo < 2 ^ 16 -> 0 <= hi ->
  Z.land (Z.lor lo (Z.shiftl hi 16)) 0xFFFF = lo /\
  Z.shiftr (Z.lor lo (Z.shiftl hi 16)) 16 = hi.
Proof.
  intros Hlo Hhi. split.
  - change 0xFFFF with (Z.ones 16).
    rewrite Z.land_lor_distr_l, !Z.land_ones, Z.shiftl_mul_pow2 by lia.
    rewrite Z.mod_mul by lia.
    rewrite Z.mod_small by lia. apply Z.lor_0_r.
  - rewrite Z.shiftr_lor, Z.shiftr_shiftl_l by lia.
    rewrite Z.shiftr_div_pow2, Z.div_small by lia.
    simpl. reflexivity.
Qed.

Lemma as_int32_length (elems : list Z) :
  N.of_nat (length (as_int32 elems)) = ((N.of_nat (length elems) + 1) / 2)%N.
Proof.
  induction elems as [| x | x y l IH] using list_pair_ind.
  - reflexivity.
  - reflexivity.
  - cbn [as_int32 length]. rewrite !Nat2N.inj_succ, IH.
    replace (N.succ (N.succ (N.of_nat (length l))) + 1)%N
      with ((N.of_nat (length l) + 1) + 1 * 2)%N by lia.
    rewrite N.div_add by lia. lia.
Qed.

Lemma as_uint16_as_int32 (elems : list Z) :
  Nat.even (length elems) = true ->
  Forall (fun x => 0 <= x < 2 ^ 16) elems ->
  as_uint16 (as_int32 elems) = elems.
Proof.
  induction elems as [| x | x y l IH] using list_pair_ind; intros Hlen Hall.
  - reflexivity.
  - discriminate Hlen.
  - inversion Hall as [| ? ? Hx Hall1]; subst.
    inversion Hall1 as [| ? ? Hy Hall2]; subst.
    cbn [as_int32 as_uint16 flat_map app].
    destruct (halves_of_word x y) as [-> ->]; [lia | lia |].
    f_equal. f_equal. apply IH; assumption.
Qed.

(** Once the unpacked counterpart is named, each of its properties is
    checked by computation. *)
Ltac repack_counterpart Hview :=
  repeat (split; [first [reflexivity | simpl; tauto] |]);
  apply Hview; reflexivity.

(** Each entry of the table, one at a time. *)
Ltac each_specialization Hin :=
  simpl in Hin;
  repeat (destruct Hin as [<- | Hin]; [| try solve [destruct Hin]]).

(** A load of a 16-bit element type is one instruction on the fragment and
    the memory themselves, each seen as an array of [int32_t]. *)
Lemma load_of_sixteen_bit
    (hw : call -> gmap loc contents -> gmap loc contents)
    (T : elem_type) (Use : matrix_use.t) (NumRows NumCols : size_t)
    (Layout : matrix_layout) (impl : loc -> loc -> size_t -> exec unit) :
  sixteen_bit T = true ->
  tensorcore.load hw T Use NumRows NumCols Layout = Some impl ->
  exists (f : intrinsic) (layout_id : Z),
    get_layout_id Layout = Some layout_id /\
    forall (fragment memory : loc) (stride : size_t) (m : machine),
      impl fragment memory stride m =
      issue hw (call_ld_st f {| base := fragment; pointee := int32_t |}
                             {| base := memory; pointee := int32_t |}
                             (unsigned_int stride) layout_id) m.
Proof.
  intros H16 Himpl. unfold tensorcore.load in Himpl.
  destruct (row_or_col_major Layout) eqn:Hrc; [|discriminate].
  destruct (joint_matrix T Use NumRows NumCols Layout) as [s|] eqn:Hs;
    [|discriminate].
  apply joint_matrix_Some in Hs as (Hin & <- & <- & <- & <- & _).
  destruct Layout; try discriminate Hrc;
    each_specialization Hin; try discriminate H16;
    simpl in Himpl; injection Himpl as <-;
    eexists _, _; (split; [reflexivity |]);
    intros fragment memory stride m; reflexivity.
Qed.

(** So is a store. *)
Lemma store_of_sixteen_bit
    (hw : call -> gmap loc contents -> gmap loc contents)
    (T : elem_type) (NumRows NumCols : size_t)
    (Layout : matrix_layout) (impl : loc -> loc -> size_t -> exec unit) :
  sixteen_bit T = true ->
  tensorcore.store hw T NumRows NumCols Layout = Some impl ->
  exists (f : intrinsic) (layout_id : Z),
    get_layout_id Layout = Some layout_id /\
    forall (fragment memory : loc) (stride : size_t) (m : machine),
      impl fragment memory stride m =
      issue hw (call_ld_st f {| base := memory; pointee := int32_t |}
                             {| base := fragment; pointee := int32_t |}
                             (unsigned_int stride) layout_id) m.
Proof.
  intros H16 Himpl. unfold tensorcore.store in Himpl.
  destruct (row_or_col_major Layout) eqn:Hrc; [|discriminate].
  destruct (joint_matrix T matrix_use.accumulator NumRows NumCols Layout)
    as [s|] eqn:Hs; [|discriminate].
  apply joint_matrix_Some in Hs as (Hin & <- & Hacc & <- & <- & _).
  destruct Layout; try discriminate Hrc;
    each_specialization Hin; try discriminate H16; try discriminate Hacc;
    simpl in Himpl; injection Himpl as <-;
    eexists _, _; (split; [reflexivity |]);
    intros fragment memory stride m; reflexivity.
Qed.

(** C3: every table entry of a 16-bit element type stored as [int32_t] words
    (the uint16_t entries, uint16_t being the deprecated bf16 data format)
    has a counterpart for the same use, rows and columns that keeps its
    elements unpacked (the bfloat16 entry, a [marray] of bfloat16), and its
    slot count is the ceiling of half the counterpart's slot count.  The
    [int32_t] words that [reinterpret_cast] shows of any such array of 16-bit
    patterns are exactly as many, and hold the patterns unchanged: reading
    them back as 16-bit elements gives the array again.  A load or a store of
    a 16-bit element type converts nothing: it is one instruction, handed the
    fragment and the memory themselves as arrays of [int32_t], and with
    hardware that moves bits the fragment holds after a load exactly what
    the memory held, the memory after a store exactly what the fragment
    held, and every other object what it held before. *)
Theorem repack_invariant
    (hw : call -> gmap loc contents -> gmap loc contents) :
  (forall s : specialization,
      In s joint_matrix_specializations ->
      sixteen_bit (sp_type s) = true ->
      frag_type s = int32_t ->
      exists u : specialization,
        In u joint_matrix_specializations /\
        sixteen_bit (sp_type u) = true /\ frag_type u = sp_type u /\
        sp_type u = bfloat16 /\
        sp_use u = sp_use s /\ sp_M u = sp_M s /\ sp_N u = sp_N s /\
        frag_size s = ((frag_size u + 1) / 2)%N /\
        forall elems : list Z,
          N.of_nat (length elems) = frag_size u ->
          Forall (fun x => 0 <= x < 2 ^ 16) elems ->
          N.of_nat (length (as_int32 elems)) = frag_size s /\
          as_uint16 (as_int32 elems) = elems) /\
  (forall (T : elem_type) (Use : matrix_use.t) (NumRows NumCols : size_t)
          (Layout : matrix_layout) (impl : loc -> loc -> size_t -> exec unit)
          (fragment memory : loc) (stride : size_t) (m : machine),
      sixteen_bit T = true ->
      tensorcore.load hw T Use NumRows NumCols Layout = Some impl ->
      let m' := snd (impl fragment memory stride m) in
      (exists f passed layout_id,
          issued m' =
          issued m ++ [call_ld_st f {| base := fragment; pointee := int32_t |}
                                    {| base := memory; pointee := int32_t |}
                                    passed layout_id]) /\
      (moves_bits hw ->
       (forall ws, heap m !! memory = Some (words ws) ->
                   heap m' !! fragment = Some (words ws)) /\
       (forall l, l <> fragment -> heap m' !! l = heap m !! l))) /\
  (forall (T : elem_type) (NumRows NumCols : size_t)
          (Layout : matrix_layout) (impl : loc -> loc -> size_t -> exec unit)
          (fragment memory : loc) (stride : size_t) (m : machine),
      sixteen_bit T = true ->
      tensorcore.store hw T NumRows NumCols Layout = Some impl ->
      let m' := snd (impl fragment memory stride m) in
      (exists f passed layout_id,
          issued m' =
          issued m ++ [call_ld_st f {| base := memory; pointee := int32_t |}
                                    {| base := fragment; pointee := int32_t |}
                                    passed layout_id]) /\
      (moves_bits hw ->
       (forall ws, heap m !! fragment = Some (words ws) ->
                   heap m' !! memory = Some (words ws)) /\
       (forall l, l <> memory -> heap m' !! l = heap m !! l))).
Proof.
  split; [| split].
  - intros s Hin H16 Hfrag.
    assert (Hview : forall (u : specialization),
               frag_size s = ((frag_size u + 1) / 2)%N ->
               Nat.even (N.to_nat (frag_size u)) = true ->
               forall elems : list Z,
                 N.of_nat (length elems) = frag_size u ->
                 Forall (fun x => 0 <= x < 2 ^ 16) elems ->
                 N.of_nat (length (as_int32 elems)) = frag_size s /\
                 as_uint16 (as_int32 elems) = elems).
    { intros u Hsize Heven elems Hlen Hall. split.
      - rewrite as_int32_length, Hlen. symmetry. exact Hsize.
      - apply as_uint16_as_int32; [|assumption].
        rewrite <- Hlen, Nat2N.id in Heven. exact Heven. }
    simpl in Hin.
    repeat (destruct Hin as [<- | Hin];
            [first [discriminate H16 | discriminate Hfrag | idtac] |]);
      try (destruct Hin).
    + exists (__SYCL_JOINT_MATRIX_OVERLOAD_ARR bfloat16 matrix_use.a 8 16 4).
      repack_counterpart Hview.
    + exists (__SYCL_JOINT_MATRIX_OVERLOAD_ARR bfloat16 matrix_use.b 16 32 16).
      repack_counterpart Hview.
    + exists (__SYCL_JOINT_MATRIX_OVERLOAD_ARR bfloat16 matrix_use.a 32 16 16).
      repack_counterpart Hview.
    + exists (__SYCL_JOINT_MATRIX_OVERLOAD_ARR bfloat16 matrix_use.b 16 8 4).
      repack_counterpart Hview.
    + exists (__SYCL_JOINT_MATRIX_OVERLOAD_ARR bfloat16 matrix_use.a 16 16 8).
      repack_counterpart Hview.
    + exists (__SYCL_JOINT_MATRIX_OVERLOAD_ARR bfloat16 matrix_use.b 16 16 8).
      repack_counterpart Hview.
  - intros T Use NumRows NumCols Layout impl fragment memory stride m H16 Himpl.
    destruct (load_of_sixteen_bit hw _ _ _ _ _ _ H16 Himpl)
      as (f & layout_id & _ & Hrun).
    cbv zeta. rewrite Hrun. unfold issue. cbn [snd heap issued]. split.
    + eexists _, _, _. reflexivity.
    + intros Hmoves. rewrite Hmoves. cbn [base]. split.
      * intros ws Hws. rewrite lookup_insert_eq, Hws. reflexivity.
      * intros l Hl. apply lookup_insert_ne. congruence.
  - intros T NumRows NumCols Layout impl fragment memory stride m H16 Himpl.
    destruct (store_of_sixteen_bit hw _ _ _ _ _ H16 Himpl)
      as (f & layout_id & _ & Hrun).
    cbv zeta. rewrite Hrun. unfold issue. cbn [snd heap issued]. split.
    + eexists _, _, _. reflexivity.
    + intros Hmoves. rewrite Hmoves. cbn [base]. split.
      * intros ws Hws. rewrite lookup_insert_eq, Hws. reflexivity.
      * intros l Hl. apply lookup_insert_ne. congruence.
Qed.

Lemma toy_hw_moves_bits : moves_bits toy_hw.
Proof. intros f dst src stride layout h. reflexivity. Qed.

Lemma repack_invariant_witness :
  (exists u : specialization,
      In u joint_matrix_specializations /\ sp_type u = bfloat16 /\
      sp_use u = matrix_use.a /\ sp_M u = 16%N /\ sp_N u = 16%N /\
      (4 = (frag_size u + 1) / 2)%N) /\
  (exists impl : loc -> loc -> size_t -> exec unit,
      tensorcore.load toy_hw uint16_t matrix_use.a 16 16 row_major
      = Some impl /\
      heap (snd (impl 1%positive 4%positive 16%N toy_machine)) !! 1%positive
      = Some (words [40; 41; 42; 43])).
Proof.
  destruct (repack_invariant toy_hw) as (Hslots & Hload & _). split.
  - destruct (Hslots (__SYCL_JOINT_MATRIX_OVERLOAD uint16_t matrix_use.a
                        16 16 int32_t 4))
      as (u & Hin & _ & _ & Hty & Huse & HM & HN & Hsize & _).
    + simpl. do 34 right. left. reflexivity.
    + reflexivity.
    + reflexivity.
    + exists u. repeat split; assumption.
  - eexists. split; [reflexivity |].
    refine (proj1 (proj2 (Hload uint16_t matrix_use.a 16%N 16%N row_major _
                            1%positive 4%positive 16%N toy_machine
                            eq_refl eq_refl)
                     toy_hw_moves_bits) _ _).
    reflexivity.
Defined.

(** ** round_to_tf32 *)

(** Masking a 32-bit pattern with 0xFFFFE000 clears its bottom 13 bits and
    keeps the others. *)
Lemma land_FFFFE000 (x : Z) :
  0 <= x < 2 ^ 32 -> Z.land x 0xFFFFE000 = 2 ^ 13 * (x / 2 ^ 13).
Proof.
  intros Hx.
  rewrite Z.mul_comm, <- Z.shiftr_div_pow2, <- Z.shiftl_mul_pow2 by lia.
  change 0xFFFFE000 with (Z.shiftl (Z.ones 19) 13).
  apply Z.bits_inj'. intros n Hn.
  rewrite Z.land_spec.
  destruct (Z.lt_ge_cases n 13) as [Hlow | Hhigh].
  - rewrite !Z.shiftl_spec_low by assumption. apply andb_false_r.
  - rewrite !Z.shiftl_spec, Z.shiftr_spec by lia.
    replace (n - 13 + 13) with n by lia.
    destruct (Z.lt_ge_cases n 32) as [Hin | Hout].
    + rewrite Z.ones_spec_low by lia. apply andb_true_r.
    + rewrite Z.ones_spec_high by lia. rewrite andb_false_r.
      symmetry.
      destruct (Z.eq_dec x 0) as [-> | Hnz]; [apply Z.bits_0 |].
      apply Z.bits_above_log2; [lia |].
      apply Z.log2_lt_pow2; [lia |].
      apply Z.lt_le_trans with (2 ^ 32); [lia |].
      apply Z.pow_le_mono_r; lia.
Qed.

(** C10: outside the NVPTX device pass, [round_to_tf32] returns the pattern
    obtained by adding 0x1000 to the pattern of [a] with 32-bit wrap-around
    and masking with 0xFFFFE000; its bottom 13 bits are zero; it is the
    wrapped sum rounded down to a multiple of 2^13, so that (when the sum
    does not wrap) it lies within 2^12 of [a], above or below; and [a] itself
    holds on return what it held on entry. *)
Theorem round_to_tf32_host (f2tf32 bitcast : Z -> Z) (tgt : target) (a : Z) :
  __SYCL_DEVICE_ONLY__ tgt && __NVPTX__ tgt = false ->
  let r := unified.round_to_tf32 f2tf32 bitcast tgt a in
  fst r = Z.land ((a + 0x1000) mod 2 ^ 32) 0xFFFFE000 /\
  Z.land (fst r) 0x1FFF = 0 /\
  (forall i : Z, 0 <= i < 13 -> Z.testbit (fst r) i = false) /\
  0 <= fst r < 2 ^ 32 /\
  fst r = 2 ^ 13 * (((a + 2 ^ 12) mod 2 ^ 32) / 2 ^ 13) /\
  (0 <= a -> a + 0x1000 < 2 ^ 32 -> a - 0x1000 < fst r <= a + 0x1000) /\
  snd r = a.
Proof.
  intros Hhost. unfold unified.round_to_tf32, unified.uint32.
  rewrite Hhost. cbv zeta. cbn [fst snd].
  change 0x1000 with (2 ^ 12).
  set (x := (a + 2 ^ 12) mod 2 ^ 32).
  assert (Hx : 0 <= x < 2 ^ 32) by (apply Z.mod_pos_bound; lia).
  assert (Hret : Z.land x 0xFFFFE000 = 2 ^ 13 * (x / 2 ^ 13))
    by (apply land_FFFFE000; exact Hx).
  assert (Hq : 0 <= x / 2 ^ 13) by (apply Z.div_pos; lia).
  assert (Hdm := Z.div_mod x (2 ^ 13) ltac:(lia)).
  assert (Hm := Z.mod_pos_bound x (2 ^ 13) ltac:(lia)).
  split; [reflexivity |].
  split.
  { rewrite Hret. change 0x1FFF with (Z.ones 13).
    rewrite Z.land_ones by lia. rewrite Z.mul_comm. apply Z.mod_mul. lia. }
  split.
  { intros i Hi. rewrite Hret, Z.mul_comm, <- Z.shiftl_mul_pow2 by lia.
    apply Z.shiftl_spec_low. lia. }
  split; [rewrite Hret; lia |].
  split; [exact Hret |].
  split; [| reflexivity].
  intros Ha Hnowrap. rewrite Hret.
  assert (x = a + 2 ^ 12) by (unfold x; apply Z.mod_small; lia). lia.
Qed.

Lemma round_to_tf32_host_witness :
  fst (unified.round_to_tf32 Z.succ Z.succ host_pass 0x3F801234) = 0x3F802000 /\
  Z.land (fst (unified.round_to_tf32 Z.succ Z.succ host_pass 0x3F801234)) 0x1FFF = 0.
Proof.
  destruct (round_to_tf32_host Z.succ Z.succ host_pass 0x3F801234 eq_refl)
    as (Hret & Hlow & _).
  split; [rewrite Hret; reflexivity | exact Hlow].
Defined.

(** The sum wraps around: 0xFFFFF800 rounds to the pattern 0. *)
Example round_to_tf32_wraps :
  unified.round_to_tf32 Z.succ Z.succ host_pass 0xFFFFF800 = (0, 0xFFFFF800).
Proof. reflexivity. Qed.

(** ** Loads and stores of 16-bit element types *)

(** A stride that fits 32 bits is passed as it is. *)
Lemma unsigned_int_small (x : size_t) :
  (x < 2 ^ 32)%N -> unsigned_int x = x.
Proof. apply N.mod_small. Qed.

(** C6, as the code has it: on every load and every store of a 16-bit
    element type the dispatcher issues one instruction whose pointer operands
    are the caller's objects seen as [int32_t] arrays (reinterpreted: same
    object, no element converted) and whose stride operand is the caller's
    stride as the [unsigned int] parameter of the builtin receives it, that
    is, the caller's stride itself whenever it is below 2^32: it is not
    divided by the repacking factor, and the dispatcher does no pointer
    arithmetic of its own. *)
Theorem repacked_stride_passed_unchanged
    (hw : call -> gmap loc contents -> gmap loc contents)
    (T : elem_type) (Use : matrix_use.t) (NumRows NumCols : size_t)
    (Layout : matrix_layout) (fragment memory : loc) (stride : size_t)
    (m : machine) :
  sixteen_bit T = true ->
  (forall impl,
      tensorcore.load hw T Use NumRows NumCols Layout = Some impl ->
      exists (f : intrinsic) (layout_id : Z),
        get_layout_id Layout = Some layout_id /\
        impl fragment memory stride m =
        issue hw (call_ld_st f {| base := fragment; pointee := int32_t |}
                               {| base := memory; pointee := int32_t |}
                               (unsigned_int stride) layout_id) m) /\
  (forall impl,
      tensorcore.store hw T NumRows NumCols Layout = Some impl ->
      exists (f : intrinsic) (layout_id : Z),
        get_layout_id Layout = Some layout_id /\
        impl fragment memory stride m =
        issue hw (call_ld_st f {| base := memory; pointee := int32_t |}
                               {| base := fragment; pointee := int32_t |}
                               (unsigned_int stride) layout_id) m) /\
  ((stride < 2 ^ 32)%N -> unsigned_int stride = stride).
Proof.
  intros H16. split; [| split]; [intros impl Himpl | intros impl Himpl |].
  - unfold tensorcore.load in Himpl.
    destruct (row_or_col_major Layout) eqn:Hrc; [|discriminate].
    destruct (joint_matrix T Use NumRows NumCols Layout) as [s|] eqn:Hs;
      [|discriminate].
    apply joint_matrix_Some in Hs as (Hin & <- & <- & <- & <- & _).
    destruct Layout; try discriminate Hrc;
      each_specialization Hin; try discriminate H16;
      simpl in Himpl; injection Himpl as <-;
      eexists _, _; split; reflexivity.
  - unfold tensorcore.store in Himpl.
    destruct (row_or_col_major Layout) eqn:Hrc; [|discriminate].
    destruct (joint_matrix T matrix_use.accumulator NumRows NumCols Layout)
      as [s|] eqn:Hs; [|discriminate].
    apply joint_matrix_Some in Hs as (Hin & <- & Hacc & <- & <- & _).
    destruct Layout; try discriminate Hrc;
      each_specialization Hin; try discriminate H16; try discriminate Hacc;
      simpl in Himpl; injection Himpl as <-;
      eexists _, _; split; reflexivity.
  - apply unsigned_int_small.
Qed.

Lemma repacked_stride_passed_unchanged_witness :
  exists (impl : loc -> loc -> size_t -> exec unit) (f : intrinsic),
    tensorcore.load toy_hw uint16_t matrix_use.a 16 16 row_major = Some impl /\
    issued (snd (impl 1%positive 4%positive 16%N toy_machine)) =
    [call_ld_st f {| base := 1; pointee := int32_t |}
                  {| base := 4; pointee := int32_t |} 16 0].
Proof.
  edestruct (proj1 (repacked_stride_passed_unchanged
                      toy_hw uint16_t matrix_use.a 16 16 row_major
                      1%positive 4%positive 16%N toy_machine eq_refl))
    as (f & layout_id & Hid & Hrun); [reflexivity |].
  injection Hid as <-.
  eexists _, f. split; [reflexivity |].
  exact (f_equal (fun r => issued (snd r)) Hrun).
Defined.

(** C6 as the spec words it fails: a load of a uint16_t tile with stride 16
    hands 16 to the instruction, not 16 divided by the repacking factor. *)
Lemma stride_not_divided_by_repacking_factor :
  ~ (forall (hw : call -> gmap loc contents -> gmap loc contents)
            (T : elem_type) (Use : matrix_use.t) (NumRows NumCols : size_t)
            (Layout : matrix_layout) (impl : loc -> loc -> size_t -> exec unit)
            (fragment memory : loc) (stride : size_t) (m : machine)
            (f : intrinsic) (dst src : pointer) (passed : size_t) (id : Z),
        sixteen_bit T = true ->
        tensorcore.load hw T Use NumRows NumCols Layout = Some impl ->
        In (call_ld_st f dst src passed id)
           (issued (snd (impl fragment memory stride m))) ->
        passed = (stride / 2)%N).
Proof.
  intros Hclaim.
  specialize (Hclaim toy_hw uint16_t matrix_use.a 16%N 16%N row_major _
                     1%positive 4%positive 16%N toy_machine
                     __mma_bf16_m16n16k16_ld_a
                     {| base := 1; pointee := int32_t |}
                     {| base := 4; pointee := int32_t |} 16%N 0
                     eq_refl eq_refl).
  discriminate Hclaim. left. reflexivity.
Qed.

(** ** The multiply-accumulate dispatcher *)

(** A declaration, and a parameter passed by value, make an object at a
    location that was not in use. *)
Lemma declare_run (v : contents) (m : machine) :
  exists l : loc,
    declare v m = (l, {| heap := <[l := v]> (heap m); issued := issued m |}) /\
    l ∉ dom (heap m).
Proof. eexists. split; [reflexivity | apply is_fresh]. Qed.

Lemma by_value_run (x : loc) (m : machine) :
  exists (l : loc) (v : contents),
    by_value x m = (l, {| heap := <[l := v]> (heap m); issued := issued m |}) /\
    l ∉ dom (heap m).
Proof. eexists _, _. split; [reflexivity | apply is_fresh]. Qed.

Ltac step_by_value x l v H :=
  match goal with
  | |- context [by_value x ?m] =>
      destruct (by_value_run x m) as (l & v & -> & H); cbn [heap issued] in H
  end.

Ltac step_declare l H :=
  match goal with
  | |- context [declare ?v ?m] =>
      destruct (declare_run v m) as (l & -> & H);
      cbn [heap issued] in H
  end.

Ltac undo_copy x D :=
  rewrite (delete_insert_ne _ x D) by set_solver;
  rewrite (delete_insert_id _ x)
    by (apply not_elem_of_dom; rewrite ?dom_insert_L; set_solver).

(** What a run of [joint_matrix_mad_steps] leaves behind: the object returned
    is new; when no instruction is chosen nothing is issued and the heap is
    the old one with the new object, which holds what it held when declared; at
    most one instruction is issued; and, the hardware reaching memory through
    its operands only, every object that existed before holds what it held. *)
Lemma joint_matrix_mad_steps_run
    (hw : call -> gmap loc contents -> gmap loc contents)
    (choice : option (intrinsic * elem_type * elem_type * elem_type * elem_type))
    (layout_pair_id : Z) (initial : contents) (A B C : loc) (m : machine) :
  let r := tensorcore.joint_matrix_mad_steps hw choice layout_pair_id initial
                                             A B C m in
  (fst r ∉ dom (heap m)) /\
  (choice = None ->
   heap (snd r) = <[fst r := initial]> (heap m) /\
   issued (snd r) = issued m) /\
  (exists cs : list call,
      issued (snd r) = issued m ++ cs /\ (length cs <= 1)%nat /\
      (choice = None <-> cs = [])) /\
  (writes_through_operands hw ->
   forall l : loc, l ∈ dom (heap m) -> heap (snd r) !! l = heap m !! l).
Proof.
  unfold tensorcore.joint_matrix_mad_steps, tensorcore.mad_steps, bind.
  step_by_value A A1 vA HA1.
  step_by_value B B1 vB HB1.
  step_by_value C C1 vC HC1.
  step_by_value A1 A2 vA2 HA2.
  step_by_value B1 B2 vB2 HB2.
  step_by_value C1 C2 vC2 HC2.
  step_declare D HD.
  rewrite !dom_insert_L in *.
  destruct choice as [[[[[f tD] tA] tB] tC]|];
    cbv beta iota zeta delta [issue end_of_life ret]; cbn [fst snd heap issued].
  - split; [set_solver |]. split; [discriminate |]. split.
    + eexists [_]. split; [reflexivity |]. split; [simpl; lia |].
      split; discriminate.
    + intros Hframe l Hl.
      rewrite !lookup_delete_ne by set_solver.
      rewrite Hframe by (simpl; set_solver).
      rewrite !lookup_insert_ne by set_solver. reflexivity.
  - split; [set_solver |]. split.
    + intros _. split; [| reflexivity].
      undo_copy C2 D. undo_copy B2 D. undo_copy A2 D.
      undo_copy C1 D. undo_copy B1 D. undo_copy A1 D.
      reflexivity.
    + split.
      * exists []. split; [symmetry; apply app_nil_r |].
        split; [simpl; lia |]. split; reflexivity.
      * intros _ l Hl.
        rewrite !lookup_delete_ne by set_solver.
        rewrite !lookup_insert_ne by set_solver. reflexivity.
Qed.

(** An instance that exists is the function written, and its builtin calls
    are well-formed. *)
Lemma instantiate_Some (instance impl : loc -> loc -> loc -> exec loc) :
  tensorcore.instantiate instance = Some impl ->
  impl = instance /\
  forallb type_checks (tensorcore.builtin_calls instance) = true.
Proof.
  unfold tensorcore.instantiate.
  destruct (forallb type_checks (tensorcore.builtin_calls instance));
    [| discriminate].
  intros [= <-]. split; reflexivity.
Qed.

Section mad_shape.
Variable hw : call -> gmap loc contents -> gmap loc contents.
Variable marray_default : elem_type -> size_t -> contents.

(** Case analysis on the conditions of a dispatcher, outermost first. *)
Ltac each_branch :=
  repeat match goal with
         | |- context [if ?cond then _ else _] => destruct cond
         end.

(** Whatever the template arguments, an instance of [mad] runs the steps of
    [mad_steps]: it copies its parameters, declares [D], issues at most one
    instruction on those four objects, and returns [D]. *)
Lemma mad_normal_form (T1 T2 : elem_type) (M K N : size_t)
    (LayoutA LayoutB LayoutC : matrix_layout)
    (impl : loc -> loc -> loc -> exec loc) :
  tensorcore.mad hw marray_default T1 T2 M K N LayoutA LayoutB LayoutC
  = Some impl ->
  forall (A B C : loc) (m : machine),
  exists choice layout_pair_id initial,
    impl A B C m
    = tensorcore.mad_steps hw choice layout_pair_id initial A B C m.
Proof.
  unfold tensorcore.mad.
  destruct (row_or_col_major LayoutA && row_or_col_major LayoutB
            && row_or_col_major LayoutC); [|discriminate].
  destruct (joint_matrix T1 matrix_use.a M K LayoutA) as [specA|];
    [|discriminate].
  destruct (joint_matrix T1 matrix_use.b K N LayoutB) as [specB|];
    [|discriminate].
  destruct (joint_matrix T2 matrix_use.accumulator M N LayoutC) as [specC|];
    [|discriminate].
  destruct (get_layout_pair_id LayoutA LayoutB) as [layout_pair_id|];
    [|discriminate].
  cbn [mbind option_bind]. intros Hinstance A B C m.
  apply instantiate_Some in Hinstance as [-> _].
  unfold tensorcore.mad_steps.
  cbv beta iota zeta delta [bind by_value declare].
  each_branch;
    lazymatch goal with
    | |- context [issue hw (call_mma ?f ?pd ?pa ?pb ?pc _ _)] =>
        exists (Some (f, pointee pd, pointee pa, pointee pb, pointee pc))
    | |- _ => exists None
    end;
    exists layout_pair_id;
    exists (tensorcore.default_initialized marray_default specC);
    reflexivity.
Qed.

(** On the NVPTX device pass a well-formed [joint_matrix_mad] returns, as an
    object of the accumulator's type, what [joint_matrix_mad_steps] yields. *)
Lemma joint_matrix_mad_on_device (tgt : target) (T1 T2 : elem_type)
    (M K N : size_t) (LayoutA LayoutB LayoutC : matrix_layout)
    (run : loc -> loc -> loc -> api (joint_matrix_type * loc)) :
  __SYCL_DEVICE_ONLY__ tgt && __NVPTX__ tgt = true ->
  tensorcore.joint_matrix_mad hw marray_default tgt T1 T2 M K N
                              LayoutA LayoutB LayoutC = Some run ->
  is_Some (joint_matrix T2 matrix_use.accumulator M N LayoutC) /\
  forall (A B C : loc) (m : machine),
  exists choice layout_pair_id initial,
    let r := tensorcore.joint_matrix_mad_steps hw choice layout_pair_id initial
                                               A B C m in
    run A B C m =
    (Returned ({| jm_type := T2; jm_use := matrix_use.accumulator;
                  jm_rows := M; jm_cols := N; jm_layout := LayoutC |}, fst r),
     snd r).
Proof.
  intros Hdev. unfold tensorcore.joint_matrix_mad. rewrite Hdev.
  destruct (joint_matrix T1 matrix_use.a M K LayoutA) as [typeA|];
    [|discriminate].
  destruct (joint_matrix T1 matrix_use.b K N LayoutB) as [typeB|];
    [|discriminate].
  destruct (joint_matrix T2 matrix_use.accumulator M N LayoutC) as [typeC|];
    [|discriminate].
  simpl.
  destruct (tensorcore.mad hw marray_default T1 T2 M K N
                           LayoutA LayoutB LayoutC)
    as [impl|] eqn:Himpl; [|discriminate].
  intros [= <-]. split; [eexists; reflexivity |].
  intros A B C m.
  unfold tensorcore.joint_matrix_mad_steps, bind.
  step_by_value A A1 vA HA1.
  step_by_value B B1 vB HB1.
  step_by_value C C1 vC HC1.
  match goal with
  | |- context [impl ?x ?y ?z ?m1] =>
      destruct (mad_normal_form _ _ _ _ _ _ _ _ _ Himpl x y z m1)
        as (choice & layout_pair_id & initial & ->)
  end.
  exists choice, layout_pair_id, initial.
  destruct (tensorcore.mad_steps hw choice layout_pair_id initial A1 B1 C1 _)
    as [D m']. reflexivity.
Qed.

End mad_shape.

(** The toy hardware writes to the object of its first operand only. *)
Lemma toy_hw_writes_through_operands : writes_through_operands toy_hw.
Proof.
  intros c h l Hl. destruct c; simpl in *;
    apply lookup_insert_ne; set_solver.
Qed.

(** Where the deduction of a call succeeds, the type of [C] is the type the
    function returns. *)
Lemma call_joint_matrix_mad_Some
    (hw : call -> gmap loc contents -> gmap loc contents)
    (marray_default : elem_type -> size_t -> contents)
    (tgt : target) (tA tB tC : joint_matrix_type)
    (run : loc -> loc -> loc -> api (joint_matrix_type * loc)) :
  tensorcore.call_joint_matrix_mad hw marray_default tgt tA tB tC = Some run ->
  tensorcore.joint_matrix_mad hw marray_default tgt (jm_type tA) (jm_type tC)
    (jm_rows tA) (jm_cols tA) (jm_cols tB)
    (jm_layout tA) (jm_layout tB) (jm_layout tC) = Some run /\
  jm_type tB = jm_type tA /\
  tC = {| jm_type := jm_type tC; jm_use := matrix_use.accumulator;
          jm_rows := jm_rows tA; jm_cols := jm_cols tB;
          jm_layout := jm_layout tC |}.
Proof.
  unfold tensorcore.call_joint_matrix_mad. cbv zeta.
  destruct (_ && _) eqn:Hdeduced; [| discriminate].
  intros Hrun. split; [exact Hrun |].
  repeat (apply andb_prop in Hdeduced as [Hdeduced ?]).
  repeat match goal with
         | H : bool_decide _ = true |- _ => apply bool_decide_eq_true in H
         | H : (_ =? _)%N = true |- _ => apply N.eqb_eq in H
         end.
  split; [assumption |].
  destruct tC; simpl in *; congruence.
Qed.

(** C7: on the device, a call [joint_matrix_mad(sg, A, B, C)] returns an
    object [D] of the type of its accumulator argument [C] (same element
    type, use, rows, columns and layout); [D] is a new object, none of those
    alive before the call; and, the hardware writing through its pointer
    operands only, every object alive before the call, [C] among them, holds
    afterwards what it held before: the multiply-accumulate works on copies
    of [A], [B], [C].  The function of matrix-unified.hpp hands [C] itself to
    [joint_matrix_mad_cuda], which is not among the sources: for it the same
    holds provided that function leaves every object but [D] as it was. *)
Theorem mad_result_is_new_and_C_is_kept
    (hw : call -> gmap loc contents -> gmap loc contents)
    (marray_default : elem_type -> size_t -> contents) :
  writes_through_operands hw ->
  (forall (tgt : target) (tA tB tC : joint_matrix_type)
          (run : loc -> loc -> loc -> api (joint_matrix_type * loc))
          (A B C : loc) (m : machine),
      __SYCL_DEVICE_ONLY__ tgt && __NVPTX__ tgt = true ->
      tensorcore.call_joint_matrix_mad hw marray_default tgt tA tB tC
      = Some run ->
      exists (D : loc) (m' : machine),
        run A B C m = (Returned (tC, D), m') /\
        is_Some (joint_matrix (jm_type tC) (jm_use tC) (jm_rows tC)
                              (jm_cols tC) (jm_layout tC)) /\
        (D ∉ dom (heap m)) /\
        (forall l : loc, l ∈ dom (heap m) -> heap m' !! l = heap m !! l) /\
        (is_Some (heap m !! C) -> D <> C /\ heap m' !! C = heap m !! C)) /\
  (forall (joint_matrix_mad_cuda :
             elem_type -> elem_type -> size_t -> size_t -> size_t ->
             unified.layout -> unified.layout ->
             loc -> loc -> loc -> loc -> exec unit)
          (default_initialized : elem_type -> size_t -> size_t -> contents),
      (forall Ta Tc M K N LayoutA LayoutB D A B C m (l : loc),
          l <> D ->
          heap (snd (joint_matrix_mad_cuda Ta Tc M K N LayoutA LayoutB
                                           D A B C m)) !! l = heap m !! l) ->
      forall (tgt : target) (Ta Tc : elem_type) (M K N : size_t)
             (LayoutA LayoutB : unified.layout) (A B C : loc) (m : machine),
        __SYCL_DEVICE_ONLY__ tgt = true -> __NVPTX__ tgt = true ->
        exists (D : loc) (m' : machine),
          unified.joint_matrix_mad joint_matrix_mad_cuda default_initialized
                                   tgt Ta Ta Tc M K N LayoutA LayoutB A B C m =
          (Returned ({| unified.jm_type := Tc;
                        unified.jm_use := unified.accumulator;
                        unified.jm_rows := M; unified.jm_cols := N;
                        unified.jm_layout := unified.dynamic |}, D), m') /\
          (D ∉ dom (heap m)) /\
          (forall l : loc, l ∈ dom (heap m) -> heap m' !! l = heap m !! l)).
Proof.
  intros Hframe. split.
  - intros tgt tA tB tC run A B C m Hdev Hcall.
    apply call_joint_matrix_mad_Some in Hcall as (Hrun & _ & HtC).
    destruct (joint_matrix_mad_on_device hw marray_default tgt
                _ _ _ _ _ _ _ _ run Hdev Hrun) as [Htype Hsteps].
    destruct (Hsteps A B C m) as (choice & layout_pair_id & initial & Heq).
    destruct (joint_matrix_mad_steps_run hw choice layout_pair_id initial
                                         A B C m)
      as (Hnew & _ & _ & Hkeep).
    cbv zeta in Heq. rewrite <- HtC in Heq.
    eexists _, _. split; [exact Heq |].
    split; [rewrite HtC; exact Htype |]. split; [exact Hnew |].
    split; [exact (Hkeep Hframe) |].
    intros Hlive. apply elem_of_dom in Hlive. split.
    + intros HDC. rewrite HDC in Hnew. exact (Hnew Hlive).
    + exact (Hkeep Hframe C Hlive).
  - intros mad_cuda initial Hcuda tgt Ta Tc M K N LayoutA LayoutB A B C m
           Hdev Hnv.
    unfold unified.joint_matrix_mad. rewrite Hdev, Hnv.
    unfold is_same_v. rewrite bool_decide_eq_true_2 by reflexivity.
    unfold bind.
    destruct (declare_run (initial Tc M N) m) as (D & -> & HD).
    destruct (mad_cuda Ta Tc M K N LayoutA LayoutB D A B C _) as [[] m'] eqn:Hm'.
    cbv beta iota zeta delta [ret].
    eexists _, _. split; [reflexivity |]. split; [exact HD |].
    intros l Hl.
    assert (l <> D) as Hne by (intros ->; exact (HD Hl)).
    pose proof (Hcuda Ta Tc M K N LayoutA LayoutB D A B C
                      {| heap := <[D := initial Tc M N]> (heap m);
                         issued := issued m |} l Hne) as Hsame.
    rewrite Hm' in Hsame. cbn [snd heap] in Hsame.
    rewrite Hsame. apply lookup_insert_ne. congruence.
Qed.

Lemma mad_result_is_new_and_C_is_kept_witness :
  let tA := {| jm_type := half; jm_use := matrix_use.a; jm_rows := 16;
               jm_cols := 16; jm_layout := row_major |} in
  let tB := {| jm_type := half; jm_use := matrix_use.b; jm_rows := 16;
               jm_cols := 16; jm_layout := col_major |} in
  let tC := {| jm_type := float; jm_use := matrix_use.accumulator;
               jm_rows := 16; jm_cols := 16; jm_layout := row_major |} in
  exists (run : loc -> loc -> loc -> api (joint_matrix_type * loc))
         (D : loc) (m' : machine),
    tensorcore.call_joint_matrix_mad toy_hw toy_marray_default
                                     nvptx_device_pass tA tB tC = Some run /\
    run 1%positive 2%positive 3%positive toy_machine = (Returned (tC, D), m') /\
    D <> 3%positive /\
    heap m' !! 3%positive = Some (words [30; 31]).
Proof.
  cbv zeta.
  match goal with
  | |- exists run D m', ?call = Some run /\ _ =>
      assert (exists run, call = Some run) as [run Hrun]
        by (eexists; reflexivity)
  end.
  destruct (proj1 (mad_result_is_new_and_C_is_kept
                     toy_hw toy_marray_default toy_hw_writes_through_operands)
              nvptx_device_pass _ _ _ run
              1%positive 2%positive 3%positive toy_machine eq_refl Hrun)
    as (D & m' & Hret & _ & _ & _ & Hkept).
  destruct Hkept as [HD HC]; [eexists; reflexivity |].
  exists run, D, m'. split; [exact Hrun |].
  split; [exact Hret |]. split; [exact HD | exact HC].
Defined.

(** ** The choice of a multiply-accumulate *)

(** The only fragments of element type double are the three of tile m8n8k4. *)
Lemma double_fragment (Use : matrix_use.t) (Rows Cols : N)
    (Layout : matrix_layout) (spec : specialization) :
  joint_matrix double Use Rows Cols Layout = Some spec ->
  (Rows, Cols) = fragment_shape Use (8, 8, 4)%N.
Proof.
  intros Hspec.
  apply joint_matrix_Some in Hspec as (Hin & Hty & <- & <- & <- & _).
  each_specialization Hin; try discriminate Hty; reflexivity.
Qed.

(** The instruction of a run of [joint_matrix_mad_steps]: it writes to the
    object returned and reads three objects made for the call. *)
Lemma joint_matrix_mad_steps_call
    (hw : call -> gmap loc contents -> gmap loc contents)
    (f : intrinsic) (tD tA tB tC : elem_type) (layout_pair_id : Z)
    (initial : contents) (A B C : positive) (m : machine) :
  let r := tensorcore.joint_matrix_mad_steps hw (Some (f, tD, tA, tB, tC))
             layout_pair_id initial A B C m in
  exists a b c : positive,
    issued (snd r) =
    issued m ++ [call_mma f {| base := fst r; pointee := tD |}
                            {| base := a; pointee := tA |}
                            {| base := b; pointee := tB |}
                            {| base := c; pointee := tC |}
                            layout_pair_id 0] /\
    NoDup [fst r; a; b; c] /\
    (forall l, l ∈ [fst r; a; b; c] -> l ∉ dom (heap m)).
Proof.
  unfold tensorcore.joint_matrix_mad_steps, tensorcore.mad_steps, bind.
  step_by_value A A1 vA HA1.
  step_by_value B B1 vB HB1.
  step_by_value C C1 vC HC1.
  step_by_value A1 A2 vA2 HA2.
  step_by_value B1 B2 vB2 HB2.
  step_by_value C1 C2 vC2 HC2.
  step_declare D HD.
  rewrite !dom_insert_L in *.
  cbv beta iota zeta delta [issue end_of_life ret]. cbn [fst snd heap issued].
  exists A2, B2, C2. split; [reflexivity |]. split.
  - repeat (apply NoDup_cons; split; [set_solver |]). apply NoDup_nil. trivial.
  - intros l Hl. set_solver.
Qed.

Section mad_choice.
Variable hw : call -> gmap positive contents -> gmap positive contents.
Variable marray_default : elem_type -> N -> contents.

Ltac each_branch_eqn :=
  repeat match goal with
         | |- context [if ?cond then _ else _] => destruct cond eqn:?
         end.

Ltac tile_from_conditions :=
  repeat match goal with
         | H : (_ && _) = true |- _ => apply andb_prop in H as [? ?]
         | H : (_ =? _)%N = true |- _ => apply N.eqb_eq in H; subst
         end.

Lemma mad_chooses_for_its_tile (T1 T2 : elem_type) (M K N : N)
    (LayoutA LayoutB LayoutC : matrix_layout)
    (impl : positive -> positive -> positive -> exec positive) :
  tensorcore.mad hw marray_default T1 T2 M K N LayoutA LayoutB LayoutC
  = Some impl ->
  forall (A B C : positive) (m : machine),
  exists choice layout_pair_id initial,
    impl A B C m
    = tensorcore.mad_steps hw choice layout_pair_id initial A B C m /\
    get_layout_pair_id LayoutA LayoutB = Some layout_pair_id /\
    (forall f tD tA tB tC,
      choice = Some (f, tD, tA, tB, tC) ->
      kind_of f = multiplies /\ tile_of f = (M, N, K)) /\
    (multiply_combination T1 T2 M N K -> choice <> None) /\
    (unanswered_combination T1 T2 M N K -> choice = None).
Proof.
  unfold tensorcore.mad.
  destruct (row_or_col_major LayoutA && row_or_col_major LayoutB
            && row_or_col_major LayoutC); [|discriminate].
  destruct (joint_matrix T1 matrix_use.a M K LayoutA) as [specA|] eqn:HA;
    [|discriminate].
  destruct (joint_matrix T1 matrix_use.b K N LayoutB) as [specB|] eqn:HB;
    [|discriminate].
  destruct (joint_matrix T2 matrix_use.accumulator M N LayoutC) as [specC|];
    [|discriminate].
  destruct (get_layout_pair_id LayoutA LayoutB) as [layout_pair_id|];
    [|discriminate].
  cbn [mbind option_bind]. intros Hinstance A B C m.
  apply instantiate_Some in Hinstance as [-> _].
  unfold tensorcore.mad_steps.
  cbv beta iota zeta delta [bind by_value declare].
  each_branch_eqn;
    lazymatch goal with
    | |- context [issue hw (call_mma ?f ?pd ?pa ?pb ?pc _ _)] =>
        exists (Some (f, pointee pd, pointee pa, pointee pb, pointee pc))
    | |- _ => exists None
    end;
    exists layout_pair_id;
    exists (tensorcore.default_initialized marray_default specC);
    (split; [reflexivity |]; split; [reflexivity |]);
    (split; [| split; shelve]);
    intros f tD tA tB tC Hchoice;
    (first [discriminate Hchoice | inversion Hchoice; subst f; clear Hchoice]);
    (split; [reflexivity |]);
    tile_from_conditions; try reflexivity.
  (* the double-precision branch: the tile comes from the fragment types *)
  match goal with
  | H : is_same_v T1 double = true |- _ =>
      apply bool_decide_eq_true in H; subst T1
  end.
  apply double_fragment in HA, HB. simpl in HA, HB.
  simpl. congruence.
  (* a combination the builtins are written for meets one of the branches *)
  Unshelve.
  all: try discriminate.
  all: try (intros _; reflexivity).
  all: clear HA HB.
  all: try (intros Hcombination _;
    destruct Hcombination as [[Htypes Htile]|Hdouble];
    [ unfold multiply_types, multiply_tiles in Htypes, Htile;
      cbn [In] in Htypes, Htile;
      destruct Htypes as [H|[H|[H|[H|[H|[H|[]]]]]]]; inversion H;
      subst T1 T2; clear H;
      (destruct Htile as [H|[H|[H|[]]]]; inversion H; subst M N K; clear H);
      discriminate
    | inversion Hdouble; subst; discriminate ]).
  all: intros [(-> & -> & Htile)|(Htype & -> & Htile)]; exfalso;
    [ unfold multiply_tiles in Htile; cbn [In] in Htile;
      destruct Htile as [H|[H|[H|[]]]]; inversion H; subst M N K; clear H;
      discriminate
    | inversion Htile; subst M N K; cbn [In] in Htype;
      destruct Htype as [<-|[<-|[<-|[<-|[<-|[]]]]]]; discriminate ].
Qed.

(** What [joint_matrix_mad] runs on the device, for every instance that
    exists. *)
Lemma joint_matrix_mad_chooses
    (tgt : target) (T1 T2 : elem_type) (M K N : N)
    (LayoutA LayoutB LayoutC : matrix_layout)
    (run : positive -> positive -> positive -> api (joint_matrix_type * positive))
    (A B C : positive) (m : machine) :
  __SYCL_DEVICE_ONLY__ tgt && __NVPTX__ tgt = true ->
  tensorcore.joint_matrix_mad hw marray_default tgt T1 T2 M K N
                              LayoutA LayoutB LayoutC = Some run ->
  exists choice layout_pair_id initial ty,
    run A B C m =
    (Returned (ty, fst (tensorcore.joint_matrix_mad_steps hw choice
                          layout_pair_id initial A B C m)),
     snd (tensorcore.joint_matrix_mad_steps hw choice layout_pair_id initial
            A B C m)) /\
    get_layout_pair_id LayoutA LayoutB = Some layout_pair_id /\
    (forall f tD tA tB tC,
        choice = Some (f, tD, tA, tB, tC) ->
        kind_of f = multiplies /\ tile_of f = (M, N, K)) /\
    (multiply_combination T1 T2 M N K -> choice <> None) /\
    (unanswered_combination T1 T2 M N K -> choice = None).
Proof.
  intros Hdev. unfold tensorcore.joint_matrix_mad. rewrite Hdev.
  destruct (joint_matrix T1 matrix_use.a M K LayoutA) as [typeA|];
    [|discriminate].
  destruct (joint_matrix T1 matrix_use.b K N LayoutB) as [typeB|];
    [|discriminate].
  destruct (joint_matrix T2 matrix_use.accumulator M N LayoutC) as [typeC|];
    [|discriminate].
  cbn [mbind option_bind].
  destruct (tensorcore.mad hw marray_default T1 T2 M K N
                           LayoutA LayoutB LayoutC)
    as [impl|] eqn:Himpl; [|discriminate].
  intros [= <-].
  assert (exists choice layout_pair_id initial,
             (let* A := by_value A in
              let* B := by_value B in
              let* C := by_value C in
              let* D := impl A B C in
              end_of_life C;; end_of_life B;; end_of_life A;; ret D) m
             = tensorcore.joint_matrix_mad_steps hw choice layout_pair_id
                 initial A B C m /\
             get_layout_pair_id LayoutA LayoutB = Some layout_pair_id /\
             (forall f tD tA tB tC,
               choice = Some (f, tD, tA, tB, tC) ->
               kind_of f = multiplies /\ tile_of f = (M, N, K)) /\
             (multiply_combination T1 T2 M N K -> choice <> None) /\
             (unanswered_combination T1 T2 M N K -> choice = None))
    as (choice & layout_pair_id & initial & Hsteps & Hrest).
  { unfold tensorcore.joint_matrix_mad_steps, bind.
    step_by_value A A1 vA HA1.
    step_by_value B B1 vB HB1.
    step_by_value C C1 vC HC1.
    match goal with
    | |- context [impl ?x ?y ?z ?m1] =>
        destruct (mad_chooses_for_its_tile _ _ _ _ _ _ _ _ _ Himpl x y z m1)
          as (choice & layout_pair_id & initial & -> & Hrest)
    end.
    exists choice, layout_pair_id, initial. split; [reflexivity | exact Hrest]. }
  rewrite Hsteps.
  exists choice, layout_pair_id, initial. eexists. split; [| exact Hrest].
  destruct (tensorcore.joint_matrix_mad_steps hw choice layout_pair_id initial
              A B C m) as [D m'].
  reflexivity.
Qed.

End mad_choice.

(** The combinations [mad] has a builtin for, and those it has none for and
    accepts, have an instance on the device: their fragment types exist and
    the call of the branch they take, if any, is well-formed. *)
Lemma joint_matrix_mad_exists
    (hw : call -> gmap loc contents -> gmap loc contents)
    (marray_default : elem_type -> size_t -> contents)
    (tgt : target) (T1 T2 : elem_type) (M K N : N)
    (LayoutA LayoutB LayoutC : matrix_layout) :
  __SYCL_DEVICE_ONLY__ tgt && __NVPTX__ tgt = true ->
  multiply_combination T1 T2 M N K \/ unanswered_combination T1 T2 M N K ->
  row_or_col_major LayoutA && row_or_col_major LayoutB
    && row_or_col_major LayoutC = true ->
  exists run,
    tensorcore.joint_matrix_mad hw marray_default tgt T1 T2 M K N
                                LayoutA LayoutB LayoutC = Some run.
Proof.
  intros Hdev Hcombination Hlayouts.
  unfold tensorcore.joint_matrix_mad.
  destruct Hcombination
    as [[[Htypes Htile]|Hdouble]|[(-> & -> & Htile)|(Htype & -> & Htile)]].
  - unfold multiply_types, multiply_tiles in Htypes, Htile.
    cbn [In] in Htypes, Htile.
    destruct Htypes as [H|[H|[H|[H|[H|[H|[]]]]]]]; inversion H;
      subst T1 T2; clear H;
      (destruct Htile as [H|[H|[H|[]]]]; inversion H; subst M N K; clear H);
      destruct LayoutA, LayoutB, LayoutC; try discriminate Hlayouts;
      cbn [mbind option_bind]; rewrite Hdev; eexists; reflexivity.
  - inversion Hdouble; subst.
    destruct LayoutA, LayoutB, LayoutC; try discriminate Hlayouts;
      cbn [mbind option_bind]; rewrite Hdev; eexists; reflexivity.
  - unfold multiply_tiles in Htile. cbn [In] in Htile.
    destruct Htile as [H|[H|[H|[]]]]; inversion H; subst M N K; clear H;
      destruct LayoutA, LayoutB, LayoutC; try discriminate Hlayouts;
      cbn [mbind option_bind]; rewrite Hdev; eexists; reflexivity.
  - inversion Htile; subst M N K. cbn [In] in Htype.
    destruct Htype as [<-|[<-|[<-|[<-|[<-|[]]]]]];
      destruct LayoutA, LayoutB, LayoutC; try discriminate Hlayouts;
      cbn [mbind option_bind]; rewrite Hdev; eexists; reflexivity.
Qed.


(** ** Combinations without an instruction *)




(** What that call leaves: the three fragments as they were, and the object
    returned, which nothing ever wrote. *)
Example unsupported_mad_leaves_D_indeterminate :
  exists run,
    tensorcore.joint_matrix_mad toy_hw toy_marray_default nvptx_device_pass
      half int32_t 16 16 16 row_major row_major row_major = Some run /\
    snd (run 1%positive 2%positive 3%positive toy_machine)
    = {| heap := <[11%positive := indeterminate]> (heap toy_machine);
         issued := [] |}.
Proof. eexists. split; [reflexivity | vm_compute; reflexivity]. Qed.

(** ** Calls outside the NVPTX device pass *)

(** Parameters passed by value and gone again leave the machine as it was. *)
Lemma copies_unwound (A B C : loc) (m : machine) :
  snd ((let* A := by_value A in
        let* B := by_value B in
        let* C := by_value C in
        end_of_life C;;
        end_of_life B;;
        end_of_life A) m) = m.
Proof.
  unfold bind.
  step_by_value A A1 vA HA1.
  step_by_value B B1 vB HB1.
  step_by_value C C1 vC HC1.
  cbv beta iota zeta delta [end_of_life]. cbn [snd heap issued].
  rewrite !delete_insert_id by (apply not_elem_of_dom; assumption).
  destruct m; reflexivity.
Qed.

(** C5, as the code has it.  The functions of matrix-tensorcore.hpp throw
    [runtime_error] in every pass that is not the NVPTX device pass, and
    those of matrix-unified.hpp in every host pass (no
    [__SYCL_DEVICE_ONLY__]); the error names the situation, and the machine
    is left as it was: nothing is issued, nothing is written. *)
Theorem host_execution_throws
    (hw : call -> gmap loc contents -> gmap loc contents)
    (load_accumulator_cuda :
       elem_type -> elem_type -> size_t -> size_t -> unified.use ->
       loc -> loc -> size_t -> unified.layout -> exec unit)
    (load_multiplicand_cuda :
       elem_type -> elem_type -> size_t -> size_t -> unified.use ->
       unified.layout -> loc -> loc -> size_t -> exec unit)
    (joint_matrix_store_cuda :
       elem_type -> size_t -> size_t -> loc -> loc -> size_t ->
       unified.layout -> exec unit)
    (joint_matrix_mad_cuda :
       elem_type -> elem_type -> size_t -> size_t -> size_t ->
       unified.layout -> unified.layout -> loc -> loc -> loc -> loc ->
       exec unit)
    (marray_default : elem_type -> size_t -> contents)
    (default_initialized : elem_type -> size_t -> size_t -> contents)
    (tgt : target) :
  (__SYCL_DEVICE_ONLY__ tgt && __NVPTX__ tgt = false ->
   (forall T Use NumRows NumCols Layout,
       exists run,
         tensorcore.joint_matrix_load hw tgt T Use NumRows NumCols Layout
         = Some run /\
         forall res src stride m,
           run res src stride m =
           (Thrown "When using SYCL_EXT_ONEAPI_MATRIX=3 joint_matrix_load is only supported by CUDA devices"
                   PI_INVALID_DEVICE, m)) /\
   (forall T NumRows NumCols Layout,
       exists run,
         tensorcore.joint_matrix_store hw tgt T NumRows NumCols Layout
         = Some run /\
         forall src dst stride m,
           run src dst stride m =
           (Thrown "When using SYCL_EXT_ONEAPI_MATRIX=3 joint_matrix_store is only supported by CUDA devices"
                   PI_INVALID_DEVICE, m)) /\
   (forall T1 T2 M K N LayoutA LayoutB LayoutC run A B C m,
       tensorcore.joint_matrix_mad hw marray_default tgt T1 T2 M K N
                                   LayoutA LayoutB LayoutC = Some run ->
       run A B C m =
       (Thrown "When using SYCL_EXT_ONEAPI_MATRIX=3 joint_matrix_mad is only supported by CUDA devices"
               PI_INVALID_DEVICE, m))) /\
  (__SYCL_DEVICE_ONLY__ tgt = false ->
   (forall S T NumRows NumCols Use run,
       unified.joint_matrix_load_dynamic load_accumulator_cuda tgt S T
                                         NumRows NumCols Use = Some run ->
       forall res src stride LayoutAcc m,
         run res src stride LayoutAcc m =
         (Thrown unified.only_on_Nvidia PI_ERROR_INVALID_DEVICE, m)) /\
   (forall S T Use NumRows NumCols Layout run,
       unified.joint_matrix_load load_multiplicand_cuda tgt S T Use
                                 NumRows NumCols Layout = Some run ->
       forall res src stride m,
         run res src stride m =
         (Thrown unified.only_on_Nvidia PI_ERROR_INVALID_DEVICE, m)) /\
   (forall T NumRows NumCols src dst stride LayoutAcc m,
       unified.joint_matrix_store joint_matrix_store_cuda tgt T NumRows NumCols
                                  src dst stride LayoutAcc m =
       (Thrown unified.only_on_Nvidia PI_ERROR_INVALID_DEVICE, m)) /\
   (forall Ta Tb Tc M K N LayoutA LayoutB A B C m,
       unified.joint_matrix_mad joint_matrix_mad_cuda default_initialized tgt
                                Ta Tb Tc M K N LayoutA LayoutB A B C m =
       (Thrown unified.only_on_Nvidia PI_ERROR_INVALID_DEVICE, m))).
Proof.
  split.
  - intros Hhost. split; [| split].
    + intros. unfold tensorcore.joint_matrix_load. rewrite Hhost.
      eexists. split; reflexivity.
    + intros. unfold tensorcore.joint_matrix_store. rewrite Hhost.
      eexists. split; reflexivity.
    + intros T1 T2 M K N LayoutA LayoutB LayoutC run A B C m.
      unfold tensorcore.joint_matrix_mad. rewrite Hhost.
      destruct (joint_matrix T1 matrix_use.a M K LayoutA); [| discriminate].
      destruct (joint_matrix T1 matrix_use.b K N LayoutB); [| discriminate].
      destruct (joint_matrix T2 matrix_use.accumulator M N LayoutC);
        [| discriminate].
      cbn [mbind option_bind]. intros [= <-]. f_equal.
      apply copies_unwound.
  - intros Hhost. split; [| split; [| split]].
    + intros S T NumRows NumCols Use run.
      unfold unified.joint_matrix_load_dynamic. rewrite Hhost.
      destruct (is_same_v S T); [| discriminate].
      intros [= <-]. reflexivity.
    + intros S T Use NumRows NumCols Layout run.
      unfold unified.joint_matrix_load. rewrite Hhost.
      destruct (is_same_v S T || is_same_v S tf32 && is_same_v T float);
        [| discriminate].
      intros [= <-]. reflexivity.
    + intros. unfold unified.joint_matrix_store. rewrite Hhost. reflexivity.
    + intros. unfold unified.joint_matrix_mad. rewrite Hhost. reflexivity.
Qed.

Lemma host_execution_throws_witness :
  exists run,
    tensorcore.joint_matrix_load toy_hw host_pass float matrix_use.accumulator
                                 16 16 row_major = Some run /\
    run 3%positive 4%positive 16%N toy_machine =
    (Thrown "When using SYCL_EXT_ONEAPI_MATRIX=3 joint_matrix_load is only supported by CUDA devices"
            PI_INVALID_DEVICE, toy_machine).
Proof.
  destruct (proj1 (proj1 (host_execution_throws
                            toy_hw
                            (fun _ _ _ _ _ _ _ _ _ => ret tt)
                            (fun _ _ _ _ _ _ _ _ _ => ret tt)
                            (fun _ _ _ _ _ _ _ => ret tt)
                            (fun _ _ _ _ _ _ _ _ _ _ _ => ret tt)
                            toy_marray_default (fun _ _ _ => indeterminate)
                            host_pass) eq_refl)
              float matrix_use.accumulator 16%N 16%N row_major)
    as (run & Hrun & Hthrows).
  exists run. split; [exact Hrun | apply Hthrows].
Defined.

(** C5 as the spec words it fails.  A device pass for a target other than
    NVPTX is outside the CUDA device context, and there the functions of
    matrix-unified.hpp have an empty body: [joint_matrix_store] returns
    without throwing. *)
Lemma unified_store_outside_cuda_does_not_throw :
  ~ (forall (joint_matrix_store_cuda :
               elem_type -> size_t -> size_t -> loc -> loc -> size_t ->
               unified.layout -> exec unit)
            (tgt : target) (T : elem_type) (NumRows NumCols : size_t)
            (src dst : loc) (stride : size_t) (LayoutAcc : unified.layout)
            (m : machine),
        __SYCL_DEVICE_ONLY__ tgt && __NVPTX__ tgt = false ->
        exists what code,
          fst (unified.joint_matrix_store joint_matrix_store_cuda tgt T
                 NumRows NumCols src dst stride LayoutAcc m)
          = Thrown what code).
Proof.
  intros Hclaim.
  destruct (Hclaim (fun _ _ _ _ _ _ _ => ret tt) other_device_pass float
                   16%N 16%N 3%positive 4%positive 16%N unified.row_major
                   toy_machine eq_refl) as (what & code & Hthrown).
  discriminate Hthrown.
Qed.

(** ** Multiplicands of different element types *)

(** C4, as the code has it: [joint_matrix_mad] of matrix-unified.hpp on
    multiplicands of different element types never reaches
    [joint_matrix_mad_cuda], whatever that function does: the machine is left
    as it was, for every shape and every pair of layouts.  On the NVPTX
    device pass with assertions enabled it fails on the assertion that names
    the mismatch; on the host pass it throws the error of the host pass.  The
    function of matrix-tensorcore.hpp takes both multiplicands at the one
    type [T1]: for arguments of different element types the deduction fails
    and there is no call at all. *)
Theorem mad_type_mismatch :
  (forall (joint_matrix_mad_cuda :
             elem_type -> elem_type -> size_t -> size_t -> size_t ->
             unified.layout -> unified.layout -> loc -> loc -> loc -> loc ->
             exec unit)
          (default_initialized : elem_type -> size_t -> size_t -> contents)
          (tgt : target) (Ta Tb Tc : elem_type) (M K N : size_t)
          (LayoutA LayoutB : unified.layout) (A B C : loc) (m : machine),
      Ta <> Tb ->
      let r := unified.joint_matrix_mad joint_matrix_mad_cuda
                 default_initialized tgt Ta Tb Tc M K N LayoutA LayoutB
                 A B C m in
      snd r = m /\
      (__SYCL_DEVICE_ONLY__ tgt = true -> __NVPTX__ tgt = true ->
       NDEBUG tgt = false ->
       fst r = AssertionFailed
                 "Ta != Tb : In the CUDA backend joint_matrix_mad requires that joint_matrix data types Ta and Tb match") /\
      (__SYCL_DEVICE_ONLY__ tgt = false ->
       fst r = Thrown unified.only_on_Nvidia PI_ERROR_INVALID_DEVICE)) /\
  (forall (hw : call -> gmap loc contents -> gmap loc contents)
          (marray_default : elem_type -> size_t -> contents)
          (tgt : target) (tA tB tC : joint_matrix_type),
      jm_type tA <> jm_type tB ->
      tensorcore.call_joint_matrix_mad hw marray_default tgt tA tB tC = None).
Proof.
  split.
  - intros mad_cuda initial tgt Ta Tb Tc M K N LayoutA LayoutB A B C m Hne.
    unfold unified.joint_matrix_mad, is_same_v.
    rewrite bool_decide_eq_false_2 by exact Hne.
    destruct (__SYCL_DEVICE_ONLY__ tgt), (__NVPTX__ tgt), (NDEBUG tgt);
      cbv zeta; cbn [fst snd];
      (split; [reflexivity |]; split);
      intros; first [reflexivity | discriminate].
  - intros hw marray_default tgt tA tB tC Hne.
    destruct (tensorcore.call_joint_matrix_mad hw marray_default tgt tA tB tC)
      as [run|] eqn:Hcall; [| reflexivity].
    apply call_joint_matrix_mad_Some in Hcall as (_ & Hsame & _).
    congruence.
Qed.

Lemma mad_type_mismatch_witness :
  unified.joint_matrix_mad (fun _ _ _ _ _ _ _ _ _ _ _ => issue toy_hw
                              (call_mma __hmma_m16n16k16_mma_f32f32
                                 {| base := 3; pointee := float |}
                                 {| base := 1; pointee := int32_t |}
                                 {| base := 2; pointee := int32_t |}
                                 {| base := 3; pointee := float |} 0 0))
                           (fun _ _ _ => indeterminate)
                           nvptx_device_pass half bfloat16 float 16 16 16
                           unified.row_major unified.col_major
                           1%positive 2%positive 3%positive toy_machine
  = (AssertionFailed
       "Ta != Tb : In the CUDA backend joint_matrix_mad requires that joint_matrix data types Ta and Tb match",
     toy_machine).
Proof.
  destruct (proj1 mad_type_mismatch
              (fun _ _ _ _ _ _ _ _ _ _ _ => issue toy_hw
                 (call_mma __hmma_m16n16k16_mma_f32f32
                    {| base := 3; pointee := float |}
                    {| base := 1; pointee := int32_t |}
                    {| base := 2; pointee := int32_t |}
                    {| base := 3; pointee := float |} 0 0))
              (fun _ _ _ => indeterminate)
              nvptx_device_pass half bfloat16 float 16%N 16%N 16%N
              unified.row_major unified.col_major
              1%positive 2%positive 3%positive toy_machine
              ltac:(discriminate))
    as (Hsame & Hfails & _).
  apply injective_projections;
    [exact (Hfails eq_refl eq_refl eq_refl) | exact Hsame].
Defined.

(** C4 as the spec words it fails.  Compiled with [NDEBUG], the [assert] is
    nothing: a call on half and bfloat16 multiplicands raises no error of
    any kind, neither a failed assertion nor an exception, and gets to the
    end of the function. *)
Lemma mad_type_mismatch_not_reported_with_NDEBUG :
  ~ (forall (joint_matrix_mad_cuda :
               elem_type -> elem_type -> size_t -> size_t -> size_t ->
               unified.layout -> unified.layout -> loc -> loc -> loc -> loc ->
               exec unit)
            (default_initialized : elem_type -> size_t -> size_t -> contents)
            (tgt : target) (Ta Tb Tc : elem_type) (M K N : size_t)
            (LayoutA LayoutB : unified.layout) (A B C : loc) (m : machine),
        Ta <> Tb ->
        let r := unified.joint_matrix_mad joint_matrix_mad_cuda
                   default_initialized tgt Ta Tb Tc M K N LayoutA LayoutB
                   A B C m in
        (exists expr, fst r = AssertionFailed expr) \/
        (exists what code, fst r = Thrown what code)).
Proof.
  intros Hclaim.
  destruct (Hclaim (fun _ _ _ _ _ _ _ _ _ _ _ => ret tt)
                   (fun _ _ _ => indeterminate)
                   nvptx_device_pass_NDEBUG half bfloat16 float
                   16%N 16%N 16%N unified.row_major unified.col_major
                   1%positive 2%positive 3%positive toy_machine
                   ltac:(discriminate))
    as [(expr & Hfails) | (what & code & Hthrown)];
    [discriminate Hfails | discriminate Hthrown].
Qed.

(** ** The HIP peer-access adapter *)

(** C9: whatever the driver answers, each of the three entry points ends
    with a status code and never with an exception leaving it; the context
    that was active before the call is active after it; the driver is called
    at most once (exactly once, except for a query of an unknown property,
    which is refused before any call), with the command device's context
    active; and when the driver fails, the status is the code its error maps
    to. *)
Theorem peer_access_scoped_and_status
    (driver : hip.driver_state -> hip.driver_call -> hip.hipError_t * Z)
    (mapErrorUR : hip.hipError_t -> hip.ur_result_t)
    (ReturnValue : size_t -> bool -> bool -> Z -> hip.ur_result_t)
    (commandDevice peerDevice : hip.ur_device_handle_t)
    (st : hip.driver_state) :
  let scoped := {| hip.active_context :=
                     Some (hip.getNativeContext commandDevice);
                   hip.calls := hip.calls st |} in
  let status_of (c : hip.driver_call) (ok : Z -> hip.ur_result_t) :=
    match driver scoped c with
    | (hip.hipSuccess, value) => ok value
    | (err, _) => mapErrorUR err
    end in
  let once (c : hip.driver_call) (ok : Z -> hip.ur_result_t) :=
    (hip.Status (status_of c ok),
     {| hip.active_context := hip.active_context st;
        hip.calls := hip.calls st
                     ++ [(Some (hip.getNativeContext commandDevice), c)] |}) in
  hip.urUsmP2PEnablePeerAccessExp driver mapErrorUR commandDevice peerDevice st
  = once (hip.hipCtxEnablePeerAccess (hip.getNativeContext peerDevice) 0)
         (fun _ => hip.UR_RESULT_SUCCESS) /\
  hip.urUsmP2PDisablePeerAccessExp driver mapErrorUR commandDevice peerDevice st
  = once (hip.hipCtxDisablePeerAccess (hip.getNativeContext peerDevice))
         (fun _ => hip.UR_RESULT_SUCCESS) /\
  forall (propName : hip.ur_exp_peer_info_t) (propSize : size_t)
         (pPropValue pPropSizeRet : bool),
    hip.urUsmP2PPeerAccessGetInfoExp driver mapErrorUR ReturnValue
      commandDevice peerDevice propName propSize pPropValue pPropSizeRet st
    = match propName with
      | hip.UR_EXP_PEER_INFO_UR_PEER_ACCESS_SUPPORTED =>
          once (hip.hipDeviceGetP2PAttribute hip.hipDevP2PAttrAccessSupported
                  (hip.get commandDevice) (hip.get peerDevice))
               (ReturnValue propSize pPropValue pPropSizeRet)
      | hip.UR_EXP_PEER_INFO_UR_PEER_ATOMICS_SUPPORTED =>
          once (hip.hipDeviceGetP2PAttribute
                  hip.hipDevP2PAttrNativeAtomicSupported
                  (hip.get commandDevice) (hip.get peerDevice))
               (ReturnValue propSize pPropValue pPropSizeRet)
      | hip.ur_exp_peer_info_other _ =>
          (hip.Status hip.UR_RESULT_ERROR_INVALID_ENUMERATION,
           {| hip.active_context := hip.active_context st;
              hip.calls := hip.calls st |})
      end.
Proof.
  cbv zeta. split; [| split].
  - unfold hip.urUsmP2PEnablePeerAccessExp, hip.entry_point, hip.seq,
      hip.try_catch, hip.ScopedContext, hip.call_driver, hip.UR_CHECK_ERROR.
    cbn [hip.active_context hip.calls].
    destruct (driver _ _) as [[|code] value]; reflexivity.
  - unfold hip.urUsmP2PDisablePeerAccessExp, hip.entry_point, hip.seq,
      hip.try_catch, hip.ScopedContext, hip.call_driver, hip.UR_CHECK_ERROR.
    cbn [hip.active_context hip.calls].
    destruct (driver _ _) as [[|code] value]; reflexivity.
  - intros propName propSize pPropValue pPropSizeRet.
    unfold hip.urUsmP2PPeerAccessGetInfoExp, hip.entry_point, hip.seq,
      hip.try_catch, hip.ScopedContext, hip.call_driver, hip.UR_CHECK_ERROR.
    destruct propName; cbn [hip.active_context hip.calls];
      try (destruct (driver _ _) as [[|code] value]); reflexivity.
Qed.

(** The driver refuses: the status is the mapped error, the driver was called
    once with the command device's context (10) active, and the context that
    was active before (5) is active again. *)
Example enable_peer_access_refused :
  hip.urUsmP2PEnablePeerAccessExp toy_driver toy_mapErrorUR
    {| hip.getNativeContext := 10; hip.get := 0 |}
    {| hip.getNativeContext := 20; hip.get := 1 |}
    {| hip.active_context := Some 5; hip.calls := [] |}
  = (hip.Status (hip.UR_RESULT_ERROR 704),
     {| hip.active_context := Some 5;
        hip.calls := [(Some 10, hip.hipCtxEnablePeerAccess 20 0)] |}).
Proof. reflexivity. Qed.

(** A query of a property the adapter does not know is refused before the
    driver is called; the context is restored all the same. *)
Example peer_info_unknown_property :
  hip.urUsmP2PPeerAccessGetInfoExp toy_driver toy_mapErrorUR
    (fun _ _ _ _ => hip.UR_RESULT_SUCCESS)
    {| hip.getNativeContext := 10; hip.get := 0 |}
    {| hip.getNativeContext := 20; hip.get := 1 |}
    (hip.ur_exp_peer_info_other 7) 4%N true false
    {| hip.active_context := None; hip.calls := [] |}
  = (hip.Status hip.UR_RESULT_ERROR_INVALID_ENUMERATION,
     {| hip.active_context := None; hip.calls := [] |}).
Proof. reflexivity. Qed.

(** * Further properties *)

(** ** Rounding to tf32 on the host *)

(** On the host the value returned is the wrapped sum rounded down to a
    multiple of 2^13. *)
Lemma round_to_tf32_host_value (f2tf32 bitcast : Z -> Z) (tgt : target) (a : Z) :
  __SYCL_DEVICE_ONLY__ tgt && __NVPTX__ tgt = false ->
  fst (unified.round_to_tf32 f2tf32 bitcast tgt a)
  = 2 ^ 13 * (((a + 2 ^ 12) mod 2 ^ 32) / 2 ^ 13).
Proof.
  intros Hhost. unfold unified.round_to_tf32, unified.uint32.
  rewrite Hhost. cbv zeta. cbn [fst].
  change 0x1000 with (2 ^ 12).
  apply land_FFFFE000. apply Z.mod_pos_bound. lia.
Qed.

(** X6: on the host, rounding a pattern that was rounded changes nothing, and
    the patterns that rounding leaves as they are, are those whose low 13
    bits are zero. *)
Theorem round_to_tf32_idempotent (f2tf32 bitcast : Z -> Z) (tgt : target) (a : Z) :
  __SYCL_DEVICE_ONLY__ tgt && __NVPTX__ tgt = false ->
  let round := fun x => fst (unified.round_to_tf32 f2tf32 bitcast tgt x) in
  round (round a) = round a /\
  (0 <= a < 2 ^ 32 -> (round a = a <-> a mod 2 ^ 13 = 0)).
Proof.
  intros Hhost round.
  assert (Hfix : forall x, 0 <= x < 2 ^ 32 -> x mod 2 ^ 13 = 0 -> round x = x).
  { intros x Hx Hlow. unfold round.
    rewrite round_to_tf32_host_value by exact Hhost.
    pose proof (Z.div_mod x (2 ^ 13) ltac:(lia)) as Hdm.
    rewrite Hlow, Z.add_0_r in Hdm.
    rewrite Z.mod_small by lia.
    replace (x + 2 ^ 12) with (2 ^ 12 + (x / 2 ^ 13) * 2 ^ 13) by lia.
    rewrite Z.div_add by lia. rewrite (Z.div_small (2 ^ 12)) by lia. lia. }
  assert (Hval : forall x, 0 <= round x < 2 ^ 32 /\ round x mod 2 ^ 13 = 0).
  { intros x. unfold round.
    rewrite round_to_tf32_host_value by exact Hhost.
    pose proof (Z.mod_pos_bound (x + 2 ^ 12) (2 ^ 32) ltac:(lia)) as Hb.
    set (y := (x + 2 ^ 12) mod 2 ^ 32) in *.
    pose proof (Z.div_mod y (2 ^ 13) ltac:(lia)) as Hdm.
    pose proof (Z.mod_pos_bound y (2 ^ 13) ltac:(lia)) as Hm.
    assert (0 <= y / 2 ^ 13) by (apply Z.div_pos; lia).
    split; [lia |]. rewrite Z.mul_comm. apply Z.mod_mul. lia. }
  split.
  - apply Hfix; apply Hval.
  - intros Ha. split.
    + intros <-. apply Hval.
    + apply Hfix. exact Ha.
Qed.

Lemma round_to_tf32_idempotent_witness :
  fst (unified.round_to_tf32 Z.succ Z.succ host_pass
         (fst (unified.round_to_tf32 Z.succ Z.succ host_pass 0x3F801234)))
  = fst (unified.round_to_tf32 Z.succ Z.succ host_pass 0x3F801234).
Proof.
  exact (proj1 (round_to_tf32_idempotent Z.succ Z.succ host_pass 0x3F801234
                  eq_refl)).
Defined.

(** X7: on the host, rounding keeps the order of the bit patterns, as long
    as adding 0x1000 to the greater one does not wrap around 32 bits. *)
Theorem round_to_tf32_monotone (f2tf32 bitcast : Z -> Z) (tgt : target) (a b : Z) :
  __SYCL_DEVICE_ONLY__ tgt && __NVPTX__ tgt = false ->
  0 <= a -> a <= b -> b + 0x1000 < 2 ^ 32 ->
  fst (unified.round_to_tf32 f2tf32 bitcast tgt a)
  <= fst (unified.round_to_tf32 f2tf32 bitcast tgt b).
Proof.
  intros Hhost Ha Hab Hb.
  rewrite !round_to_tf32_host_value by exact Hhost.
  rewrite !Z.mod_small by lia.
  apply Z.mul_le_mono_nonneg_l; [lia |].
  apply Z.div_le_mono; lia.
Qed.

Lemma round_to_tf32_monotone_witness :
  fst (unified.round_to_tf32 Z.succ Z.succ host_pass 0x3F800FFF)
  <= fst (unified.round_to_tf32 Z.succ Z.succ host_pass 0x3F801000).
Proof.
  apply (round_to_tf32_monotone Z.succ Z.succ host_pass 0x3F800FFF 0x3F801000).
  - reflexivity.
  - lia.
  - lia.
  - lia.
Defined.

(** X8: on the host, each of the 0x1000 greatest bit patterns, from
    0xFFFFF000 on, is rounded to the pattern 0: the addition wraps around
    32 bits. *)
Theorem round_to_tf32_wraps_to_zero (f2tf32 bitcast : Z -> Z) (tgt : target) (a : Z) :
  __SYCL_DEVICE_ONLY__ tgt && __NVPTX__ tgt = false ->
  2 ^ 32 - 0x1000 <= a < 2 ^ 32 ->
  fst (unified.round_to_tf32 f2tf32 bitcast tgt a) = 0.
Proof.
  intros Hhost Ha.
  rewrite round_to_tf32_host_value by exact Hhost.
  replace ((a + 2 ^ 12) mod 2 ^ 32) with (a + 2 ^ 12 - 2 ^ 32).
  - rewrite Z.div_small by lia. reflexivity.
  - symmetry. rewrite <- (Z.mod_add _ (-1)) by lia.
    replace (a + 2 ^ 12 + -1 * 2 ^ 32) with (a + 2 ^ 12 - 2 ^ 32) by lia.
    apply Z.mod_small. lia.
Qed.

Lemma round_to_tf32_wraps_to_zero_witness :
  fst (unified.round_to_tf32 Z.succ Z.succ host_pass 0xFFFFF000) = 0.
Proof.
  apply (round_to_tf32_wraps_to_zero Z.succ Z.succ host_pass 0xFFFFF000).
  - reflexivity.
  - lia.
Defined.

(** ** The table of fragment types *)

Lemma table_specialization_keys_NoDup : NoDup (List.map specialization_key joint_matrix_specializations).
Proof. apply (bool_decide_unpack _). vm_compute. exact I. Qed.

Lemma matches_key T Use Rows Cols s :
  matches T Use Rows Cols s = true <-> specialization_key s = (T, Use, Rows, Cols).
Proof.
  unfold matches, specialization_key. rewrite !andb_true_iff, !bool_decide_eq_true, !N.eqb_eq.
  split; [intros [[[-> ->] ->] ->]; reflexivity | intros [= -> -> -> ->]; auto].
Qed.

Lemma find_unique {A B : Type} `{EqDecision B} (k : A -> B) (l : list A) (x : A) :
  NoDup (List.map k l) -> In x l ->
  List.find (fun y => bool_decide (k y = k x)) l = Some x.
Proof.
  induction l as [|y l IH]; intros Hnd Hin; [destruct Hin |].
  simpl in *. apply NoDup_cons in Hnd as [Hy Hnd].
  destruct Hin as [-> | Hin].
  - rewrite bool_decide_eq_true_2 by reflexivity. reflexivity.
  - rewrite bool_decide_eq_false_2; [apply IH; assumption |].
    intros Heq. apply Hy. rewrite Heq. apply list_elem_of_In, in_map, Hin.
Qed.

Lemma find_same {A : Type} (f g : A -> bool) (l : list A) :
  (forall y, f y = g y) -> List.find f l = List.find g l.
Proof.
  intros Hfg. induction l as [|y l IH]; [reflexivity |].
  simpl. rewrite Hfg, IH. reflexivity.
Qed.

(** X1: [joint_matrix<T, Use, Rows, Cols, Layout>] is a complete type exactly
    when the layout is row- or column-major and the table has an entry for
    (T, Use, Rows, Cols), and it is then that entry: no two entries of the
    table are declared for the same arguments, so that each entry is the
    type found for its own. *)
Theorem joint_matrix_lookup (T : elem_type) (Use : matrix_use.t)
    (Rows Cols : N) (Layout : matrix_layout) (s : specialization) :
  joint_matrix T Use Rows Cols Layout = Some s <->
  (Layout = row_major \/ Layout = col_major) /\
  In s joint_matrix_specializations /\
  sp_type s = T /\ sp_use s = Use /\ sp_M s = Rows /\ sp_N s = Cols.
Proof.
  split.
  - intros Hs. apply joint_matrix_Some in Hs as (Hin & HT & HU & HR & HC & Hrc).
    split; [| auto].
    destruct Layout; auto; discriminate Hrc.
  - intros (Hrc & Hin & <- & <- & <- & <-).
    unfold joint_matrix.
    replace (row_or_col_major Layout) with true
      by (destruct Hrc as [-> | ->]; reflexivity).
    rewrite <- (find_unique specialization_key _ s table_specialization_keys_NoDup Hin).
    apply find_same. intros y.
    apply eq_true_iff_eq. rewrite matches_key, bool_decide_eq_true. reflexivity.
Qed.

(** ** The builtin a load, a store and a multiply-accumulate call *)

(** X2: the builtin of a load.  On the NVPTX device pass, for every fragment
    type of the table [joint_matrix_load] issues one instruction, which is a
    load builtin for the use of the fragment and for a tile in which a
    fragment of that use has NumRows x NumCols elements; the fragment is its
    destination and the memory passed its source, the stride is the one
    passed as the [unsigned int] parameter of the builtin receives it (the
    stride itself when it is below 2^32, its value modulo 2^32 otherwise)
    and the layout argument the identifier of the layout. *)
Theorem load_selects_by_use
    (hw : call -> gmap positive contents -> gmap positive contents)
    (tgt : target) (T : elem_type) (Use : matrix_use.t) (NumRows NumCols : N)
    (Layout : matrix_layout) (spec : specialization) :
  __SYCL_DEVICE_ONLY__ tgt && __NVPTX__ tgt = true ->
  joint_matrix T Use NumRows NumCols Layout = Some spec ->
  exists run f layout_id (to from : elem_type),
    tensorcore.joint_matrix_load hw tgt T Use NumRows NumCols Layout = Some run /\
    (forall (res src : positive) (stride : N) (m : machine),
        run res src stride m =
        (Returned tt,
         snd (issue hw (call_ld_st f {| base := res; pointee := to |}
                                     {| base := src; pointee := from |}
                                     (unsigned_int stride) layout_id) m))) /\
    (forall stride : N, (stride < 2 ^ 32)%N -> unsigned_int stride = stride) /\
    kind_of f = loads Use /\
    fragment_shape Use (tile_of f) = (NumRows, NumCols) /\
    get_layout_id Layout = Some layout_id.
Proof.
  intros Hdev Hspec.
  unfold tensorcore.joint_matrix_load, tensorcore.load.
  rewrite Hdev, Hspec.
  apply joint_matrix_Some in Hspec as (Hin & <- & <- & <- & <- & Hrc).
  rewrite Hrc.
  destruct Layout; try discriminate Hrc;
    each_specialization Hin; simpl;
    (eexists _, _, _, _, _; split; [reflexivity |];
     split; [intros res src stride m; reflexivity |];
     split; [exact unsigned_int_small |];
     split; [reflexivity |]; split; reflexivity).
Qed.

Lemma load_selects_by_use_witness :
  exists run f layout_id (to from : elem_type),
    tensorcore.joint_matrix_load toy_hw nvptx_device_pass double matrix_use.b
                                 4 8 col_major = Some run /\
    (forall (res src : positive) (stride : N) (m : machine),
        run res src stride m =
        (Returned tt,
         snd (issue toy_hw (call_ld_st f {| base := res; pointee := to |}
                                         {| base := src; pointee := from |}
                                         (unsigned_int stride) layout_id) m))) /\
    (forall stride : N, (stride < 2 ^ 32)%N -> unsigned_int stride = stride) /\
    kind_of f = loads matrix_use.b /\
    fragment_shape matrix_use.b (tile_of f) = (4, 8)%N /\
    get_layout_id col_major = Some layout_id.
Proof.
  eapply (load_selects_by_use toy_hw nvptx_device_pass double matrix_use.b
            4 8 col_major).
  - reflexivity.
  - reflexivity.
Defined.

(** X3: a store is the mirror image of a load.  On the NVPTX device pass, for
    every accumulator type of the table [joint_matrix_store] issues one
    store builtin and [joint_matrix_load] one load builtin for accumulators,
    both of the same tile, with the same pointers in the two roles
    exchanged, the same stride (converted alike to the builtin's
    [unsigned int]) and the same layout identifier. *)
Theorem store_mirrors_load
    (hw : call -> gmap positive contents -> gmap positive contents)
    (tgt : target) (T : elem_type) (NumRows NumCols : N)
    (Layout : matrix_layout) (spec : specialization) :
  __SYCL_DEVICE_ONLY__ tgt && __NVPTX__ tgt = true ->
  joint_matrix T matrix_use.accumulator NumRows NumCols Layout = Some spec ->
  exists storer loader f g layout_id (fragment memory : elem_type),
    tensorcore.joint_matrix_store hw tgt T NumRows NumCols Layout = Some storer /\
    tensorcore.joint_matrix_load hw tgt T matrix_use.accumulator
                                 NumRows NumCols Layout = Some loader /\
    (forall (frag mem : positive) (stride : N) (m : machine),
        storer frag mem stride m =
        (Returned tt,
         snd (issue hw (call_ld_st f {| base := mem; pointee := memory |}
                                     {| base := frag; pointee := fragment |}
                                     (unsigned_int stride) layout_id) m)) /\
        loader frag mem stride m =
        (Returned tt,
         snd (issue hw (call_ld_st g {| base := frag; pointee := fragment |}
                                     {| base := mem; pointee := memory |}
                                     (unsigned_int stride) layout_id) m))) /\
    kind_of f = stores /\
    kind_of g = loads matrix_use.accumulator /\
    tile_of f = tile_of g /\
    fragment_shape matrix_use.accumulator (tile_of f) = (NumRows, NumCols) /\
    get_layout_id Layout = Some layout_id.
Proof.
  intros Hdev Hspec.
  unfold tensorcore.joint_matrix_store, tensorcore.store,
    tensorcore.joint_matrix_load, tensorcore.load.
  rewrite Hdev, Hspec.
  apply joint_matrix_Some in Hspec as (Hin & <- & Hacc & <- & <- & Hrc).
  rewrite Hrc.
  destruct Layout; try discriminate Hrc;
    each_specialization Hin; try discriminate Hacc; simpl;
    (eexists _, _, _, _, _, _, _; split; [reflexivity |];
     split; [reflexivity |];
     split; [intros frag mem stride m; split; reflexivity |];
     repeat (split; [reflexivity |]); reflexivity).
Qed.

Lemma store_mirrors_load_witness :
  exists storer loader f g layout_id (fragment memory : elem_type),
    tensorcore.joint_matrix_store toy_hw nvptx_device_pass half 32 8 row_major
    = Some storer /\
    tensorcore.joint_matrix_load toy_hw nvptx_device_pass half
                                 matrix_use.accumulator 32 8 row_major
    = Some loader /\
    (forall (frag mem : positive) (stride : N) (m : machine),
        storer frag mem stride m =
        (Returned tt,
         snd (issue toy_hw (call_ld_st f {| base := mem; pointee := memory |}
                                         {| base := frag; pointee := fragment |}
                                         (unsigned_int stride) layout_id) m)) /\
        loader frag mem stride m =
        (Returned tt,
         snd (issue toy_hw (call_ld_st g {| base := frag; pointee := fragment |}
                                         {| base := mem; pointee := memory |}
                                         (unsigned_int stride) layout_id) m))) /\
    kind_of f = stores /\
    kind_of g = loads matrix_use.accumulator /\
    tile_of f = tile_of g /\
    fragment_shape matrix_use.accumulator (tile_of f) = (32, 8)%N /\
    get_layout_id row_major = Some layout_id.
Proof.
  eapply (store_mirrors_load toy_hw nvptx_device_pass half 32 8 row_major).
  - reflexivity.
  - reflexivity.
Defined.


(** X4: the instruction of a multiply-accumulate.  On the NVPTX device pass a
    [joint_matrix_mad] that exists returns a new accumulator [D], having
    issued nothing or one instruction.  The instruction is a multiply builtin
    of the tile (M, N, K) of the call; its layout argument is the identifier
    of the pair (LayoutA, LayoutB), its last argument (satf) is 0; it writes
    to [D] and reads three objects made for the call, so that the four
    operands are distinct objects none of which the caller had. *)
Theorem mad_instruction_is_for_the_call
    (hw : call -> gmap loc contents -> gmap loc contents)
    (marray_default : elem_type -> size_t -> contents)
    (tgt : target) (T1 T2 : elem_type) (M K N : N)
    (LayoutA LayoutB LayoutC : matrix_layout)
    (run : positive -> positive -> positive -> api (joint_matrix_type * positive))
    (A B C : positive) (m : machine) :
  __SYCL_DEVICE_ONLY__ tgt && __NVPTX__ tgt = true ->
  tensorcore.joint_matrix_mad hw marray_default tgt T1 T2 M K N
                              LayoutA LayoutB LayoutC = Some run ->
  exists (ty : joint_matrix_type) (D : positive) (m' : machine),
    run A B C m = (Returned (ty, D), m') /\
    (issued m' = issued m \/
     exists f d a b c layout_pair_id,
       issued m' = issued m ++ [call_mma f d a b c layout_pair_id 0] /\
       kind_of f = multiplies /\
       tile_of f = (M, N, K) /\
       get_layout_pair_id LayoutA LayoutB = Some layout_pair_id /\
       base d = D /\
       NoDup [base d; base a; base b; base c] /\
       (forall l, l ∈ [base d; base a; base b; base c] -> l ∉ dom (heap m))).
Proof.
  intros Hdev Hrun.
  destruct (joint_matrix_mad_chooses hw marray_default _ _ _ _ _ _ _ _ _ _
              A B C m Hdev Hrun)
    as (choice & layout_pair_id & initial & ty & -> & Hid & Hchoice & _ & _).
  eexists ty, _, _. split; [reflexivity |].
  destruct choice as [[[[[f tD] tA] tB] tC]|].
  - right.
    destruct (joint_matrix_mad_steps_call hw f tD tA tB tC layout_pair_id
                initial A B C m) as (a & b & c & Hissued & Hnodup & Hfresh).
    destruct (Hchoice f tD tA tB tC eq_refl) as [Hkind Htile].
    eexists f, _, _, _, _, layout_pair_id.
    split; [exact Hissued |]. repeat (split; [assumption || reflexivity |]).
    assumption.
  - left.
    destruct (joint_matrix_mad_steps_run hw None layout_pair_id initial A B C m)
      as (_ & Hnone & _).
    apply Hnone. reflexivity.
Qed.

(** X5: the combinations the multiply builtins are written for.  Multiplicands
    of type int8_t or uint8_t with an int32_t accumulator, half with float or
    half, uint16_t or bfloat16 with float, each for the tiles m16n16k16,
    m8n32k16 and m32n8k16, and double with double for m8n8k4: for each of
    them and all row- or column-major layouts [joint_matrix_mad] exists on
    the NVPTX device pass and issues exactly one instruction, a multiply
    builtin of that tile. *)
Theorem multiply_combination_is_multiplied
    (hw : call -> gmap loc contents -> gmap loc contents)
    (marray_default : elem_type -> size_t -> contents)
    (tgt : target) (T1 T2 : elem_type) (M K N : N)
    (LayoutA LayoutB LayoutC : matrix_layout)
    (A B C : positive) (m : machine) :
  __SYCL_DEVICE_ONLY__ tgt && __NVPTX__ tgt = true ->
  multiply_combination T1 T2 M N K ->
  row_or_col_major LayoutA && row_or_col_major LayoutB
    && row_or_col_major LayoutC = true ->
  exists run ty D m' f d a b c layout_pair_id,
    tensorcore.joint_matrix_mad hw marray_default tgt T1 T2 M K N
                                LayoutA LayoutB LayoutC = Some run /\
    run A B C m = (Returned (ty, D), m') /\
    issued m' = issued m ++ [call_mma f d a b c layout_pair_id 0] /\
    kind_of f = multiplies /\
    tile_of f = (M, N, K).
Proof.
  intros Hdev Hcombination Hlayouts.
  destruct (joint_matrix_mad_exists hw marray_default tgt T1 T2 M K N
              LayoutA LayoutB LayoutC Hdev (or_introl Hcombination) Hlayouts)
    as [run Hrun].
  destruct (joint_matrix_mad_chooses hw marray_default _ _ _ _ _ _ _ _ _ _
              A B C m Hdev Hrun)
    as (choice & layout_pair_id & initial & ty & Hresult & _ & Hchoice & Hsome
        & _).
  destruct choice as [[[[[f tD] tA] tB] tC]|];
    [| exfalso; apply (Hsome Hcombination); reflexivity].
  destruct (joint_matrix_mad_steps_call hw f tD tA tB tC layout_pair_id
              initial A B C m) as (a & b & c & Hissued & _).
  destruct (Hchoice f tD tA tB tC eq_refl) as [Hkind Htile].
  exists run. eexists ty, _, _, f, _, _, _, _, layout_pair_id.
  split; [exact Hrun |]. split; [exact Hresult |].
  split; [exact Hissued |]. split; assumption.
Qed.

Lemma mad_instruction_is_for_the_call_witness :
  exists run ty D m',
    tensorcore.joint_matrix_mad toy_hw toy_marray_default nvptx_device_pass
      half float 16 16 16 row_major col_major row_major = Some run /\
    run 1%positive 2%positive 3%positive toy_machine = (Returned (ty, D), m') /\
    (issued m' = issued toy_machine \/
     exists f d a b c layout_pair_id,
       issued m' = issued toy_machine
                   ++ [call_mma f d a b c layout_pair_id 0] /\
       kind_of f = multiplies /\
       tile_of f = (16, 16, 16)%N /\
       get_layout_pair_id row_major col_major = Some layout_pair_id /\
       base d = D /\
       NoDup [base d; base a; base b; base c] /\
       (forall l, l ∈ [base d; base a; base b; base c] ->
                  l ∉ dom (heap toy_machine))).
Proof.
  match goal with
  | |- exists run ty D m', ?call = Some run /\ _ =>
      assert (exists run, call = Some run) as [run Hrun]
        by (eexists; reflexivity)
  end.
  destruct (mad_instruction_is_for_the_call toy_hw toy_marray_default
              nvptx_device_pass _ _ _ _ _ _ _ _ run
              1%positive 2%positive 3%positive toy_machine eq_refl Hrun)
    as (ty & D & m' & Hret & Hcall).
  exists run, ty, D, m'. split; [exact Hrun |]. split; [exact Hret |].
  exact Hcall.
Defined.

Lemma multiply_combination_is_multiplied_witness :
  exists run ty D m' f d a b c layout_pair_id,
    tensorcore.joint_matrix_mad toy_hw toy_marray_default nvptx_device_pass
      bfloat16 float 32 16 8 col_major row_major col_major = Some run /\
    run 1%positive 2%positive 3%positive toy_machine = (Returned (ty, D), m') /\
    issued m' = issued toy_machine ++ [call_mma f d a b c layout_pair_id 0] /\
    kind_of f = multiplies /\
    tile_of f = (32, 8, 16)%N.
Proof.
  apply (multiply_combination_is_multiplied toy_hw toy_marray_default
           nvptx_device_pass bfloat16 float 32 16 8
           col_major row_major col_major
           1%positive 2%positive 3%positive toy_machine).
  - reflexivity.
  - left. split.
    + unfold multiply_types. cbn [In]. do 5 right. left. reflexivity.
    + unfold multiply_tiles. cbn [In]. do 2 right. left. reflexivity.
  - reflexivity.
Defined.


(** ** Reductions over a sub-group *)

Section butterfly.
Import group_algorithm.
Context {T : Type}.
Variable stray : Z -> Z -> T.
Variable op : T -> T -> T.
Hypothesis op_assoc : forall a b c, op a (op b c) = op (op a b) c.

Lemma fold_left_op (l : list T) (a b : T) :
  op a (fold_left op l b) = fold_left op l (op a b).
Proof.
  revert b. induction l as [|c l IH]; intros b; simpl; [reflexivity |].
  rewrite IH, op_assoc. reflexivity.
Qed.

Lemma in_order_split (x : lanes T) (lo mid hi : Z) :
  lo < mid < hi ->
  op (in_order op x lo mid) (in_order op x mid hi) = in_order op x lo hi.
Proof.
  intros H. unfold in_order.
  rewrite fold_left_op.
  replace (hi - lo - 1) with ((mid - lo - 1) + (1 + (hi - mid - 1))) by lia.
  rewrite seqZ_app by lia. rewrite fmap_app, fold_left_app.
  replace (lo + 1 + (mid - lo - 1)) with mid by lia.
  rewrite seqZ_app by lia. rewrite fmap_app, fold_left_app.
  change (seqZ mid 1) with [mid]. simpl. reflexivity.
Qed.

Lemma lxor_pow2 (l j : Z) :
  0 <= l -> 0 <= j -> l mod 2 ^ (j + 1) = 0 -> Z.lxor l (2 ^ j) = l + 2 ^ j.
Proof.
  intros Hl Hj Hmod. symmetry. apply Z.add_nocarry_lxor.
  apply Z.bits_inj'. intros i Hi. rewrite Z.land_spec, Z.bits_0.
  destruct (decide (i = j)) as [->|Hne].
  - apply Z.mod_divide in Hmod; [| apply Z.pow_nonzero; lia].
    destruct Hmod as [q ->]. rewrite Z.mul_pow2_bits_low by lia. reflexivity.
  - rewrite Z.pow2_bits_eqb by lia.
    destruct (Z.eqb_spec j i); [lia |]. apply andb_false_r.
Qed.

Lemma reduce_for_invariant (g : sub_group) (x : lanes T) :
  1 <= get_local_range g <= get_max_local_range g ->
  get_max_local_range g <= 2 ^ 30 ->
  forall (fuel : nat) (j : Z) (result : lanes T),
    0 <= j -> 30 <= Z.of_nat fuel + j ->
    (forall l, 0 <= l < get_local_range g -> l mod 2 ^ j = 0 ->
               result l = in_order op x l (Z.min (l + 2 ^ j) (get_local_range g))) ->
    exists r, reduce_for stray op fuel g (2 ^ j) result = Some r /\
              r 0 = in_order op x 0 (get_local_range g).
Proof.
  intros Hrange Hmax.
  induction fuel as [|fuel IH]; intros j result Hj Hfuel Hinv.
  - simpl. assert (j >= 30) by lia.
    assert (2 ^ 30 <= 2 ^ j) by (apply Z.pow_le_mono_r; lia).
    destruct (Z.ltb_spec (2 ^ j) (get_max_local_range g)); [lia |].
    eexists. split; [reflexivity |].
    rewrite (Hinv 0) by (try apply Z.mod_0_l; try lia; apply Z.pow_nonzero; lia).
    f_equal. lia.
  - simpl. assert (0 < 2 ^ j) by (apply Z.pow_pos_nonneg; lia).
    destruct (Z.ltb_spec (2 ^ j) (get_max_local_range g)) as [Hlt|Hge].
    + assert (Hpow : 2 ^ (j + 1) = 2 * 2 ^ j)
        by (rewrite Z.pow_add_r by lia; lia).
      replace (2 ^ j * 2) with (2 ^ (j + 1)) by lia.
      apply IH; [lia | lia |].
      intros l Hl Hmod.
      assert (Hmodj : l mod 2 ^ j = 0).
      { apply Z.mod_divide in Hmod; [| apply Z.pow_nonzero; lia].
        destruct Hmod as [q ->]. rewrite Hpow.
        replace (q * (2 * 2 ^ j)) with (q * 2 * 2 ^ j) by lia.
        apply Z.mod_mul. lia. }
      rewrite lxor_pow2 by (assumption || lia).
      destruct (Z.ltb_spec (l + 2 ^ j) (get_local_range g)) as [Hin|Hout].
      * unfold shuffle_xor. rewrite lxor_pow2 by (assumption || lia).
        rewrite bool_decide_eq_true_2 by lia.
        rewrite (Hinv l) by assumption.
        rewrite (Hinv (l + 2 ^ j)).
        -- rewrite Z.min_l by lia.
           replace (l + 2 ^ j + 2 ^ j) with (l + 2 ^ (j + 1)) by lia.
           apply in_order_split. lia.
        -- lia.
        -- rewrite <- Z.add_mod_idemp_l by lia. rewrite Hmodj.
           rewrite Z.add_0_l. apply Z.mod_same. lia.
      * rewrite (Hinv l) by assumption. f_equal. lia.
    + eexists. split; [reflexivity |].
      rewrite (Hinv 0) by (try apply Z.mod_0_l; lia).
      f_equal. lia.
Qed.

End butterfly.

(** X9: [reduce(g, x, op)] for a sub-group and an operation that is not
    native.  When [op] is associative (it need not commute), in a sub-group
    of at least one work-item and at most 2^30 the loop ends (30 iterations
    are enough) and every work-item gets the same value: the values of [x] in
    work-items 0, 1, ..., [get_local_range - 1] combined in that order.
    What the shuffles yield for work-items that do not exist has no part in
    it. *)
Theorem reduce_combines_in_order
    {T : Type} (stray : Z -> Z -> T) (op : T -> T -> T)
    (g : group_algorithm.sub_group) (x : group_algorithm.lanes T)
    (fuel : nat) :
  (forall a b c, op a (op b c) = op (op a b) c) ->
  1 <= group_algorithm.get_local_range g
    <= group_algorithm.get_max_local_range g ->
  group_algorithm.get_max_local_range g <= 2 ^ 30 ->
  (30 <= fuel)%nat ->
  exists r,
    group_algorithm.reduce stray op fuel g x = Some r /\
    forall id,
      r id = fold_left op
               (x <$> seqZ 1 (group_algorithm.get_local_range g - 1)) (x 0).
Proof.
  intros Hassoc Hrange Hmax Hfuel. unfold group_algorithm.reduce.
  destruct (reduce_for_invariant stray op Hassoc g x Hrange Hmax fuel 0 x)
    as (r & Hloop & Hr);
    [lia | lia | | change (2 ^ 0) with 1 in Hloop; rewrite Hloop].
  - intros l Hl _. change (2 ^ 0) with 1. rewrite Z.min_l by lia.
    unfold in_order. replace (l + 1 - l - 1) with 0 by lia. reflexivity.
  - eexists. split; [reflexivity |]. intros id. unfold group_algorithm.shuffle.
    rewrite bool_decide_eq_true_2 by lia. rewrite Hr. unfold in_order.
    rewrite Z.add_0_l, Z.sub_0_r. reflexivity.
Qed.

(** X10: [reduce(g, x, init, op)] for a sub-group and an operation that is
    not native.  Under the same conditions every work-item gets
    [op(init, r)], where [r] is the converted values of [x] in work-items 0,
    1, ..., [get_local_range - 1] combined in that order and [init] is the
    one passed by work-item 0: what the other work-items pass as [init] is
    not used. *)
Theorem reduce_init_uses_the_init_of_the_first
    {V T : Type} (stray : Z -> Z -> T) (op : T -> T -> T) (convert : V -> T)
    (g : group_algorithm.sub_group)
    (x : group_algorithm.lanes V) (init : group_algorithm.lanes T)
    (fuel : nat) :
  (forall a b c, op a (op b c) = op (op a b) c) ->
  1 <= group_algorithm.get_local_range g
    <= group_algorithm.get_max_local_range g ->
  group_algorithm.get_max_local_range g <= 2 ^ 30 ->
  (30 <= fuel)%nat ->
  exists r,
    group_algorithm.reduce_init stray op convert fuel g x init = Some r /\
    forall id,
      r id = op (init 0)
                (fold_left op
                   ((fun i => convert (x i))
                      <$> seqZ 1 (group_algorithm.get_local_range g - 1))
                   (convert (x 0))).
Proof.
  intros Hassoc Hrange Hmax Hfuel. unfold group_algorithm.reduce_init.
  destruct (reduce_for_invariant stray op Hassoc g (fun i => convert (x i))
              Hrange Hmax fuel 0 (fun i => convert (x i)))
    as (r & Hloop & Hr);
    [lia | lia | | change (2 ^ 0) with 1 in Hloop; rewrite Hloop].
  - intros l Hl _. change (2 ^ 0) with 1. rewrite Z.min_l by lia.
    unfold in_order. replace (l + 1 - l - 1) with 0 by lia. reflexivity.
  - eexists. split; [reflexivity |]. intros id. unfold group_algorithm.shuffle.
    rewrite bool_decide_eq_true_2 by lia. rewrite Hr. unfold in_order.
    rewrite Z.add_0_l, Z.sub_0_r. reflexivity.
Qed.

(** ** joint_reduce over the work-items of a mask *)

Lemma filter_in_ext {A : Type} (P Q : A -> Prop)
    `{!forall x, Decision (P x)} `{!forall x, Decision (Q x)} (l : list A) :
  (forall x, x ∈ l -> P x <-> Q x) -> filter P l = filter Q l.
Proof.
  induction l as [|a l IH]; intros Hext; [reflexivity |].
  rewrite !filter_cons.
  rewrite IH by (intros x Hx; apply Hext; right; exact Hx).
  destruct (decide (P a)) as [HP|HP], (decide (Q a)) as [HQ|HQ];
    try reflexivity; exfalso; apply (Hext a (list_elem_of_here a l)) in HP
    || apply (Hext a (list_elem_of_here a l)) in HQ; contradiction.
Qed.

Lemma filter_none {A : Type} (P : A -> Prop) `{!forall x, Decision (P x)}
    (l : list A) :
  (forall x, x ∈ l -> ~ P x) -> filter P l = [].
Proof.
  induction l as [|a l IH]; intros Hnone; [reflexivity |].
  rewrite filter_cons. destruct (decide (P a)) as [HP|HP].
  - exfalso. exact (Hnone a (list_elem_of_here a l) HP).
  - apply IH. intros x Hx. apply Hnone. right. exact Hx.
Qed.

(** In a list of increasing numbers, the element at index [k] of those that
    satisfy [P] has [k] such elements below it. *)
Lemma rank_in_filter (P : Z -> Prop) `{!forall x, Decision (P x)} (n : nat) :
  forall (a : Z) (k : nat) (l : Z),
    filter P (seqZ a (Z.of_nat n)) !! k = Some l ->
    length (filter (fun i => P i /\ i < l) (seqZ a (Z.of_nat n))) = k.
Proof.
  induction n as [|n IH]; intros a k l.
  - simpl. discriminate.
  - rewrite seqZ_cons by lia.
    replace (Z.pred (Z.of_nat (S n))) with (Z.of_nat n) by lia.
    rewrite !filter_cons. destruct (decide (P a)) as [HP|HP].
    + destruct k as [|k]; simpl.
      * intros [= <-]. rewrite decide_False by lia.
        rewrite filter_none; [reflexivity |].
        intros x Hx. apply elem_of_seqZ in Hx. lia.
      * intros Hk.
        assert (a < l).
        { apply list_elem_of_lookup_2, list_elem_of_filter in Hk as [_ Hk].
          apply elem_of_seqZ in Hk. lia. }
        rewrite decide_True by (split; assumption).
        simpl. f_equal. apply IH. exact Hk.
    + intros Hk. rewrite decide_False by (intros [? _]; contradiction).
      apply IH. exact Hk.
Qed.

Lemma mask_lane_bound (mask_bits l : Z) :
  0 <= mask_bits < 2 ^ 31 -> l ∈ group_algorithm.mask_lanes mask_bits ->
  0 <= l <= 30.
Proof.
  intros Hmask Hl. apply list_elem_of_filter in Hl as [Hbit Hl].
  apply elem_of_seqZ in Hl. split; [lia |].
  destruct (Z_le_gt_dec l 30) as [|Hhigh]; [assumption | exfalso].
  rewrite <- (Z.mod_small mask_bits (2 ^ 31)) in Hbit by lia.
  rewrite Z.mod_pow2_bits_high in Hbit by lia. discriminate.
Qed.

Lemma offset_counts_lanes_below (mask_bits id : Z) :
  0 <= id <= 30 ->
  group_algorithm.offset mask_bits id =
  Z.of_nat (length (filter (fun i => Z.testbit mask_bits i = true /\ i < id)
                           (seqZ 0 32))).
Proof.
  intros Hid. unfold group_algorithm.offset, group_algorithm.popcount,
    group_algorithm.uint32_of_int.
  rewrite Z.shiftl_1_l, Z.sub_1_r, <- Z.ones_equiv.
  assert (0 <= Z.ones id < 2 ^ 32).
  { rewrite Z.ones_equiv.
    assert (0 < 2 ^ id) by (apply Z.pow_pos_nonneg; lia).
    assert (2 ^ id <= 2 ^ 30) by (apply Z.pow_le_mono_r; lia).
    lia. }
  rewrite Z.mod_small by assumption.
  do 2 f_equal. apply filter_in_ext. intros i Hi. apply elem_of_seqZ in Hi.
  rewrite Z.land_spec, Z.testbit_ones_nonneg by lia.
  rewrite andb_true_iff, Z.ltb_lt. reflexivity.
Qed.

Lemma offsets_of_mask_lanes (mask_bits : Z) :
  0 <= mask_bits < 2 ^ 31 ->
  group_algorithm.offset mask_bits <$> group_algorithm.mask_lanes mask_bits
  = seqZ 0 (group_algorithm.stride mask_bits).
Proof.
  intros Hmask. apply list_eq. intros k. rewrite list_lookup_fmap.
  assert (Hstride : group_algorithm.stride mask_bits
                    = Z.of_nat (length (group_algorithm.mask_lanes mask_bits)))
    by reflexivity.
  destruct (group_algorithm.mask_lanes mask_bits !! k) as [l|] eqn:Hk; simpl.
  - assert (Hl := list_elem_of_lookup_2 _ _ _ Hk).
    apply mask_lane_bound in Hl; [| assumption].
    rewrite offset_counts_lanes_below by assumption.
    unfold group_algorithm.mask_lanes in Hk.
    pose proof (rank_in_filter (fun i => Z.testbit mask_bits i = true)
                  32 0 k l) as Hrank.
    change (Z.of_nat 32) with 32 in Hrank. rewrite Hrank by exact Hk.
    apply lookup_lt_Some in Hk.
    rewrite lookup_seqZ_lt; [f_equal; lia |].
    rewrite Hstride. unfold group_algorithm.mask_lanes. lia.
  - apply lookup_ge_None in Hk. symmetry. apply lookup_seqZ_ge. lia.
Qed.

(** X11: the offsets [joint_reduce] computes.  For a mask within work-items
    0 to 30, the work-items it names get, in the order of their ids, the
    offsets 0, 1, ..., [stride - 1]: each its rank in the mask, no two the
    same, all below the stride. *)
Theorem mask_offsets_are_ranks (mask_bits : Z) :
  0 <= mask_bits < 2 ^ 31 ->
  group_algorithm.offset mask_bits <$> group_algorithm.mask_lanes mask_bits
  = seqZ 0 (group_algorithm.stride mask_bits).
Proof. exact (offsets_of_mask_lanes mask_bits). Qed.

Section strided.
Import group_algorithm.
Context {T : Type}.
Variable binary_op : T -> T -> T.
Variable known_identity : T.
Variable deref : Z -> T.

Lemma joint_reduce_for_past_end (fuel : nat) (last stride p : Z) (partial : T) :
  last <= p ->
  joint_reduce_for binary_op deref fuel last stride p partial = Some partial.
Proof.
  intros Hp. destruct fuel; simpl;
    destruct (Z.ltb_spec p last); (lia || reflexivity).
Qed.

(** A loop with stride zero that starts does not end. *)
Lemma joint_reduce_for_stride_0 (fuel : nat) (last p : Z) (partial : T) :
  p < last ->
  joint_reduce_for binary_op deref fuel last 0 p partial = None.
Proof.
  intros Hp. revert partial. induction fuel as [|fuel IH]; intros partial;
    simpl; destruct (Z.ltb_spec p last); try lia; [reflexivity |].
  rewrite Z.add_0_r. apply IH.
Qed.

(** One more element in the range: the loop that gets to it takes it in, the
    others end as before. *)
Lemma joint_reduce_for_extend (last stride : Z) :
  0 < stride ->
  forall (fuel : nat) (p : Z) (partial : T),
    (Z.to_nat (last + 1 - p) <= fuel)%nat ->
    exists v,
      joint_reduce_for binary_op deref fuel last stride p partial = Some v /\
      joint_reduce_for binary_op deref fuel (last + 1) stride p partial
      = Some (if bool_decide (p <= last /\ (last - p) mod stride = 0)
              then binary_op v (deref last) else v).
Proof.
  intros Hstride. induction fuel as [|fuel IH]; intros p partial Hfuel.
  - assert (last + 1 <= p) by lia.
    rewrite !joint_reduce_for_past_end by lia.
    eexists. split; [reflexivity |].
    rewrite bool_decide_eq_false_2 by lia. reflexivity.
  - destruct (Z_lt_le_dec last p) as [Hpast|Hin].
    { rewrite !joint_reduce_for_past_end by lia.
      eexists. split; [reflexivity |].
      rewrite bool_decide_eq_false_2 by lia. reflexivity. }
    destruct (Z.eq_dec p last) as [->|Hne].
    { rewrite joint_reduce_for_past_end by lia.
      eexists. split; [reflexivity |].
      simpl. destruct (Z.ltb_spec last (last + 1)); [| lia].
      rewrite joint_reduce_for_past_end by lia.
      rewrite bool_decide_eq_true_2; [reflexivity |].
      split; [lia |]. rewrite Z.sub_diag. apply Z.mod_0_l. lia. }
    simpl.
    destruct (Z.ltb_spec p last); [| lia].
    destruct (Z.ltb_spec p (last + 1)); [| lia].
    destruct (IH (p + stride) (binary_op partial (deref p))) as (v & -> & ->);
      [lia |].
    exists v. split; [reflexivity |]. f_equal.
    assert (Hsame : (last - (p + stride)) mod stride = (last - p) mod stride).
    { replace (last - (p + stride)) with (last - p + (-1) * stride) by lia.
      apply Z.mod_add. lia. }
    rewrite Hsame.
    destruct (decide ((last - p) mod stride = 0)) as [Hmod|Hmod].
    + assert (p + stride <= last).
      { apply Z.mod_divide in Hmod; [| lia]. destruct Hmod as [q Hq].
        assert (0 < q) by nia. nia. }
      rewrite !bool_decide_eq_true_2 by (split; [lia | assumption]).
      reflexivity.
    + rewrite !bool_decide_eq_false_2 by (intros [_ ?]; contradiction).
      reflexivity.
Qed.

Hypothesis binary_op_assoc :
  forall a b c, binary_op a (binary_op b c) = binary_op (binary_op a b) c.
Hypothesis binary_op_comm : forall a b, binary_op a b = binary_op b a.
Hypothesis binary_op_identity : forall a, binary_op known_identity a = a.

Lemma foldr_identities (l : list Z) :
  foldr binary_op known_identity ((fun _ => known_identity) <$> l)
  = known_identity.
Proof.
  induction l as [|a l IH]; [reflexivity |].
  rewrite fmap_cons. cbn [foldr]. rewrite IH. apply binary_op_identity.
Qed.

(** Taking one more element into one of the values that are combined. *)
Lemma foldr_one_more (v : Z -> T) (d : T) (r0 : Z) (l : list Z) :
  NoDup l -> r0 ∈ l ->
  foldr binary_op known_identity
        ((fun r => if decide (r = r0) then binary_op (v r) d else v r) <$> l)
  = binary_op (foldr binary_op known_identity (v <$> l)) d.
Proof.
  induction l as [|a l IH]; intros Hnodup Hin; [inversion Hin |].
  apply NoDup_cons in Hnodup as [Hnotin Hnodup].
  rewrite !fmap_cons. cbn [foldr].
  destruct (decide (a = r0)) as [->|Hne].
  - replace ((fun r => if decide (r = r0) then binary_op (v r) d else v r) <$> l)
      with (v <$> l).
    + rewrite <- !binary_op_assoc. f_equal. apply binary_op_comm.
    + apply list_fmap_ext. intros i r Hr.
      destruct (decide (r = r0)) as [->|]; [| reflexivity].
      exfalso. apply Hnotin. exact (list_elem_of_lookup_2 _ _ _ Hr).
  - apply elem_of_cons in Hin as [Heq|Hin]; [congruence |].
    rewrite IH by assumption. apply binary_op_assoc.
Qed.

Lemma rank_of_index (stride r n : Z) :
  0 < stride -> 0 <= r < stride -> 0 <= n ->
  (r <= n /\ (n - r) mod stride = 0) <-> r = n mod stride.
Proof.
  intros Hstride Hr Hn. split.
  - intros [Hle Hmod]. apply Z.mod_divide in Hmod; [| lia].
    destruct Hmod as [q Hq]. replace n with (r + q * stride) by lia.
    rewrite Z.mod_add by lia. symmetry. apply Z.mod_small. lia.
  - intros ->. split.
    + apply Z.mod_le; lia.
    + rewrite Zminus_mod_idemp_r. rewrite Z.sub_diag. apply Z.mod_0_l. lia.
Qed.

(** The loops that start at [first], [first + 1], ..., [first + stride - 1]
    take in, between them, every element of the range once. *)
Lemma partials_combine (fuel : nat) (first stride : Z) :
  0 < stride ->
  forall n : nat,
    (n <= fuel)%nat ->
    exists v : Z -> T,
      (forall r, 0 <= r < stride ->
                 joint_reduce_for binary_op deref fuel (first + Z.of_nat n)
                   stride (first + r) known_identity = Some (v r)) /\
      foldr binary_op known_identity (v <$> seqZ 0 stride)
      = fold_left binary_op (deref <$> seqZ first (Z.of_nat n)) known_identity.
Proof.
  intros Hstride. induction n as [|n IH]; intros Hfuel.
  - exists (fun _ => known_identity). split.
    + intros r Hr. apply joint_reduce_for_past_end. lia.
    + rewrite foldr_identities. reflexivity.
  - destruct IH as (v & Hv & Hfold); [lia |].
    set (d := deref (first + Z.of_nat n)).
    exists (fun r => if decide (r = Z.of_nat n mod stride)
                     then binary_op (v r) d else v r).
    split.
    + intros r Hr.
      destruct (joint_reduce_for_extend (first + Z.of_nat n) stride Hstride
                  fuel (first + r) known_identity) as (v' & Hlast & Hnext);
        [lia |].
      rewrite Hv in Hlast by assumption. injection Hlast as <-.
      replace (first + Z.of_nat (S n)) with (first + Z.of_nat n + 1) by lia.
      rewrite Hnext. f_equal.
      replace (first + Z.of_nat n - (first + r)) with (Z.of_nat n - r) by lia.
      destruct (decide (r = Z.of_nat n mod stride)) as [Heq|Hne].
      * rewrite bool_decide_eq_true_2; [reflexivity |].
        apply (rank_of_index stride r (Z.of_nat n)) in Heq as [? ?];
          [split; [lia | assumption] | lia | lia | lia].
      * rewrite bool_decide_eq_false_2; [reflexivity |].
        intros [Hle Hmod]. apply Hne.
        apply (rank_of_index stride r (Z.of_nat n)); [lia | lia | lia |].
        split; [lia | assumption].
    + rewrite foldr_one_more.
      * rewrite Hfold. rewrite seqZ_S, fmap_app, fold_left_app. reflexivity.
      * apply NoDup_seqZ.
      * apply elem_of_seqZ.
        assert (0 <= Z.of_nat n mod stride < stride)
          by (apply Z.mod_pos_bound; lia).
        lia.
Qed.

End strided.

Lemma mask_lane_of_bit (mask_bits id : Z) :
  0 <= mask_bits < 2 ^ 31 -> 0 <= id -> Z.testbit mask_bits id = true ->
  id ∈ group_algorithm.mask_lanes mask_bits.
Proof.
  intros Hmask Hid Hbit. apply list_elem_of_filter. split; [assumption |].
  apply elem_of_seqZ. split; [lia |].
  destruct (Z_lt_le_dec id 31) as [|Hhigh]; [lia | exfalso].
  rewrite <- (Z.mod_small mask_bits (2 ^ 31)) in Hbit by lia.
  rewrite Z.mod_pow2_bits_high in Hbit by lia. discriminate.
Qed.

Section masked.
Import group_algorithm.

Lemma group_reduction_of_partials
    {T : Type} (binary_op : T -> T -> T) (known_identity : T)
    (deref : Z -> T)
    (reduce_over_group : Z -> group_algorithm.lanes (option T)
                         -> group_algorithm.lanes (option T))
    (fuel : nat) (mask_bits first last id : Z) :
  (forall a b c, binary_op a (binary_op b c) = binary_op (binary_op a b) c) ->
  (forall a b, binary_op a b = binary_op b a) ->
  (forall a, binary_op known_identity a = a) ->
  group_reduction_combines binary_op known_identity reduce_over_group
                           mask_bits ->
  0 <= mask_bits < 2 ^ 31 ->
  0 <= id -> Z.testbit mask_bits id = true ->
  first <= last ->
  (Z.to_nat (last - first) <= fuel)%nat ->
  reduce_over_group mask_bits
    (group_algorithm.joint_reduce_partial binary_op known_identity deref fuel
                                          mask_bits first last) id
  = Some (fold_left binary_op (deref <$> seqZ first (last - first))
                    known_identity).
Proof.
  intros Hassoc Hcomm Hidentity Hgroup Hmask Hid Hbit Hrange Hfuel.
  assert (Hin := mask_lane_of_bit mask_bits id Hmask Hid Hbit).
  assert (Hoffsets := offsets_of_mask_lanes mask_bits Hmask).
  assert (Hstride : 0 < stride mask_bits).
  { unfold stride, popcount. fold (mask_lanes mask_bits).
    destruct (mask_lanes mask_bits); [inversion Hin | simpl; lia]. }
  destruct (partials_combine binary_op known_identity deref Hassoc Hcomm
              Hidentity fuel first (stride mask_bits) Hstride
              (Z.to_nat (last - first)) Hfuel) as (v & Hv & Hfold).
  replace (first + Z.of_nat (Z.to_nat (last - first))) with last in Hv by lia.
  rewrite Z2Nat.id in Hfold by lia.
  rewrite (Hgroup _ (fun l => v (offset mask_bits l))).
  - rewrite (list_fmap_compose (offset mask_bits) v), Hoffsets, Hfold.
    reflexivity.
  - intros l Hl. unfold joint_reduce_partial. apply Hv.
    assert (Hrank : offset mask_bits l ∈ seqZ 0 (stride mask_bits)).
    { rewrite <- Hoffsets. apply list_elem_of_fmap. exists l.
      split; [reflexivity | exact Hl]. }
    apply elem_of_seqZ in Hrank. lia.
  - exact Hin.
Qed.

End masked.

(** X12: [joint_reduce(g, mask, first, last, binary_op)] on the device.  Let
    [binary_op] be associative and commutative with [known_identity] as its
    identity, and let the group reduction the function ends with return, in
    the work-items of the mask, their values combined.  Then for a mask
    within work-items 0 to 30, in a work-item of the mask, and a range with
    [first <= last], the loop ends (one iteration for each element is
    enough) and the call returns the elements of [first, last) combined.  An
    empty range gives [known_identity]. *)
Theorem joint_reduce_reduces_the_range
    {T : Type} (binary_op : T -> T -> T) (known_identity : T)
    (deref : Z -> T)
    (reduce_over_group : Z -> group_algorithm.lanes (option T)
                         -> group_algorithm.lanes (option T))
    (tgt : target) (fuel : nat) (mask_bits first last id : Z) :
  (forall a b c, binary_op a (binary_op b c) = binary_op (binary_op a b) c) ->
  (forall a b, binary_op a b = binary_op b a) ->
  (forall a, binary_op known_identity a = a) ->
  group_reduction_combines binary_op known_identity reduce_over_group
                           mask_bits ->
  __SYCL_DEVICE_ONLY__ tgt = true ->
  0 <= mask_bits < 2 ^ 31 ->
  0 <= id -> Z.testbit mask_bits id = true ->
  first <= last ->
  (Z.to_nat (last - first) <= fuel)%nat ->
  group_algorithm.joint_reduce binary_op known_identity deref
    reduce_over_group tgt fuel mask_bits first last id
  = Some (Returned (fold_left binary_op (deref <$> seqZ first (last - first))
                              known_identity)).
Proof.
  intros Hassoc Hcomm Hidentity Hgroup Hdev Hmask Hid Hbit Hrange Hfuel.
  unfold group_algorithm.joint_reduce. rewrite Hdev.
  rewrite group_reduction_of_partials by assumption. reflexivity.
Qed.

(** X13: [joint_reduce(g, mask, first, last, init, binary_op)] on the device.
    Under the same conditions the call returns, in a work-item of the mask,
    [binary_op] of the [init] that work-item passed and the elements of
    [first, last) combined. *)
Theorem joint_reduce_init_reduces_the_range
    {T : Type} (binary_op : T -> T -> T) (known_identity : T)
    (deref : Z -> T)
    (reduce_over_group : Z -> group_algorithm.lanes (option T)
                         -> group_algorithm.lanes (option T))
    (tgt : target) (fuel : nat) (mask_bits first last : Z)
    (init : group_algorithm.lanes T) (id : Z) :
  (forall a b c, binary_op a (binary_op b c) = binary_op (binary_op a b) c) ->
  (forall a b, binary_op a b = binary_op b a) ->
  (forall a, binary_op known_identity a = a) ->
  group_reduction_combines binary_op known_identity reduce_over_group
                           mask_bits ->
  __SYCL_DEVICE_ONLY__ tgt = true ->
  0 <= mask_bits < 2 ^ 31 ->
  0 <= id -> Z.testbit mask_bits id = true ->
  first <= last ->
  (Z.to_nat (last - first) <= fuel)%nat ->
  group_algorithm.joint_reduce_init binary_op known_identity deref
    reduce_over_group tgt fuel mask_bits first last init id
  = Some (Returned
            (binary_op (init id)
               (fold_left binary_op (deref <$> seqZ first (last - first))
                          known_identity))).
Proof.
  intros Hassoc Hcomm Hidentity Hgroup Hdev Hmask Hid Hbit Hrange Hfuel.
  unfold group_algorithm.joint_reduce_init,
    group_algorithm.reduce_over_group_init. rewrite Hdev.
  rewrite group_reduction_of_partials by assumption. reflexivity.
Qed.

(** X14: a mask that names no work-item.  Its stride is 0, and so is every
    offset: in whatever work-item it runs, the loop of [joint_reduce] over a
    range that is not empty reads [*first] again and again and does not
    end, whatever the number of iterations allowed. *)
Theorem joint_reduce_empty_mask_loops
    {T : Type} (binary_op : T -> T -> T) (known_identity : T)
    (deref : Z -> T) (mask_bits first last id : Z) :
  group_algorithm.stride mask_bits = 0 ->
  first < last ->
  forall fuel : nat,
    group_algorithm.joint_reduce_partial binary_op known_identity deref fuel
                                         mask_bits first last id = None.
Proof.
  intros Hstride Hrange fuel. unfold group_algorithm.joint_reduce_partial.
  assert (Hoffset : group_algorithm.offset mask_bits id = 0).
  { unfold group_algorithm.stride, group_algorithm.popcount in Hstride.
    unfold group_algorithm.offset, group_algorithm.popcount.
    rewrite filter_none; [reflexivity |].
    intros i Hi Hbit. rewrite Z.land_spec in Hbit.
    apply andb_prop in Hbit as [Hbit _].
    assert (Hi' : i ∈ filter (fun i => Z.testbit mask_bits i = true)
                             (seqZ 0 32))
      by (apply list_elem_of_filter; split; assumption).
    destruct (filter _ (seqZ 0 32)); [inversion Hi' | simpl in Hstride; lia]. }
  rewrite Hoffset, Hstride, Z.add_0_r.
  apply joint_reduce_for_stride_0. exact Hrange.
Qed.

Lemma toy_reduce_over_group_combines (mask_bits : Z) :
  group_reduction_combines Z.add 0 toy_reduce_over_group mask_bits.
Proof.
  intros x w Hx l _. unfold toy_reduce_over_group.
  induction (group_algorithm.mask_lanes mask_bits) as [|a lanes IH];
    [reflexivity |].
  rewrite fmap_cons. cbn [foldr].
  rewrite IH by (intros l' Hl'; apply Hx; right; exact Hl').
  rewrite (Hx a) by left. reflexivity.
Qed.

Lemma reduce_combines_in_order_witness :
  exists r,
    group_algorithm.reduce (fun _ _ => []) app 30 toy_sub_group
                           (fun id => [id]) = Some r /\
    forall id, r id = [0; 1; 2; 3; 4].
Proof.
  apply (reduce_combines_in_order (fun _ _ => []) app toy_sub_group
           (fun id => [id]) 30).
  - intros a b c. apply app_assoc.
  - simpl. lia.
  - simpl. lia.
  - lia.
Defined.

Lemma reduce_init_uses_the_init_of_the_first_witness :
  exists r,
    group_algorithm.reduce_init (fun _ _ => []) app (fun v : Z => [v]) 30
      toy_sub_group (fun id => id) (fun id => [100 + id]) = Some r /\
    forall id, r id = [100; 0; 1; 2; 3; 4].
Proof.
  apply (reduce_init_uses_the_init_of_the_first (fun _ _ => []) app
           (fun v : Z => [v]) toy_sub_group (fun id => id)
           (fun id => [100 + id]) 30).
  - intros a b c. apply app_assoc.
  - simpl. lia.
  - simpl. lia.
  - lia.
Defined.

Lemma mask_offsets_are_ranks_witness :
  group_algorithm.offset 11 <$> [0; 1; 3] = [0; 1; 2].
Proof. apply (mask_offsets_are_ranks 11). lia. Defined.

Lemma joint_reduce_reduces_the_range_witness :
  group_algorithm.joint_reduce Z.add 0 (fun p => 10 * p) toy_reduce_over_group
    nvptx_device_pass 7 11 0 7 3
  = Some (Returned 210).
Proof.
  apply (joint_reduce_reduces_the_range Z.add 0 (fun p => 10 * p)
           toy_reduce_over_group nvptx_device_pass 7 11 0 7 3).
  - intros a b c. lia.
  - intros a b. lia.
  - intros a. lia.
  - apply toy_reduce_over_group_combines.
  - reflexivity.
  - lia.
  - lia.
  - reflexivity.
  - lia.
  - simpl. lia.
Defined.

Lemma joint_reduce_init_reduces_the_range_witness :
  group_algorithm.joint_reduce_init Z.add 0 (fun p => 10 * p)
    toy_reduce_over_group nvptx_device_pass 7 11 0 7 (fun id => 1000 * id) 3
  = Some (Returned 3210).
Proof.
  apply (joint_reduce_init_reduces_the_range Z.add 0 (fun p => 10 * p)
           toy_reduce_over_group nvptx_device_pass 7 11 0 7
           (fun id => 1000 * id) 3).
  - intros a b c. lia.
  - intros a b. lia.
  - intros a. lia.
  - apply toy_reduce_over_group_combines.
  - reflexivity.
  - lia.
  - lia.
  - reflexivity.
  - lia.
  - simpl. lia.
Defined.

Lemma joint_reduce_empty_mask_loops_witness :
  group_algorithm.joint_reduce_partial Z.add 0 (fun p => 10 * p) 1000 0 0 7 3
  = None.
Proof.
  apply (joint_reduce_empty_mask_loops Z.add 0 (fun p => 10 * p) 0 0 7 3).
  - reflexivity.
  - lia.
Defined.
